(** * download_fonts.py: the font-face extraction and source-selection pipeline

    A shallow embedding of [src/download_fonts.py] and the properties of its
    specification.

    Python strings are sequences of Unicode code points: a character is a
    code point in [N] and a string a [list N].  The regular expressions of the
    source are kept as syntax trees and run by a backtracking matcher with
    Python's greedy, leftmost-first discipline.  What the program takes from
    its runtime and libraries (the Unicode tables beyond Latin-1, [urljoin],
    [urlparse], the [cssutils] parser) is gathered in the class [Runtime]. *)

From Stdlib Require Import String Ascii.
From stdpp Require Import base option list sorting gmap.

Local Open Scope N_scope.

(** ** Characters and strings *)

Abbreviation char := N (only parsing).
Abbreviation str := (list N) (only parsing).

(** A string literal of the source, as its code points (ASCII only). *)
Definition lit (s : string) : str :=
  List.map N_of_ascii (list_ascii_of_string s).

Definition chr (a : ascii) : char := N_of_ascii a.

(** [Py_UNICODE_ISSPACE]: what [\s] matches in a [str] pattern and what
    [str.strip()] removes. *)
Definition is_space (c : char) : bool :=
  ((9 <=? c) && (c <=? 13)) || ((28 <=? c) && (c <=? 32))
  || (c =? 133) || (c =? 160) || (c =? 5760)
  || ((8192 <=? c) && (c <=? 8202))
  || (c =? 8232) || (c =? 8233) || (c =? 8239) || (c =? 8287) || (c =? 12288).

Definition is_ascii_upper (c : char) : bool := (65 <=? c) && (c <=? 90).
Definition is_ascii_lower (c : char) : bool := (97 <=? c) && (c <=? 122).
Definition is_ascii_digit (c : char) : bool := (48 <=? c) && (c <=? 57).
Definition is_ascii (c : char) : bool := c <? 128.

Definition ascii_alnum (c : char) : bool :=
  is_ascii_upper c || is_ascii_lower c || is_ascii_digit c.

(** [Py_UNICODE_ISALNUM] on U+0080..U+00FF: the letters, the superscript
    digits and the vulgar fractions of Latin-1. *)
Definition latin1_alnum (c : char) : bool :=
  (c =? 170) || (c =? 178) || (c =? 179) || (c =? 181) || (c =? 185)
  || (c =? 186) || ((188 <=? c) && (c <=? 190))
  || ((192 <=? c) && (c <=? 214)) || ((216 <=? c) && (c <=? 246))
  || ((248 <=? c) && (c <=? 255)).

Definition ascii_tolower (c : char) : char :=
  if is_ascii_upper c then c + 32 else c.

(** ** Results of fallible calls *)

Inductive exn : Type :=
| ValueError      (* raised by urllib.parse on a malformed authority *)
| LibraryError.   (* any other [Exception] raised inside a library *)

Inductive result (A : Type) : Type :=
| Ok (a : A)
| Raise (e : exn).
Arguments Ok {A} a.
Arguments Raise {A} e.

#[global] Instance result_ret : MRet result := fun _ a => Ok a.
#[global] Instance result_bind : MBind result := fun _ _ f m =>
  match m with Ok a => f a | Raise e => Raise e end.
#[global] Instance result_fmap : FMap result := fun _ _ f m =>
  match m with Ok a => Ok (f a) | Raise e => Raise e end.

(** ** Data model *)

Inductive FontCategory : Type :=
| SERIF | SANS_SERIF | MONOSPACE | DISPLAY | UNKNOWN.

Record FontFace : Type := mkFontFace {
  family : str;
  url : str;
  weight : str;
  style : str;
  format : option str;
  category : FontCategory;
}.

(** A rule of a parsed style sheet, as [parse_css_for_fonts] looks at it: a
    [CSSFontFaceRule] with its properties (name, value) in source order, or
    any other rule. *)
Inductive css_rule : Type :=
| CSSFontFaceRule (props : list (str * str))
| OtherRule.

(** ** The runtime and the libraries *)

Class Runtime : Type := {
  (** [Py_UNICODE_ISALNUM] above U+00FF *)
  uni_alnum : char -> bool;
  (** [str.lower] on a string that is not pure ASCII *)
  uni_lower : str -> str;
  (** [urllib.parse.urljoin(base, url)] *)
  urljoin : str -> str -> result str;
  (** [urllib.parse.urlparse(url).path] *)
  urlparse_path : str -> result str;
  (** [cssutils.parseString(css_text)], iterated *)
  parseString : str -> result (list css_rule);
}.

(** ** Python string methods *)

(** [s.startswith(p)] *)
Fixpoint startswith (p s : str) : bool :=
  match p, s with
  | [], _ => true
  | a :: p', b :: s' => (a =? b) && startswith p' s'
  | _ :: _, [] => false
  end.

(** [s.lstrip(chars)], [s.rstrip(chars)], [s.strip(chars)] for a predicate *)
Fixpoint lstrip_by (p : char -> bool) (s : str) : str :=
  match s with
  | c :: s' => if p c then lstrip_by p s' else s
  | [] => []
  end.

Definition rstrip_by (p : char -> bool) (s : str) : str :=
  reverse (lstrip_by p (reverse s)).

Definition strip_by (p : char -> bool) (s : str) : str :=
  rstrip_by p (lstrip_by p s).

(** [s.strip()] *)
Definition strip (s : str) : str := strip_by is_space s.

(** [s.strip(q)] where [q] holds the two quote characters *)
Definition strip_quotes (s : str) : str :=
  strip_by (fun c => (c =? 39) || (c =? 34)) s.

(** [s.split(sep)] for a one-character separator: never empty *)
Fixpoint split (sep : char) (s : str) : list str :=
  match s with
  | [] => [[]]
  | c :: s' =>
      if c =? sep then [] :: split sep s'
      else match split sep s' with
           | p :: ps => (c :: p) :: ps
           | [] => [[c]]
           end
  end.

(** [c in s] *)
Definition contains (c : char) (s : str) : bool :=
  existsb (N.eqb c) s.

(** [s.rfind(c)], as an option *)
Fixpoint rfind (c : char) (s : str) : option nat :=
  match s with
  | [] => None
  | x :: s' =>
      match rfind c s' with
      | Some i => Some (S i)
      | None => if x =? c then Some 0%nat else None
      end
  end.

(** ** Regular expressions

    The fragment of Python's [re] syntax the source uses: character classes,
    a class under [?], [*] or [+] (all greedy), and one capturing group. *)

Inductive atom : Type :=
| AChar (c : char)          (* a literal character *)
| ASpace                    (* [\s] *)
| AWord.                    (* [\w] *)

Inductive cls : Type :=
| CAtom (a : atom)
| CCharI (c : char)         (* a literal character under re.IGNORECASE *)
| CDot                      (* [.] without re.DOTALL *)
| CSome (l : list atom)     (* a set *)
| CNone (l : list atom).    (* a negated set *)

Inductive regex : Type :=
| RCls (k : cls)
| ROpt (k : cls)
| RStar (k : cls)
| RPlus (k : cls)
| RGroup (r : regex).

(** A pattern is a concatenation. *)
Abbreviation pattern := (list regex) (only parsing).

Section WithRuntime.
Context `{RT : Runtime}.

(** [\w] in a [str] pattern: [Py_UNICODE_ISALNUM(c) || c == '_'] *)
Definition is_word (c : char) : bool :=
  (c =? 95) ||
  (if c <? 128 then ascii_alnum c
   else if c <? 256 then latin1_alnum c
   else uni_alnum c).

(** [s.lower()] *)
Definition lower (s : str) : str :=
  if forallb is_ascii s then List.map ascii_tolower s else uni_lower s.

Definition atom_match (a : atom) (c : char) : bool :=
  match a with
  | AChar x => c =? x
  | ASpace => is_space c
  | AWord => is_word c
  end.

(** Under re.IGNORECASE a literal matches the characters whose simple
    lower-case mapping is its own; the literals of the source so flagged
    are ASCII and have no such character outside ASCII. *)
Definition cls_match (k : cls) (c : char) : bool :=
  match k with
  | CAtom a => atom_match a c
  | CCharI x => ascii_tolower c =? ascii_tolower x
  | CDot => negb (c =? 10)
  | CSome l => existsb (fun a => atom_match a c) l
  | CNone l => negb (existsb (fun a => atom_match a c) l)
  end.

(** The matcher, in continuation-passing style: [cont] is given what is
    left of the text and group 1.  A greedy quantifier tries the longest run
    first and gives characters back while the continuation fails. *)
Section Matcher.
Context {A : Type}.

Fixpoint m_star (k : cls) (s : str) (cap : option str)
    (cont : str -> option str -> option A) : option A :=
  match s with
  | c :: s' =>
      if cls_match k c then
        match m_star k s' cap cont with
        | Some a => Some a
        | None => cont s cap
        end
      else cont s cap
  | [] => cont [] cap
  end.

Fixpoint m_item (r : regex) (s : str) (cap : option str)
    (cont : str -> option str -> option A) : option A :=
  match r with
  | RCls k =>
      match s with
      | c :: s' => if cls_match k c then cont s' cap else None
      | [] => None
      end
  | ROpt k =>
      match s with
      | c :: s' =>
          if cls_match k c then
            match cont s' cap with
            | Some a => Some a
            | None => cont s cap
            end
          else cont s cap
      | [] => cont [] cap
      end
  | RStar k => m_star k s cap cont
  | RPlus k =>
      match s with
      | c :: s' => if cls_match k c then m_star k s' cap cont else None
      | [] => None
      end
  | RGroup r' =>
      m_item r' s cap
        (fun s' _ => cont s' (Some (take (length s - length s') s)))
  end.

Fixpoint m_seq (p : pattern) (s : str) (cap : option str)
    (cont : str -> option str -> option A) : option A :=
  match p with
  | [] => cont s cap
  | r :: p' => m_item r s cap (fun s' cap' => m_seq p' s' cap' cont)
  end.

End Matcher.

(** A match object: how many characters it spans and [group(1)]. *)
Record re_match : Type := mkMatch {
  span : nat;
  group1 : str;
}.

(** [re.match]-like attempt at the first character of [s] *)
Definition match_at (p : pattern) (s : str) : option re_match :=
  m_seq p s None
    (fun s' cap => Some (mkMatch (length s - length s') (default [] cap))).

(** [re.search(p, s)]: the first position, from the left, with a match *)
Fixpoint re_search (p : pattern) (s : str) : option re_match :=
  match match_at p s with
  | Some m => Some m
  | None =>
      match s with
      | _ :: s' => re_search p s'
      | [] => None
      end
  end.

(** [re.finditer(p, s)]: the matches from left to right, none overlapping.
    [skip] counts the characters of the last match still to be passed. *)
Fixpoint finditer_from (skip : nat) (p : pattern) (s : str) : list re_match :=
  match skip with
  | S n =>
      match s with
      | _ :: s' => finditer_from n p s'
      | [] => []
      end
  | O =>
      match match_at p s with
      | Some m =>
          m :: match s with
               | _ :: s' => finditer_from (pred (span m)) p s'
               | [] => []
               end
      | None =>
          match s with
          | _ :: s' => finditer_from 0 p s'
          | [] => []
          end
      end
  end.

Definition finditer (p : pattern) (s : str) : list re_match :=
  finditer_from 0 p s.

(** [re.sub(p, repl, s)] *)
Fixpoint re_sub_from (skip : nat) (p : pattern) (repl s : str) : str :=
  match skip with
  | S n =>
      match s with
      | _ :: s' => re_sub_from n p repl s'
      | [] => []
      end
  | O =>
      match match_at p s with
      | Some m =>
          repl ++ match s with
                  | c :: s' =>
                      match span m with
                      | O => c :: re_sub_from 0 p repl s'
                      | S n => re_sub_from n p repl s'
                      end
                  | [] => []
                  end
      | None =>
          match s with
          | c :: s' => c :: re_sub_from 0 p repl s'
          | [] => []
          end
      end
  end.

Definition re_sub (p : pattern) (repl s : str) : str :=
  re_sub_from 0 p repl s.

(** A literal as a pattern *)
Definition plit (s : string) : pattern :=
  List.map (fun a => RCls (CAtom (AChar (N_of_ascii a)))) (list_ascii_of_string s).

(** A literal under re.IGNORECASE *)
Definition pliti (s : string) : pattern :=
  List.map (fun a => RCls (CCharI (N_of_ascii a))) (list_ascii_of_string s).

(** ** The patterns of the source

    In the comments [Q] stands for the double-quote character. *)

Definition DQUOTE : char := 34.
Definition SQUOTE : char := 39.

Definition lc (a : ascii) : regex := RCls (CAtom (AChar (chr a))).
Definition spaces : regex := RStar (CAtom ASpace).
Definition quote_opt : regex := ROpt (CSome [AChar DQUOTE; AChar SQUOTE]).

(** url\([Q\']?([^Q\')\s]+)[Q\']?\) *)
Definition URL_RE : pattern :=
  plit "url(" ++
  [quote_opt;
   RGroup (RPlus (CNone [AChar DQUOTE; AChar SQUOTE; AChar (chr ")"); ASpace]));
   quote_opt; lc ")"].

(** format\([Q\']?([^Q\')\s]+)[Q\']?\) *)
Definition FORMAT_RE : pattern :=
  plit "format(" ++
  [quote_opt;
   RGroup (RPlus (CNone [AChar DQUOTE; AChar SQUOTE; AChar (chr ")"); ASpace]));
   quote_opt; lc ")"].

(** @font-face\s*\{([^}]+)\} with re.IGNORECASE | re.DOTALL *)
Definition BLOCK_RE : pattern :=
  pliti "@font-face" ++
  [spaces; lc "{"; RGroup (RPlus (CNone [AChar (chr "}")])); lc "}"].

(** font-family\s*:\s*['\Q]?([^;'\Q]+)['\Q]?\s*; *)
Definition FAMILY_RE : pattern :=
  plit "font-family" ++
  [spaces; lc ":"; spaces; quote_opt;
   RGroup (RPlus (CNone [AChar (chr ";"); AChar SQUOTE; AChar DQUOTE]));
   quote_opt; spaces; lc ";"].

(** name\s*:\s*([^;]+); for a property name *)
Definition decl_re (name : string) : pattern :=
  plit name ++
  [spaces; lc ":"; spaces; RGroup (RPlus (CNone [AChar (chr ";")])); lc ";"].

Definition SRC_RE : pattern := decl_re "src".
Definition WEIGHT_RE : pattern := decl_re "font-weight".
Definition STYLE_RE : pattern := decl_re "font-style".

(** [^\w\-] *)
Definition UNSAFE_RE : pattern := [RCls (CNone [AWord; AChar (chr "-")])].

(** \s+ *)
Definition SPACES_RE : pattern := [RPlus (CAtom ASpace)].

Definition SERIF_PATTERNS : list pattern :=
  [ plit "serif"; plit "georgia"; plit "times"; plit "garamond";
    plit "palatino"; plit "cambria"; plit "didot"; plit "bodoni";
    plit "caslon"; plit "baskerville"; plit "minion"; plit "sabon";
    plit "bembo"; plit "plantin";
    plit "econ" ++ [RStar CDot] ++ plit "serif";
    plit "economist" ++ [RStar CDot] ++ plit "serif" ].

Definition SANS_PATTERNS : list pattern :=
  [ plit "sans"; plit "arial"; plit "helvetica"; plit "verdana";
    plit "tahoma"; plit "roboto";
    plit "open" ++ [spaces] ++ plit "sans";
    plit "lato"; plit "montserrat"; plit "proxima"; plit "futura";
    plit "avenir"; plit "gotham"; plit "gill"; plit "franklin";
    plit "econ" ++ [RStar CDot] ++ plit "sans";
    plit "economist" ++ [RStar CDot] ++ plit "sans" ].

Definition MONO_PATTERNS : list pattern :=
  [ plit "mono"; plit "courier"; plit "consolas"; plit "menlo";
    plit "fira" ++ [spaces] ++ plit "code";
    plit "source" ++ [spaces] ++ plit "code";
    plit "jetbrains" ].

(** ** classify_font *)

(** [for pattern in patterns: if re.search(pattern, s): return ...]: whether
    the loop returns *)
Fixpoint search_any (patterns : list pattern) (s : str) : bool :=
  match patterns with
  | [] => false
  | p :: rest =>
      match re_search p s with
      | Some _ => true
      | None => search_any rest s
      end
  end.

Definition classify_font (family : str) : FontCategory :=
  let family_lower := lower family in
  if search_any MONO_PATTERNS family_lower then MONOSPACE
  else if search_any SANS_PATTERNS family_lower then SANS_SERIF
  else if search_any SERIF_PATTERNS family_lower then SERIF
  else UNKNOWN.

(** ** extract_font_url *)

Definition extract_font_url (src_value base_url : str)
    : result (option (str * option str)) :=
  match re_search URL_RE src_value with
  | None => Ok None
  | Some url_match =>
      let raw_url := group1 url_match in
      if startswith (lit "data:") raw_url then Ok None
      else
        absolute_url ← urljoin base_url raw_url;
        let format_match := re_search FORMAT_RE src_value in
        let font_format := group1 <$> format_match in
        Ok (Some (absolute_url, font_format))
  end.

(** ** pathlib and dictionaries *)

(** The parts of a [PurePosixPath]: empty and [.] components are dropped. *)
Definition path_parts (p : str) : list str :=
  List.filter
    (fun x => negb (bool_decide (x = [])) && negb (bool_decide (x = lit ".")))
    (split (chr "/") p).

(** [Path(p).name] *)
Definition path_name (p : str) : str :=
  default [] (last (path_parts p)).

(** [Path(p).suffix]: from the last dot of the name, unless that dot is the
    first or the last character of the name *)
Definition path_suffix (p : str) : str :=
  let name := path_name p in
  match rfind (chr ".") name with
  | Some i =>
      if bool_decide (0 < i < length name - 1)%nat then drop i name else []
  | None => []
  end.

(** [d.get(k, dflt)] *)
Definition dict_get (d : gmap (list N) nat) (k : str) (dflt : nat) : nat :=
  default dflt (d !! k).

Definition format_priority : gmap (list N) nat :=
  list_to_map
    [ (lit "woff2", 0%nat); (lit "woff", 1%nat); (lit "truetype", 2%nat);
      (lit "opentype", 3%nat); (lit "embedded-opentype", 4%nat) ].

Definition ext_to_fmt : gmap (list N) nat :=
  list_to_map
    [ (lit ".woff2", 0%nat); (lit ".woff", 1%nat); (lit ".ttf", 2%nat);
      (lit ".otf", 3%nat); (lit ".eot", 4%nat) ].

(** [l.sort(key=...)]: Python's sort is stable; insertion from the right
    places an element before those of equal key that followed it. *)
Section Sort.
Context {A : Type} (key : A -> nat).

Fixpoint insert_by (x : A) (l : list A) : list A :=
  match l with
  | [] => [x]
  | y :: l' =>
      if (key x <=? key y)%nat then x :: l else y :: insert_by x l'
  end.

Fixpoint sort_by (l : list A) : list A :=
  match l with
  | [] => []
  | x :: l' => insert_by x (sort_by l')
  end.

End Sort.

(** ** parse_font_face_rule *)

(** The local variables the loop over [rule.style] assigns *)
Record rule_vars : Type := mkVars {
  v_family : option str;
  v_weight : str;
  v_style : str;
  v_src : option str;
}.

Definition read_prop (vars : rule_vars) (prop : str * str) : rule_vars :=
  let '(name, value) := prop in
  if bool_decide (name = lit "font-family") then
    mkVars (Some (strip_quotes value)) (v_weight vars) (v_style vars) (v_src vars)
  else if bool_decide (name = lit "font-weight") then
    mkVars (v_family vars) value (v_style vars) (v_src vars)
  else if bool_decide (name = lit "font-style") then
    mkVars (v_family vars) (v_weight vars) value (v_src vars)
  else if bool_decide (name = lit "src") then
    mkVars (v_family vars) (v_weight vars) (v_style vars) (Some value)
  else vars.

Definition read_props (props : list (str * str)) : rule_vars :=
  foldl read_prop (mkVars None (lit "400") (lit "normal") None) props.

(** [not x] for an optional string: it holds of [None] and of the empty
    string *)
Definition falsy (x : option str) : bool :=
  match x with
  | None | Some [] => true
  | Some _ => false
  end.

Definition candidate : Type := str * option str * nat.

Definition priority_of (c : candidate) : nat := c.2.

(** One turn of the loop over [src_value.split(",")] *)
Definition candidate_of (src_part base_url : str) : result (option candidate) :=
  r ← extract_font_url (strip src_part) base_url;
  match r with
  | None => Ok None
  | Some (url, fmt) =>
      let priority := dict_get format_priority (default [] fmt) 5 in
      match fmt with
      | Some _ => Ok (Some (url, fmt, priority))
      | None =>
          path ← urlparse_path url;
          let ext := lower (path_suffix path) in
          let priority := dict_get ext_to_fmt ext 5 in
          Ok (Some (url, fmt, priority))
      end
  end.

Fixpoint collect_candidates (parts : list str) (base_url : str)
    : result (list candidate) :=
  match parts with
  | [] => Ok []
  | src_part :: rest =>
      c ← candidate_of src_part base_url;
      cs ← collect_candidates rest base_url;
      Ok (from_option (fun x => [x]) [] c ++ cs)
  end.

(** The candidates of a [src] value, and [candidates[0]] after the sort *)
Definition src_candidates (src_value base_url : str) : result (list candidate) :=
  collect_candidates (split (chr ",") src_value) base_url.

Definition best_candidate (candidates : list candidate) : option candidate :=
  head (sort_by priority_of candidates).

(** Lines 159-179 of the source, the selection of the source to keep *)
Definition select_best_source (src_value base_url : str)
    : result (option candidate) :=
  candidates ← src_candidates src_value base_url;
  Ok (best_candidate candidates).

Definition parse_font_face_rule (rule : list (str * str)) (base_url : str)
    : result (list FontFace) :=
  let vars := read_props rule in
  if falsy (v_family vars) || falsy (v_src vars) then Ok []
  else
    let family := default [] (v_family vars) in
    let src_value := default [] (v_src vars) in
    best ← select_best_source src_value base_url;
    match best with
    | None => Ok []
    | Some (best_url, best_format, _) =>
        let category := classify_font family in
        Ok [mkFontFace family best_url (v_weight vars) (v_style vars)
              best_format category]
    end.

(** ** parse_css_with_regex *)

(** The body of the loop over the matched blocks *)
Definition parse_block (block base_url : str) : result (option FontFace) :=
  let family_match := re_search FAMILY_RE block in
  let src_match := re_search SRC_RE block in
  let weight_match := re_search WEIGHT_RE block in
  let style_match := re_search STYLE_RE block in
  match family_match, src_match with
  | Some fm, Some sm =>
      let family := strip (group1 fm) in
      let src_value := strip (group1 sm) in
      let weight := from_option (fun m => strip (group1 m)) (lit "400") weight_match in
      let style := from_option (fun m => strip (group1 m)) (lit "normal") style_match in
      r ← extract_font_url src_value base_url;
      match r with
      | Some (url, fmt) =>
          let category := classify_font family in
          Ok (Some (mkFontFace family url weight style fmt category))
      | None => Ok None
      end
  | _, _ => Ok None
  end.

Fixpoint parse_blocks (blocks : list str) (base_url : str)
    : result (list FontFace) :=
  match blocks with
  | [] => Ok []
  | block :: rest =>
      f ← parse_block block base_url;
      fs ← parse_blocks rest base_url;
      Ok (from_option (fun x => [x]) [] f ++ fs)
  end.

Definition parse_css_with_regex (css_text base_url : str)
    : result (list FontFace) :=
  parse_blocks (group1 <$> finditer BLOCK_RE css_text) base_url.

(** ** parse_css_for_fonts *)

(** The loop inside [try]: the list [fonts] as it stands when the loop ends
    or an exception leaves it. *)
Fixpoint extend_from_rules (sheet : list css_rule) (base_url : str)
    (fonts : list FontFace) : list FontFace * option exn :=
  match sheet with
  | [] => (fonts, None)
  | CSSFontFaceRule rule :: rest =>
      match parse_font_face_rule rule base_url with
      | Ok fs => extend_from_rules rest base_url (fonts ++ fs)
      | Raise e => (fonts, Some e)
      end
  | OtherRule :: rest => extend_from_rules rest base_url fonts
  end.

Definition try_structured (css_text base_url : str) (fonts : list FontFace)
    : list FontFace * option exn :=
  match parseString css_text with
  | Ok sheet => extend_from_rules sheet base_url fonts
  | Raise e => (fonts, Some e)
  end.

Definition parse_css_for_fonts (css_text base_url : str)
    : result (list FontFace) :=
  let fonts := [] in
  match try_structured css_text base_url fonts with
  | (fonts, None) => Ok fonts
  | (fonts, Some _) =>
      fs ← parse_css_with_regex css_text base_url;
      Ok (fonts ++ fs)
  end.

(** ** deduplicate_fonts and filter_fonts *)

Fixpoint dedup_loop (fonts : list FontFace) (seen_urls : gset (list N))
    (unique : list FontFace) : list FontFace :=
  match fonts with
  | [] => unique
  | font :: rest =>
      if bool_decide (url font ∉ seen_urls)
      then dedup_loop rest ({[url font]} ∪ seen_urls) (unique ++ [font])
      else dedup_loop rest seen_urls unique
  end.

Definition deduplicate_fonts (fonts : list FontFace) : list FontFace :=
  dedup_loop fonts ∅ [].

#[global] Instance FontCategory_eq_dec : EqDecision FontCategory.
Proof. solve_decision. Defined.

Definition filter_fonts (fonts : list FontFace)
    (categories : option (list FontCategory)) : list FontFace :=
  match categories with
  | None => fonts
  | Some cats => List.filter (fun f => bool_decide (category f ∈ cats)) fonts
  end.

(** ** download_font: the file name *)

Definition digit_char (n : nat) : char := 48 + N.of_nat n.

(** The decimal digits of [n], most significant first; [fuel] bounds the
    number of digits. *)
Fixpoint digits_fuel (fuel n : nat) (acc : str) : str :=
  match fuel with
  | O => acc
  | S fuel' =>
      let acc' := digit_char (n mod 10) :: acc in
      if (n <? 10)%nat then acc' else digits_fuel fuel' (n / 10) acc'
  end.

Definition str_of_nat (n : nat) : str := digits_fuel (S n) n [].

(** [f"{index:02d}"] *)
Definition format_02d (index : nat) : str :=
  let d := str_of_nat index in
  replicate (2 - length d) (chr "0") ++ d.

(** [x or dflt] for strings *)
Definition str_or (x dflt : str) : str :=
  match x with [] => dflt | _ => x end.

Definition download_filename (font : FontFace) (index : nat) : result str :=
  path ← urlparse_path (url font);
  let original_name := path_name path in
  let original_name :=
    if contains (chr "?") original_name
    then default [] (head (split (chr "?") original_name))
    else original_name in
  let safe_family := re_sub UNSAFE_RE (lit "_") (family font) in
  let safe_weight := re_sub SPACES_RE (lit "_") (weight font) in
  let ext := str_or (path_suffix original_name) (lit ".woff2") in
  Ok (safe_family ++ lit "-" ++ safe_weight ++ lit "-" ++ style font
        ++ lit "-" ++ format_02d index ++ ext).

(** The names [main] gives the files: the loop over [enumerate(fonts)] of the
    deduplicated and filtered list *)
Definition download_filenames (fonts : list FontFace)
    (categories : option (list FontCategory)) : list (result str) :=
  imap (fun i font => download_filename font i)
    (filter_fonts (deduplicate_fonts fonts) categories).

End WithRuntime.

(** ** A reference runtime

    An instance of [Runtime] to run the program on concrete inputs:
    [urllib.parse] transcribed from CPython 3.11 for [str] arguments, with
    two of its screens on the authority left out (the NFKC screen of a
    non-ASCII authority and the address check of a host in brackets, beyond
    the pairing of the brackets).  No code point above U+00FF is reckoned
    alphanumeric and [str.lower] leaves a string that is not pure ASCII as
    it is.  The style-sheet parser is a parameter of the instance. *)

Module urllib.

Definition uses_relative : list (list N) :=
  lit <$> [ ""; "ftp"; "http"; "gopher"; "nntp"; "imap"; "wais"; "file";
            "https"; "shttp"; "mms"; "prospero"; "rtsp"; "rtspu"; "sftp";
            "svn"; "svn+ssh"; "ws"; "wss" ]%string.

Definition uses_netloc : list (list N) :=
  lit <$> [ ""; "ftp"; "http"; "gopher"; "nntp"; "telnet"; "imap"; "wais";
            "file"; "mms"; "https"; "shttp"; "snews"; "prospero"; "rtsp";
            "rtspu"; "rsync"; "svn"; "svn+ssh"; "sftp"; "nfs"; "git";
            "git+ssh"; "ws"; "wss" ]%string.

Definition uses_params : list (list N) :=
  lit <$> [ ""; "ftp"; "hdl"; "prospero"; "http"; "imap"; "https"; "shttp";
            "rtsp"; "rtspu"; "sip"; "sips"; "mms"; "sftp"; "tel" ]%string.

Definition is_scheme_char (c : char) : bool :=
  ascii_alnum c || (c =? chr "+") || (c =? chr "-") || (c =? chr ".").

(** [s.find(c)] *)
Fixpoint find (c : char) (s : str) : option nat :=
  match s with
  | [] => None
  | x :: s' => if x =? c then Some 0%nat else S <$> find c s'
  end.

(** [s.split(c, 1)] when [c] is in [s] *)
Definition split_once (c : char) (s : str) : option (str * str) :=
  i ← find c s; Some (take i s, drop (S i) s).

(** [sep.join(l)] *)
Fixpoint join (sep : str) (l : list str) : str :=
  match l with
  | [] => []
  | [x] => x
  | x :: l' => x ++ sep ++ join sep l'
  end.

Definition is_netloc_delim (c : char) : bool :=
  (c =? chr "/") || (c =? chr "?") || (c =? chr "#").

Fixpoint span_until (p : char -> bool) (s : str) : str * str :=
  match s with
  | [] => ([], [])
  | c :: s' =>
      if p c then ([], s)
      else let '(a, b) := span_until p s' in (c :: a, b)
  end.

Record SplitResult : Type := mkSplit {
  sp_scheme : str; sp_netloc : str; sp_path : str;
  sp_query : str; sp_fragment : str;
}.

Definition urlsplit (url scheme : str) : result SplitResult :=
  let unsafe c := (c =? 9) || (c =? 13) || (c =? 10) in
  let url := lstrip_by (fun c => c <=? 32) url in
  let scheme := strip_by (fun c => c <=? 32) scheme in
  let url := List.filter (fun c => negb (unsafe c)) url in
  let scheme := List.filter (fun c => negb (unsafe c)) scheme in
  let '(scheme, url) :=
    match find (chr ":") url with
    | Some (S i') =>
        let i := S i' in
        if is_ascii (default 0 (head url))
           && (is_ascii_upper (default 0 (head url))
               || is_ascii_lower (default 0 (head url)))
           && forallb is_scheme_char (take i url)
        then (List.map ascii_tolower (take i url), drop (S i) url)
        else (scheme, url)
    | _ => (scheme, url)
    end in
  let split_netloc :=
    if startswith (lit "//") url then
      let '(netloc, rest) := span_until is_netloc_delim (drop 2 url) in
      if (contains (chr "[") netloc && negb (contains (chr "]") netloc))
         || (contains (chr "]") netloc && negb (contains (chr "[") netloc))
      then Raise ValueError
      else Ok (netloc, rest)
    else Ok ([], url) in
  '(netloc, url) ← split_netloc;
  let '(url, fragment) := default (url, []) (split_once (chr "#") url) in
  let '(url, query) := default (url, []) (split_once (chr "?") url) in
  Ok (mkSplit scheme netloc url query fragment).

Record ParseResult : Type := mkParse {
  scheme : str; netloc : str; path : str;
  params : str; query : str; fragment : str;
}.

(** [_splitparams(url)], called when [;] is in [url] *)
Definition splitparams (url : str) : str * str :=
  let cut i := (take i url, drop (S i) url) in
  match rfind (chr "/") url with
  | Some j =>
      match find (chr ";") (drop j url) with
      | Some i => cut (j + i)%nat
      | None => (url, [])
      end
  | None => cut (default 0%nat (find (chr ";") url))
  end.

Definition urlparse (url scheme : str) : result ParseResult :=
  r ← urlsplit url scheme;
  let '(url, params) :=
    if bool_decide (sp_scheme r ∈ uses_params) && contains (chr ";") (sp_path r)
    then splitparams (sp_path r)
    else (sp_path r, []) in
  Ok (mkParse (sp_scheme r) (sp_netloc r) url params (sp_query r) (sp_fragment r)).

Definition nonempty (s : str) : bool :=
  match s with [] => false | _ => true end.

Definition urlunsplit (scheme netloc url query fragment : str) : str :=
  let url :=
    if nonempty netloc
       || (nonempty scheme && bool_decide (scheme ∈ uses_netloc)
           && negb (startswith (lit "//") url))
    then
      let url :=
        if nonempty url && negb (startswith (lit "/") url)
        then lit "/" ++ url else url in
      lit "//" ++ netloc ++ url
    else url in
  let url := if nonempty scheme then scheme ++ lit ":" ++ url else url in
  let url := if nonempty query then url ++ lit "?" ++ query else url in
  let url := if nonempty fragment then url ++ lit "#" ++ fragment else url in
  url.

Definition urlunparse (scheme netloc url params query fragment : str) : str :=
  let url := if nonempty params then url ++ lit ";" ++ params else url in
  urlunsplit scheme netloc url query fragment.

(** [segments[1:-1] = filter(None, segments[1:-1])] *)
Definition drop_inner_empty (segments : list str) : list str :=
  match segments with
  | first :: rest =>
      match last rest with
      | Some final =>
          first :: List.filter nonempty (removelast rest) ++ [final]
      | None => segments
      end
  | [] => []
  end.

(** The loop over [segments] *)
Fixpoint resolve (segments resolved_path : list str) : list str :=
  match segments with
  | [] => resolved_path
  | seg :: rest =>
      if bool_decide (seg = lit "..") then resolve rest (removelast resolved_path)
      else if bool_decide (seg = lit ".") then resolve rest resolved_path
      else resolve rest (resolved_path ++ [seg])
  end.

Definition urljoin (base url : str) : result str :=
  if negb (nonempty base) then Ok url
  else if negb (nonempty url) then Ok base
  else
    b ← urlparse base [];
    u ← urlparse url (scheme b);
    if negb (bool_decide (scheme u = scheme b))
       || negb (bool_decide (scheme u ∈ uses_relative))
    then Ok url
    else if bool_decide (scheme u ∈ uses_netloc) && nonempty (netloc u)
    then Ok (urlunparse (scheme u) (netloc u) (path u) (params u)
               (query u) (fragment u))
    else
      let netloc' :=
        if bool_decide (scheme u ∈ uses_netloc) then netloc b else netloc u in
      if negb (nonempty (path u)) && negb (nonempty (params u))
      then
        let query' := if nonempty (query u) then query u else query b in
        Ok (urlunparse (scheme u) netloc' (path b) (params b) query'
              (fragment u))
      else
        let base_parts := split (chr "/") (path b) in
        let base_parts :=
          if nonempty (default [] (last base_parts))
          then removelast base_parts else base_parts in
        let segments :=
          if startswith (lit "/") (path u) then split (chr "/") (path u)
          else drop_inner_empty (base_parts ++ split (chr "/") (path u)) in
        let resolved_path := resolve segments [] in
        let resolved_path :=
          if bool_decide (default [] (last segments) ∈ [lit "."; lit ".."])
          then resolved_path ++ [[]] else resolved_path in
        Ok (urlunparse (scheme u) netloc'
              (str_or (join (lit "/") resolved_path) (lit "/"))
              (params u) (query u) (fragment u)).

Definition urlparse_path (url : str) : result str :=
  path <$> urlparse url [].

End urllib.

Definition reference_runtime (parser : str -> result (list css_rule)) : Runtime :=
  {| uni_alnum := fun _ => false;
     uni_lower := fun s => s;
     urljoin := urllib.urljoin;
     urlparse_path := urllib.urlparse_path;
     parseString := parser |}.

(** ** Definitions the properties are stated with *)

(** The classifier as the specification words it: an ordered list of
    (category, pattern set) pairs, the first set with a matching pattern
    wins. *)
Section SpecSide.
Context `{RT : Runtime}.

Definition CLASSIFY_RULES : list (FontCategory * list pattern) :=
  [ (MONOSPACE, MONO_PATTERNS); (SANS_SERIF, SANS_PATTERNS);
    (SERIF, SERIF_PATTERNS) ].

Definition set_matches (patterns : list pattern) (s : str) : bool :=
  existsb (fun p => bool_decide (is_Some (re_search p s))) patterns.

Definition classify_by_rules (rules : list (FontCategory * list pattern))
    (s : str) : FontCategory :=
  match List.find (fun rule => set_matches rule.2 s) rules with
  | Some rule => rule.1
  | None => UNKNOWN
  end.

(** The rank tables of the specification *)
Definition declared_rank (fmt : str) : nat :=
  if bool_decide (fmt = lit "woff2") then 0
  else if bool_decide (fmt = lit "woff") then 1
  else if bool_decide (fmt = lit "truetype") then 2
  else if bool_decide (fmt = lit "opentype") then 3
  else if bool_decide (fmt = lit "embedded-opentype") then 4
  else 5.

Definition extension_rank (ext : str) : nat :=
  if bool_decide (ext = lit ".woff2") then 0
  else if bool_decide (ext = lit ".woff") then 1
  else if bool_decide (ext = lit ".ttf") then 2
  else if bool_decide (ext = lit ".otf") then 3
  else if bool_decide (ext = lit ".eot") then 4
  else 5.

(** A candidate carries the rank of its declared format, or of the
    extension of its URL when no format is declared. *)
Definition ranked (c : candidate) : Prop :=
  match c.1.2 with
  | Some fmt => c.2 = declared_rank fmt
  | None =>
      exists path, urlparse_path c.1.1 = Ok path
        /\ c.2 = extension_rank (lower (path_suffix path))
  end.

(** [c] is the first of [cs] among those of lowest rank. *)
Definition first_lowest (c : candidate) (cs : list candidate) : Prop :=
  exists l1 l2, cs = l1 ++ c :: l2
    /\ Forall (fun x => (priority_of c < priority_of x)%nat) l1
    /\ Forall (fun x => (priority_of c <= priority_of x)%nat) l2.

(** Selection over fragments already split *)
Definition select_among (parts : list str) (base_url : str)
    : result (option candidate) :=
  candidates ← collect_candidates parts base_url;
  Ok (best_candidate candidates).

(** [u] is the resolution against the base of a [url(...)] token that does
    not begin with [data:]. *)
Definition from_plain_token (base_url u : str) : Prop :=
  exists raw, startswith (lit "data:") raw = false
    /\ urljoin base_url raw = Ok u.

(** What the family keeps under [UNSAFE_RE] *)
Definition keeps (c : char) : bool := is_word c || (c =? chr "-").

Definition sanitize (s : str) : str :=
  List.map (fun c => if keeps c then c else chr "_") s.

(** The ASCII reading of the same class: letters, digits, underscore, hyphen *)
Definition ascii_safe (c : char) : bool :=
  ascii_alnum c || (c =? chr "_") || (c =? chr "-").

(** Every run of white space replaced by one underscore; [in_run] tells
    that the previous character was white space. *)
Fixpoint collapse_spaces (in_run : bool) (s : str) : str :=
  match s with
  | [] => []
  | c :: s' =>
      if is_space c then
        if in_run then collapse_spaces true s'
        else chr "_" :: collapse_spaces true s'
      else c :: collapse_spaces false s'
  end.

End SpecSide.

(** An absolute http or https URL, by its first characters *)
Definition http_base (base : str) : bool :=
  startswith (lit "http://") base || startswith (lit "https://") base.

(** Deduplication as a recursion on the list: the entries whose [url] has
    not been seen. *)
Fixpoint keep_first (seen : gset (list N)) (l : list FontFace) : list FontFace :=
  match l with
  | [] => []
  | f :: l' =>
      if bool_decide (url f ∈ seen) then keep_first seen l'
      else f :: keep_first ({[url f]} ∪ seen) l'
  end.

(** The block holds a declaration of [name] that a semicolon terminates:
    the name, white space if any, a colon, a value that is not empty and
    holds no semicolon, and the semicolon. *)
Definition terminated_decl (name block : str) : Prop :=
  exists a ws value b,
    block = a ++ name ++ ws ++ chr ":" :: value ++ chr ";" :: b
    /\ Forall (fun c => is_space c = true) ws
    /\ value <> []
    /\ (chr ";" ∉ value).

(** Some occurrence of [name] in [s] has a semicolon after it. *)
Fixpoint semicolon_follows (name s : str) : bool :=
  (startswith name s && contains (chr ";") (drop (length name) s))
  || match s with
     | _ :: s' => semicolon_follows name s'
     | [] => false
     end.


(** ** The inputs of the scenarios *)

Definition x_test_base : str := lit "https://x.test/css/s.css".

(** The round-trip scenario *)
Definition myfont_css : str :=
  lit "@font-face{font-family:'MyFont';src:url('a.ttf') format('truetype'),url('a.woff2') format('woff2');}".

(** Its one rule, with the values as written and as cssutils serialises
    them *)
Definition myfont_rule_verbatim : list (str * str) :=
  [ (lit "font-family", lit "'MyFont'");
    (lit "src", lit "url('a.ttf') format('truetype'),url('a.woff2') format('woff2')") ].

Definition myfont_rule_serialized : list (str * str) :=
  [ (lit "font-family", DQUOTE :: lit "MyFont" ++ [DQUOTE]);
    (lit "src",
     lit "url(a.ttf) format(" ++ DQUOTE :: lit "truetype" ++ DQUOTE ::
     lit "), url(a.woff2) format(" ++ DQUOTE :: lit "woff2" ++ DQUOTE :: lit ")") ].

Definition myfont_face : FontFace :=
  mkFontFace (lit "MyFont") (lit "https://x.test/css/a.woff2") (lit "400")
    (lit "normal") (Some (lit "woff2")) UNKNOWN.

(** The malformed-CSS scenario *)
Definition georgia_block : str :=
  lit "@font-face{font-family:" ++ DQUOTE :: lit "Georgia Pro" ++ DQUOTE ::
  lit ";src:url(g.woff);}".


Definition georgia_face (u : str) : FontFace :=
  mkFontFace (lit "Georgia Pro") u (lit "400") (lit "normal") None SERIF.

(** A parser that raises on every text, and one that returns a fixed sheet.
    cssutils seldom raises: the first stands in where the parser plays no
    part (the functions that do not parse a style sheet, the fallback path
    on its own); where the structured pass is to raise, the scenarios use
    the second with a rule on which [urljoin] raises. *)
Definition failing_parser : str -> result (list css_rule) :=
  fun _ => Raise LibraryError.

Definition fixed_parser (sheet : list css_rule) : str -> result (list css_rule) :=
  fun _ => Ok sheet.

(** Two rules, the second with a fallback source whose authority opens a
    bracket that it does not close *)
Definition two_rules_css : str :=
  lit "@font-face{font-family:A;src:url(a.woff);}@font-face{font-family:B;src:url(b.woff),url('//[x');}".

Definition two_rules_sheet : list css_rule :=
  [ CSSFontFaceRule [ (lit "font-family", lit "A"); (lit "src", lit "url(a.woff)") ];
    CSSFontFaceRule [ (lit "font-family", lit "B");
                      (lit "src", lit "url(b.woff), url(//[x)") ] ].

Definition face_A : FontFace :=
  mkFontFace (lit "A") (lit "https://x.test/css/a.woff") (lit "400")
    (lit "normal") None UNKNOWN.

Definition face_B : FontFace :=
  mkFontFace (lit "B") (lit "https://x.test/css/b.woff") (lit "400")
    (lit "normal") None UNKNOWN.

(** The runtimes of the scenarios *)
Definition rt_fallback : Runtime := reference_runtime failing_parser.

Definition rt_myfont : Runtime :=
  reference_runtime (fixed_parser [CSSFontFaceRule myfont_rule_verbatim]).

Definition rt_two_rules : Runtime :=
  reference_runtime (fixed_parser two_rules_sheet).

(** The reference runtime with a parser that finds no rule, for the
    functions that do not parse a style sheet *)
Definition rt_reference : Runtime := reference_runtime (fixed_parser []).

(** Four sources: a truetype file and a woff2 file without declared format,
    a woff file with its format declared, a data URI *)
Definition mixed_sources : str :=
  lit "url(a.ttf),url('b.woff') format('woff'),url(data:abc),url(c.woff2)".

(** A woff2 source and a source that cannot be resolved *)
Definition woff2_then_bad : str := lit "url(a.woff2),url('//[x')".

(** Two sources of the same rank, in both orders *)
Definition two_woff2 : str := lit "url(a.woff2),url(b.woff2)".
Definition two_woff2_swapped : str := lit "url(b.woff2),url(a.woff2)".

(** A truetype source declared before a woff2 source *)
Definition ttf_then_woff2 : str :=
  lit "url('a.ttf') format('truetype'),url('a.woff2') format('woff2')".

(** A source that is a relative reference to a file named data:foo: the
    text and what the parser makes of it *)
Definition dotdata_css : str :=
  lit "@font-face{font-family:A;src:url(./data:foo);}".

Definition rt_dotdata : Runtime :=
  reference_runtime
    (fixed_parser [ CSSFontFaceRule [ (lit "font-family", lit "A");
                                      (lit "src", lit "url(./data:foo)") ] ]).

Definition face_data_foo : FontFace :=
  mkFontFace (lit "A") (lit "data:foo") (lit "400") (lit "normal") None UNKNOWN.

(** A fragment whose token is a data URI, and a rule with a data URI before
    a file: the text and what the parser makes of it *)
Definition data_fragment : str := lit "url(data:font/woff2;base64,AAAA)".

Definition data_then_file_css : str :=
  lit "@font-face{font-family:A;src:url(data:abc),url(a.woff);}".

Definition data_then_file_sheet : list css_rule :=
  [ CSSFontFaceRule [ (lit "font-family", lit "A");
                      (lit "src", lit "url(data:abc), url(a.woff)") ] ].

Definition rt_data_then_file : Runtime :=
  reference_runtime (fixed_parser data_then_file_sheet).

(** A family with a letter outside ASCII: C, a, f, e with acute accent *)
Definition cafe_face : FontFace :=
  mkFontFace [67; 97; 102; 233] (lit "https://x.test/fonts/cafe.woff2")
    (lit "400") (lit "normal") (Some (lit "woff2")) UNKNOWN.

Definition my_font_face : FontFace :=
  mkFontFace (lit "My Font") (lit "https://x.test/fonts/my.woff?v=2")
    (lit "400  700") (lit "italic") None UNKNOWN.

(** A rule whose only source has an authority that opens a bracket and does
    not close it: [urljoin] raises on it on both paths *)
Definition bad_url_css : str :=
  lit "@font-face{font-family:C;src:url('//[x');}".

Definition bad_url_rule : list (str * str) :=
  [ (lit "font-family", lit "C"); (lit "src", lit "url(//[x)") ].

Definition rt_bad_url : Runtime :=
  reference_runtime (fixed_parser [CSSFontFaceRule bad_url_rule]).














(** The same entry of a url under another family *)
Definition face_A_renamed : FontFace :=
  mkFontFace (lit "Another") (lit "https://x.test/css/a.woff") (lit "700")
    (lit "italic") None UNKNOWN.

(** * The rest of the program *)

(** ** extract_css_urls and extract_inline_styles

    The markup parser is outside the program: the functions take what
    [soup.find_all] gives them, the [href] of every matched link
    ([link.get] gives nothing when the attribute is absent) and the
    [string] of every style element. *)

Section Markup.
Context `{RT : Runtime}.

(** The loop over the links with rel=stylesheet *)
Fixpoint append_hrefs (hrefs : list (option str)) (base_url : str)
    (urls : list str) : result (list str) :=
  match hrefs with
  | [] => Ok urls
  | Some (c :: h) :: rest =>
      u ← urljoin base_url (c :: h);
      append_hrefs rest base_url (urls ++ [u])
  | _ :: rest => append_hrefs rest base_url urls
  end.

(** The loop over the links with type=text/css *)
Fixpoint append_new_hrefs (hrefs : list (option str)) (base_url : str)
    (urls : list str) : result (list str) :=
  match hrefs with
  | [] => Ok urls
  | Some (c :: h) :: rest =>
      u ← urljoin base_url (c :: h);
      if bool_decide (u ∉ urls) then
        u' ← urljoin base_url (c :: h);
        append_new_hrefs rest base_url (urls ++ [u'])
      else append_new_hrefs rest base_url urls
  | _ :: rest => append_new_hrefs rest base_url urls
  end.

Definition extract_css_urls (rel_hrefs type_hrefs : list (option str))
    (base_url : str) : result (list str) :=
  urls ← append_hrefs rel_hrefs base_url [];
  append_new_hrefs type_hrefs base_url urls.

Definition extract_inline_styles (strings : list (option str)) : list str :=
  omap (fun x => match x with Some (c :: s) => Some (c :: s) | _ => None end)
    strings.

End Markup.

(** ** collect_fonts_from_page

    The network is a world [W] that every fetch reads and changes;
    [fetch_page] and [fetch_css] are the same three lines and share [fetch].
    The messages given to [log] are kept as events. *)

Inductive log_event : Type :=
| FetchingPage (page : str)
| ParsingInline (i : nat)
| FoundSheets (n : nat)
| FetchingCSS (css_url : str)
| FollowingImport (import_url : str)
| FailedImport (e : exn)
| FailedCSS (e : exn).

(** @import\s+url\([Q']?([^Q')\s]+)[Q']?\) *)
Definition IMPORT_RE : pattern :=
  plit "@import" ++ [RPlus (CAtom ASpace)] ++ plit "url(" ++
  [quote_opt;
   RGroup (RPlus (CNone [AChar DQUOTE; AChar SQUOTE; AChar (chr ")"); ASpace]));
   quote_opt; lc ")"].

Section Collector.
Context `{RT : Runtime}.
Variable W : Type.
Variable fetch : str -> W -> result str * W.
(** What the markup parser finds in a page *)
Variable style_strings : str -> list (option str).
Variable rel_hrefs : str -> list (option str).
Variable type_hrefs : str -> list (option str).

(** The state the function works on: the world, [all_fonts], the log *)
Record collector : Type := mkCollector {
  world : W;
  all_fonts : list FontFace;
  logged : list log_event;
}.

Definition log (st : collector) (ev : log_event) : collector :=
  mkCollector (world st) (all_fonts st) (logged st ++ [ev]).

Definition extend (st : collector) (fonts : list FontFace) : collector :=
  mkCollector (world st) (all_fonts st ++ fonts) (logged st).

Definition set_world (st : collector) (w : W) : collector :=
  mkCollector w (all_fonts st) (logged st).

(** The loop over the @import matches of one style sheet; an exception of
    [urljoin] leaves the loop. *)
Fixpoint follow_imports (imports : list str) (css_url : str) (st : collector)
    : collector * option exn :=
  match imports with
  | [] => (st, None)
  | target :: rest =>
      match urljoin css_url target with
      | Raise e => (st, Some e)
      | Ok import_url =>
          let st := log st (FollowingImport import_url) in
          match fetch import_url (world st) with
          | (Raise e, w) =>
              follow_imports rest css_url (log (set_world st w) (FailedImport e))
          | (Ok import_css, w) =>
              let st := set_world st w in
              match parse_css_for_fonts import_css import_url with
              | Raise e => follow_imports rest css_url (log st (FailedImport e))
              | Ok fonts => follow_imports rest css_url (extend st fonts)
              end
          end
      end
  end.

(** One turn of the loop over the external style sheets *)
Definition collect_stylesheet (css_url : str) (st : collector) : collector :=
  let st := log st (FetchingCSS css_url) in
  match fetch css_url (world st) with
  | (Raise e, w) => log (set_world st w) (FailedCSS e)
  | (Ok css_text, w) =>
      let st := set_world st w in
      match parse_css_for_fonts css_text css_url with
      | Raise e => log st (FailedCSS e)
      | Ok fonts =>
          let st := extend st fonts in
          match follow_imports (group1 <$> finditer IMPORT_RE css_text)
                  css_url st with
          | (st, Some e) => log st (FailedCSS e)
          | (st, None) => st
          end
      end
  end.

Definition collect_stylesheets (css_urls : list str) (st : collector)
    : collector :=
  foldl (fun st css_url => collect_stylesheet css_url st) st css_urls.

(** The loop over the inline style blocks; nothing catches what the scan
    raises. *)
Fixpoint collect_inline (styles : list str) (i : nat) (page : str)
    (st : collector) : collector * option exn :=
  match styles with
  | [] => (st, None)
  | style_text :: rest =>
      let st := log st (ParsingInline (i + 1)) in
      match parse_css_for_fonts style_text page with
      | Raise e => (st, Some e)
      | Ok fonts => collect_inline rest (S i) page (extend st fonts)
      end
  end.

(** The state at the end, and the list returned or the exception raised *)
Definition collect_fonts_from_page (page : str) (w : W)
    : collector * result (list FontFace) :=
  let st := log (mkCollector w [] []) (FetchingPage page) in
  match fetch page (world st) with
  | (Raise e, w) => (set_world st w, Raise e)
  | (Ok html, w) =>
      let st := set_world st w in
      let inline_styles := extract_inline_styles (style_strings html) in
      match collect_inline inline_styles 0 page st with
      | (st, Some e) => (st, Raise e)
      | (st, None) =>
          match extract_css_urls (rel_hrefs html) (type_hrefs html) page with
          | Raise e => (st, Raise e)
          | Ok css_urls =>
              let st := log st (FoundSheets (length css_urls)) in
              let st := collect_stylesheets css_urls st in
              (st, Ok (all_fonts st))
          end
      end
  end.

End Collector.

Arguments mkCollector {W}.
Arguments world {W}.
Arguments all_fonts {W}.
Arguments logged {W}.
Arguments log {W}.
Arguments extend {W}.
Arguments set_world {W}.
Arguments follow_imports {RT W}.
Arguments collect_stylesheet {RT W}.
Arguments collect_stylesheets {RT W}.
Arguments collect_inline {RT W}.
Arguments collect_fonts_from_page {RT W}.

(** ** extract_site_name *)

Section SiteName.
Context `{RT : Runtime}.
(** [urllib.parse.urlparse(url).netloc] *)
Variable urlparse_netloc : str -> result str.

Definition extract_site_name (page : str) : result str :=
  netloc ← urlparse_netloc page;
  let host := lower netloc in
  let host := if startswith (lit "www.") host then drop 4 host else host in
  let parts := split (chr ".") host in
  if bool_decide (2 <= length parts)%nat
  then Ok (default [] (parts !! (length parts - 2)%nat))
  else Ok host.

End SiteName.

(** ** main: the categories, the download loop, the exit status *)

(** [categories] as [main] builds it from --all, --serif, --sans-serif and
    --monospace; the set as a list without repetition *)
Definition categories_of_flags (all serif sans_serif monospace : bool)
    : option (list FontCategory) :=
  if all then None
  else if serif || sans_serif || monospace then
    Some ((if serif then [SERIF] else [])
          ++ (if sans_serif then [SANS_SERIF] else [])
          ++ (if monospace then [MONOSPACE] else []))
  else None.

Inductive printed : Type :=
| PrintedOK (name : str)
| PrintedFAILED (family : str) (e : option exn).

Section Download.
Context `{RT : Runtime}.
(** The world, the bytes of a response, a path of pathlib *)
Variables (W B P : Type).
(** [client.get(url, allow_redirects=True)], [raise_for_status()] and
    [response.content] *)
Variable get : str -> W -> result B * W.
(** [output_dir / filename], [path.write_bytes(content)], [path.name] *)
Variable path_join : P -> str -> P.
Variable write_bytes : P -> B -> W -> result unit * W.
Variable name_of : P -> str.

Record DownloadResult : Type := mkDownloadResult {
  font : FontFace;
  success : bool;
  path : option P;
  error : option exn;
}.

Definition download_font (font : FontFace) (output_dir : P) (index : nat)
    (w : W) : DownloadResult * W :=
  match get (url font) w with
  | (Raise e, w) => (mkDownloadResult font false None (Some e), w)
  | (Ok content, w) =>
      match download_filename font index with
      | Raise e => (mkDownloadResult font false None (Some e), w)
      | Ok filename =>
          let output_path := path_join output_dir filename in
          match write_bytes output_path content w with
          | (Raise e, w) => (mkDownloadResult font false None (Some e), w)
          | (Ok _, w) =>
              (mkDownloadResult font true (Some output_path) None, w)
          end
      end
  end.

(** The state of the loop of [main] over [enumerate(fonts)] *)
Record downloads : Type := mkDownloads {
  dl_world : W;
  success_count : nat;
  downloaded_paths : list P;
  console : list printed;
}.

Fixpoint download_loop (fonts : list FontFace) (i : nat) (output_dir : P)
    (st : downloads) : downloads :=
  match fonts with
  | [] => st
  | font :: rest =>
      let '(result, w) := download_font font output_dir i (dl_world st) in
      let st :=
        match success result, path result with
        | true, Some p =>
            mkDownloads w (success_count st + 1) (downloaded_paths st ++ [p])
              (console st ++ [PrintedOK (name_of p)])
        | _, _ =>
            mkDownloads w (success_count st) (downloaded_paths st)
              (console st ++ [PrintedFAILED (family font) (error result)])
        end in
      download_loop rest (S i) output_dir st
  end.

Definition download_all (fonts : list FontFace) (output_dir : P) (w : W)
    : downloads :=
  download_loop fonts 0 output_dir (mkDownloads w 0 [] []).

(** [0 if success_count == len(fonts) else 1] *)
Definition exit_status (success_count n_fonts : nat) : nat :=
  if bool_decide (success_count = n_fonts) then 0%nat else 1%nat.

End Download.

Arguments mkDownloadResult {P}.
Arguments font {P}.
Arguments success {P}.
Arguments path {P}.
Arguments error {P}.
Arguments download_font {RT W B P}.
Arguments mkDownloads {W P}.
Arguments dl_world {W P}.
Arguments success_count {W P}.
Arguments downloaded_paths {W P}.
Arguments console {W P}.
Arguments download_loop {RT W B P}.
Arguments download_all {RT W B P}.

(** A value Python takes as true in [if href:] and [if style_tag.string:] *)
Definition truthy (x : option str) : option str :=
  match x with Some (c :: s) => Some (c :: s) | _ => None end.

(** A line of the console that reports a file written *)
Definition printed_ok (ev : printed) : bool :=
  match ev with PrintedOK _ => true | PrintedFAILED _ _ => false end.

(** ** A small site for the scenarios

    A page with one inline style block, the Georgia Pro block, and one link
    to the style sheet of the round-trip scenario.  The world counts the
    requests made. *)

(** [urllib.parse.urlparse(url).netloc] of the reference runtime *)
Definition urlparse_netloc (url : str) : result str :=
  urllib.netloc <$> urllib.urlparse url [].

Definition site_page : str := lit "https://x.test/css/index.html".
Definition site_html : str := lit "<html>".

Definition site_fetch (u : str) (requests : nat) : result str * nat :=
  if bool_decide (u = site_page) then (Ok site_html, S requests)
  else if bool_decide (u = x_test_base) then (Ok myfont_css, S requests)
  else (Raise LibraryError, S requests).

Definition site_style_strings (html : str) : list (option str) :=
  [Some georgia_block; None].

Definition site_rel_hrefs (html : str) : list (option str) :=
  [Some (lit "s.css"); None; Some []; Some (lit "s.css")].

Definition site_type_hrefs (html : str) : list (option str) :=
  [Some (lit "s.css"); Some (lit "t.css"); Some (lit "t.css")].

(** What the fallback parser makes of the style sheet: the first source *)
Definition myfont_ttf_face : FontFace :=
  mkFontFace (lit "MyFont") (lit "https://x.test/css/a.ttf") (lit "400")
    (lit "normal") (Some (lit "truetype")) UNKNOWN.

(** Another face that gets the file name of [my_font_face]: the family has
    the underscore already, the weight one space, the URL another directory *)
Definition my_font_face_underscore : FontFace :=
  mkFontFace (lit "My_Font") (lit "https://x.test/other/my.woff")
    (lit "400 700") (lit "italic") (Some (lit "woff")) SANS_SERIF.

(** A minified block that ends with its only [src] declaration, and one
    whose last declaration is an unterminated [src] after a terminated one *)
Definition minified_block : str := lit "font-family:A;src:url(a.woff)".

Definition two_src_block : str :=
  lit "font-family:A;src:url(a.eot);src:url(b.woff) format('woff')".

Definition face_A_eot : FontFace :=
  mkFontFace (lit "A") (lit "https://x.test/css/a.eot") (lit "400")
    (lit "normal") None UNKNOWN.

(** A rule without a src property, and one whose only source is a data URI *)
Definition family_only_rule : list (str * str) :=
  [ (lit "font-family", lit "A"); (lit "font-weight", lit "700") ].

Definition data_rule : list (str * str) :=
  [ (lit "font-family", lit "A"); (lit "src", lit "url(data:abc)") ].

(** ** More definitions the properties are stated with *)

(** A character a [url(...)] or [format(...)] token may hold *)
Definition token_char (c : char) : bool :=
  negb ((c =? DQUOTE) || (c =? SQUOTE) || (c =? chr ")") || is_space c).

(** The value of the last property of a name in a rule *)
Definition last_value (name : str) (props : list (str * str)) : option str :=
  last (snd <$> filter (fun p => p.1 = name) props).

(** A pattern without a capturing group *)
Definition no_group (p : pattern) : bool :=
  forallb (fun r => match r with RGroup _ => false | _ => true end) p.

(** The number a string of decimal digits writes *)
Definition nat_of_str (s : str) : nat :=
  foldl (fun n c => (10 * n + N.to_nat (c - 48))%nat) 0%nat s.

(** Neither the first nor the last character is white space. *)
Definition stripped (s : str) : Prop :=
  match head s with Some c => is_space c = false | None => True end
  /\ match last s with Some c => is_space c = false | None => True end.


(** [w] occurs in [s]. *)
Fixpoint occurs (w s : str) : bool :=
  startswith w s
  || match s with
     | _ :: s' => occurs w s'
     | [] => false
     end.


(** * Properties *)

#[local] Set Warnings "-clear-no-such-hyp".

Section Properties.
Context `{RT : Runtime}.

(** ** The matcher *)

Section MatcherLemmas.
Context {A : Type}.
Implicit Types (k : cls) (r : regex) (p : pattern) (s : str) (cap : option str).
Implicit Types (cont : str -> option str -> option A).

Lemma m_star_ext k s cap cont1 cont2 :
  (forall s' cap', cont1 s' cap' = cont2 s' cap') ->
  m_star k s cap cont1 = m_star k s cap cont2.
Proof.
  intros E. induction s as [|c s IH]; simpl; [apply E|].
  rewrite IH, E. reflexivity.
Qed.

Lemma m_item_ext r s cap cont1 cont2 :
  (forall s' cap', cont1 s' cap' = cont2 s' cap') ->
  m_item r s cap cont1 = m_item r s cap cont2.
Proof.
  revert s cap cont1 cont2.
  induction r as [k|k|k|k|r IH]; intros s cap cont1 cont2 E; simpl.
  - destruct s; [done|]. by rewrite E.
  - destruct s; [apply E|]. by rewrite !E.
  - by apply m_star_ext.
  - destruct s; [done|]. by rewrite (m_star_ext _ _ _ _ _ E).
  - apply IH. intros. apply E.
Qed.

Lemma m_seq_ext p s cap cont1 cont2 :
  (forall s' cap', cont1 s' cap' = cont2 s' cap') ->
  m_seq p s cap cont1 = m_seq p s cap cont2.
Proof.
  revert s cap. induction p as [|r p IH]; intros s cap E; simpl; [apply E|].
  apply m_item_ext. intros. by apply IH.
Qed.

Lemma m_seq_app p1 p2 s cap cont :
  m_seq (p1 ++ p2) s cap cont
  = m_seq p1 s cap (fun s' cap' => m_seq p2 s' cap' cont).
Proof.
  revert s cap. induction p1 as [|r p1 IH]; intros s cap; simpl; [done|].
  apply m_item_ext. intros. apply IH.
Qed.

(** A literal prefix of a pattern is compared with the text. *)
Lemma m_seq_chars (l : list ascii) p s cap cont :
  m_seq (List.map (fun a => RCls (CAtom (AChar (N_of_ascii a)))) l ++ p) s cap cont
  = if startswith (List.map N_of_ascii l) s
    then m_seq p (drop (length l) s) cap cont else None.
Proof.
  revert s. induction l as [|a l IH]; intros s; simpl.
  - by destruct s.
  - destruct s as [|c s]; simpl; [done|].
    rewrite (N.eqb_sym (N_of_ascii a) c).
    destruct (c =? N_of_ascii a); simpl; [apply IH|done].
Qed.

Lemma m_seq_plit (w : string) p s cap cont :
  m_seq (plit w ++ p) s cap cont
  = if startswith (lit w) s
    then m_seq p (drop (length (lit w)) s) cap cont else None.
Proof.
  unfold plit, lit. rewrite m_seq_chars, length_map. reflexivity.
Qed.

(** Whatever a pattern consumes, its continuation runs on a suffix. *)
Lemma m_star_suffix k s cap cont x :
  m_star k s cap cont = Some x ->
  exists s', s' `suffix_of` s /\ cont s' cap = Some x.
Proof.
  induction s as [|c s IH]; simpl; intros H.
  - by exists [].
  - destruct (cls_match k c).
    + destruct (m_star k s cap cont) eqn:E.
      * destruct (IH H) as (s' & Hs & Hc). exists s'. split; [|done].
        by apply suffix_cons_r.
      * by exists (c :: s).
    + by exists (c :: s).
Qed.

Lemma m_item_suffix r s cap cont x :
  m_item r s cap cont = Some x ->
  exists s' cap', s' `suffix_of` s /\ cont s' cap' = Some x.
Proof.
  revert s cap cont.
  induction r as [k|k|k|k|r IH]; intros s cap cont; simpl; intros H.
  - destruct s as [|c s]; [done|]. destruct (cls_match k c); [|done].
    exists s, cap. split; [by apply suffix_cons_r|done].
  - destruct s as [|c s]; [by exists [], cap|].
    destruct (cls_match k c); [|by exists (c :: s), cap].
    destruct (cont s cap) eqn:E.
    + exists s, cap. split; [by apply suffix_cons_r|congruence].
    + by exists (c :: s), cap.
  - destruct (m_star_suffix _ _ _ _ _ H) as (s' & ? & ?). by exists s', cap.
  - destruct s as [|c s]; [done|]. destruct (cls_match k c); [|done].
    destruct (m_star_suffix _ _ _ _ _ H) as (s' & ? & ?).
    exists s', cap. split; [by apply suffix_cons_r|done].
  - destruct (IH _ _ _ H) as (s' & cap' & ? & ?). eauto.
Qed.

Lemma m_seq_suffix p s cap cont x :
  m_seq p s cap cont = Some x ->
  exists s' cap', s' `suffix_of` s /\ cont s' cap' = Some x.
Proof.
  revert s cap. induction p as [|r p IH]; intros s cap; simpl; intros H.
  - by exists s, cap.
  - destruct (m_item_suffix _ _ _ _ _ H) as (s1 & cap1 & Hs1 & H1).
    destruct (IH _ _ H1) as (s2 & cap2 & Hs2 & H2).
    exists s2, cap2. split; [by etrans|done].
Qed.


End MatcherLemmas.

Lemma startswith_app (w b : str) : startswith w (w ++ b) = true.
Proof. induction w as [|c w IH]; simpl; [done|]. by rewrite N.eqb_refl. Qed.

Lemma startswith_prefix (w s : str) :
  startswith w s = true <-> exists b, s = w ++ b.
Proof.
  split.
  - revert s. induction w as [|c w IH]; intros s H; simpl in *; [by exists s|].
    destruct s as [|d s]; [done|].
    apply andb_true_iff in H as [E H]. apply N.eqb_eq in E as ->.
    destruct (IH _ H) as [b ->]. by exists b.
  - intros [b ->]. apply startswith_app.
Qed.

Lemma re_search_here (p : pattern) (s : str) m :
  match_at p s = Some m -> re_search p s = Some m.
Proof. intros H. destruct s; simpl; by rewrite H. Qed.

Lemma re_search_later (p : pattern) (a s : str) :
  is_Some (re_search p s) -> is_Some (re_search p (a ++ s)).
Proof.
  intros H. induction a as [|c a IH]; simpl; [done|].
  by destruct (match_at p (c :: a ++ s)).
Qed.

(** A literal pattern is found in every text that holds it. *)
Lemma re_search_plit (w : string) (a b : str) :
  is_Some (re_search (plit w) (a ++ lit w ++ b)).
Proof.
  apply re_search_later.
  assert (is_Some (match_at (plit w) (lit w ++ b))) as [m Hm].
  { unfold match_at. rewrite <- (app_nil_r (plit w)), m_seq_plit.
    rewrite startswith_app. simpl. eauto. }
  rewrite (re_search_here _ _ _ Hm). eauto.
Qed.

(** ** classify_font *)

Lemma search_any_set_matches (patterns : list pattern) (s : str) :
  search_any patterns s = set_matches patterns s.
Proof.
  unfold set_matches.
  induction patterns as [|p ps IH]; simpl; [done|].
  destruct (re_search p s) as [m|]; simpl; [done|]. apply IH.
Qed.

Lemma search_any_hit (patterns : list pattern) (s : str) p :
  p ∈ patterns -> is_Some (re_search p s) -> search_any patterns s = true.
Proof.
  intros Hin [m Hm].
  induction patterns as [|q ps IH]; [by apply elem_of_nil in Hin|].
  simpl. apply elem_of_cons in Hin as [<-|Hin]; [by rewrite Hm|].
  destruct (re_search q s); [done|by apply IH].
Qed.

(** C3: classification lower-cases the family and is the category of the
    first of the ordered rules (monospace, sans-serif, serif) with a matching
    pattern, [UNKNOWN] when none has one; a family whose lower-cased name is
    hit by a monospace pattern, or holds one of the literal monospace words,
    is [MONOSPACE] whatever else it holds.  The function is total and pure. *)
Theorem classify_font_first_rule (family : str) :
  classify_font family = classify_by_rules CLASSIFY_RULES (lower family)
  /\ ((exists p, p ∈ MONO_PATTERNS /\ is_Some (re_search p (lower family)))
      -> classify_font family = MONOSPACE)
  /\ (forall (w : string) a b,
        w ∈ ["mono"; "courier"; "consolas"; "menlo"; "jetbrains"]%string ->
        lower family = a ++ lit w ++ b -> classify_font family = MONOSPACE).
Proof.
  assert (Hmono : forall p, p ∈ MONO_PATTERNS ->
            is_Some (re_search p (lower family)) ->
            classify_font family = MONOSPACE).
  { intros p Hin Hm. unfold classify_font.
    by rewrite (search_any_hit _ _ _ Hin Hm). }
  split; [|split].
  - unfold classify_font, classify_by_rules, CLASSIFY_RULES.
    rewrite !search_any_set_matches. cbn [List.find fst snd].
    destruct (set_matches MONO_PATTERNS _); [done|].
    destruct (set_matches SANS_PATTERNS _); [done|].
    by destruct (set_matches SERIF_PATTERNS _).
  - intros (p & Hin & Hm). by apply (Hmono p).
  - intros w a b Hw E. apply (Hmono (plit w)).
    + unfold MONO_PATTERNS.
      repeat (apply elem_of_cons in Hw as [->|Hw]; [set_solver|]).
      by apply elem_of_nil in Hw.
    + rewrite E. apply re_search_plit.
Qed.

(** ** deduplicate_fonts *)

Lemma dedup_loop_keep_first (l : list FontFace) seen unique :
  dedup_loop l seen unique = unique ++ keep_first seen l.
Proof.
  revert seen unique. induction l as [|f l IH]; intros seen unique; simpl.
  - by rewrite app_nil_r.
  - destruct (decide (url f ∈ seen)) as [Hin|Hin].
    + rewrite bool_decide_eq_false_2 by (intros ?; done).
      rewrite bool_decide_eq_true_2 by done. apply IH.
    + rewrite bool_decide_eq_true_2 by done.
      rewrite bool_decide_eq_false_2 by done.
      rewrite IH, <- app_assoc. done.
Qed.

Lemma deduplicate_keep_first (l : list FontFace) :
  deduplicate_fonts l = keep_first ∅ l.
Proof. unfold deduplicate_fonts. by rewrite dedup_loop_keep_first. Qed.

Lemma keep_first_app seen (a b : list FontFace) :
  keep_first seen (a ++ b)
  = keep_first seen a ++ keep_first (list_to_set (url <$> a) ∪ seen) b.
Proof.
  revert seen. induction a as [|f a IH]; intros seen; simpl.
  - f_equal. set_solver.
  - case_bool_decide as Hin.
    + rewrite IH. do 2 f_equal. set_solver.
    + simpl. rewrite IH. do 3 f_equal. set_solver.
Qed.

Lemma keep_first_sublist seen (l : list FontFace) :
  sublist (keep_first seen l) l.
Proof.
  revert seen. induction l as [|f l IH]; intros seen; simpl; [done|].
  case_bool_decide; [apply sublist_cons|apply sublist_skip]; apply IH.
Qed.

Lemma keep_first_fresh seen (l : list FontFace) f :
  f ∈ keep_first seen l -> url f ∉ seen.
Proof.
  revert seen. induction l as [|g l IH]; intros seen; simpl.
  - by intros ?%elem_of_nil.
  - case_bool_decide as Hin; [apply IH|].
    intros [->|H]%elem_of_cons; [done|].
    apply IH in H. set_solver.
Qed.

Lemma keep_first_NoDup seen (l : list FontFace) :
  NoDup (url <$> keep_first seen l).
Proof.
  revert seen. induction l as [|f l IH]; intros seen; simpl; [constructor|].
  case_bool_decide as Hin; [apply IH|].
  rewrite fmap_cons. constructor; [|apply IH].
  intros (g & E & Hg)%list_elem_of_fmap.
  apply keep_first_fresh in Hg. set_solver.
Qed.

Lemma keep_first_covers seen (l : list FontFace) f :
  f ∈ l -> url f ∈ seen \/ url f ∈ url <$> keep_first seen l.
Proof.
  revert seen. induction l as [|g l IH]; intros seen; simpl.
  - by intros ?%elem_of_nil.
  - intros [->|H]%elem_of_cons.
    + case_bool_decide; [by left|right]. rewrite fmap_cons. by left.
    + case_bool_decide.
      * by apply IH.
      * destruct (IH ({[url g]} ∪ seen) H) as [Hs|Hk].
        -- apply elem_of_union in Hs as [->%elem_of_singleton|Hs]; [|by left].
           right. rewrite fmap_cons. by left.
        -- right. rewrite fmap_cons. by right.
Qed.

Lemma keep_first_filter seen u (l : list FontFace) :
  keep_first ({[u]} ∪ seen) l
  = keep_first seen (filter (fun g => url g ≠ u) l).
Proof.
  revert seen. induction l as [|f l IH]; intros seen; simpl; [done|].
  destruct (decide (url f = u)) as [E|E].
  - rewrite filter_cons_False by (intros ?; done).
    rewrite bool_decide_eq_true_2 by set_solver. apply IH.
  - rewrite filter_cons_True by done. simpl.
    destruct (decide (url f ∈ seen)) as [Hin|Hin].
    + rewrite !bool_decide_eq_true_2 by set_solver. apply IH.
    + rewrite !bool_decide_eq_false_2 by set_solver.
      f_equal. rewrite <- IH. f_equal. set_solver.
Qed.

Lemma keep_first_id seen (l : list FontFace) :
  NoDup (url <$> l) -> (forall f, f ∈ l -> url f ∉ seen) ->
  keep_first seen l = l.
Proof.
  revert seen. induction l as [|f l IH]; intros seen Hnd Hfresh; simpl; [done|].
  rewrite fmap_cons in Hnd. apply NoDup_cons in Hnd as [Hf Hnd].
  rewrite bool_decide_eq_false_2 by (apply Hfresh; by left).
  f_equal. apply IH; [done|]. intros g Hg.
  apply not_elem_of_union. split; [|apply Hfresh; by right].
  intros E%elem_of_singleton. apply Hf. rewrite <- E.
  apply list_elem_of_fmap. eauto.
Qed.

(** C6: deduplication keeps the first entry of every url and drops each
    later entry of a url already seen, whatever its other fields; the result
    is a sublist of the input (the order is kept), its urls are pairwise
    distinct and every url of the input is still there. *)
Theorem deduplicate_fonts_stable_first (fonts : list FontFace) :
  sublist (deduplicate_fonts fonts) fonts
  /\ NoDup (url <$> deduplicate_fonts fonts)
  /\ (forall f, f ∈ fonts -> url f ∈ url <$> deduplicate_fonts fonts)
  /\ (forall f rest, fonts = f :: rest ->
        deduplicate_fonts fonts
        = f :: deduplicate_fonts (filter (fun g => url g ≠ url f) rest))
  /\ (forall pre f post, fonts = pre ++ f :: post ->
        url f ∈ url <$> pre ->
        deduplicate_fonts fonts = deduplicate_fonts (pre ++ post))
  /\ (forall pre f post, fonts = pre ++ f :: post ->
        url f ∉ url <$> pre ->
        exists post',
          deduplicate_fonts fonts = deduplicate_fonts pre ++ f :: post').
Proof.
  rewrite !deduplicate_keep_first.
  split; [apply keep_first_sublist|].
  split; [apply keep_first_NoDup|].
  split.
  { intros f Hf. destruct (keep_first_covers ∅ _ _ Hf) as [H|H]; [|done].
    by apply not_elem_of_empty in H. }
  split.
  { intros f rest ->. rewrite !deduplicate_keep_first. simpl.
    rewrite bool_decide_eq_false_2 by set_solver.
    f_equal. by rewrite <- keep_first_filter. }
  split.
  - intros pre f post -> Hin. rewrite !deduplicate_keep_first.
    rewrite !keep_first_app. simpl.
    rewrite bool_decide_eq_true_2; [done|]. set_solver.
  - intros pre f post -> Hin. rewrite !deduplicate_keep_first.
    rewrite keep_first_app. simpl.
    rewrite bool_decide_eq_false_2 by set_solver. eauto.
Qed.

(** C9: deduplication is idempotent, the urls of its result being pairwise
    distinct. *)
Theorem deduplicate_fonts_idempotent (fonts : list FontFace) :
  deduplicate_fonts (deduplicate_fonts fonts) = deduplicate_fonts fonts
  /\ NoDup (url <$> deduplicate_fonts fonts).
Proof.
  rewrite !deduplicate_keep_first. split; [|apply keep_first_NoDup].
  apply keep_first_id; [apply keep_first_NoDup|set_solver].
Qed.

(** ** The sort and the choice of a source *)

Section SortLemmas.
Context {A : Type} (key : A -> nat).

Lemma insert_by_perm x (l : list A) : insert_by key x l ≡ₚ x :: l.
Proof.
  induction l as [|y l IH]; simpl; [done|].
  destruct (key x <=? key y)%nat; [done|].
  rewrite IH. apply Permutation_swap.
Qed.

Lemma sort_by_perm (l : list A) : sort_by key l ≡ₚ l.
Proof.
  induction l as [|x l IH]; simpl; [done|].
  by rewrite insert_by_perm, IH.
Qed.

Lemma insert_by_sorted x (l : list A) :
  Sorted (fun a b => key a <= key b)%nat l ->
  Sorted (fun a b => key a <= key b)%nat (insert_by key x l).
Proof.
  induction 1 as [|y l Hs IH Hhd]; simpl.
  - repeat constructor.
  - destruct (key x <=? key y)%nat eqn:E.
    + apply Nat.leb_le in E. repeat constructor; done.
    + apply Nat.leb_gt in E. constructor; [done|].
      destruct l as [|z l]; simpl in *.
      * constructor. lia.
      * destruct (key x <=? key z)%nat; constructor; [lia|].
        by inversion Hhd.
Qed.

Lemma sort_by_sorted (l : list A) :
  Sorted (fun a b => key a <= key b)%nat (sort_by key l).
Proof.
  induction l as [|x l IH]; simpl; [constructor|].
  by apply insert_by_sorted.
Qed.

Lemma head_insert_by x (l : list A) :
  head (insert_by key x l)
  = match head l with
    | None => Some x
    | Some y => if (key x <=? key y)%nat then Some x else Some y
    end.
Proof.
  destruct l as [|y l]; simpl; [done|].
  by destruct (key x <=? key y)%nat.
Qed.

Lemma head_sort_by_None (l : list A) :
  head (sort_by key l) = None <-> l = [].
Proof.
  split; [|by intros ->].
  destruct l as [|x l]; [done|]. simpl. rewrite head_insert_by.
  destruct (head (sort_by key l)); [|done].
  by destruct (key x <=? key a)%nat.
Qed.

(** The head of the sorted list is the first element of lowest key: the
    sort is stable. *)
Lemma head_sort_by_first (l : list A) c :
  head (sort_by key l) = Some c ->
  exists l1 l2, l = l1 ++ c :: l2
    /\ Forall (fun x => key c < key x)%nat l1
    /\ Forall (fun x => key c <= key x)%nat l2.
Proof.
  revert c. induction l as [|x l IH]; intros c; simpl; [done|].
  rewrite head_insert_by.
  destruct (head (sort_by key l)) as [y|] eqn:E.
  - destruct (IH y eq_refl) as (l1 & l2 & -> & H1 & H2).
    destruct (key x <=? key y)%nat eqn:L; intros [= <-].
    + apply Nat.leb_le in L. exists [], (l1 ++ y :: l2).
      split; [done|]. split; [constructor|].
      apply Forall_app. split.
      * eapply Forall_impl; [apply H1|]. simpl. lia.
      * constructor; [done|]. eapply Forall_impl; [apply H2|]. simpl. lia.
    + apply Nat.leb_gt in L. exists (x :: l1), l2.
      split; [done|]. split; [|done]. by constructor.
  - apply head_sort_by_None in E as ->. intros [= <-].
    exists [], []. repeat split; constructor.
Qed.

Lemma head_sort_by_lowest (l : list A) c :
  head (sort_by key l) = Some c ->
  c ∈ l /\ forall x, x ∈ l -> (key c <= key x)%nat.
Proof.
  intros (l1 & l2 & -> & H1 & H2)%head_sort_by_first. split; [set_solver|].
  intros x [Hx|[->|Hx]%elem_of_cons]%elem_of_app; [|done|].
  - rewrite Forall_forall in H1. specialize (H1 x Hx). simpl in H1. lia.
  - rewrite Forall_forall in H2. by apply H2.
Qed.

End SortLemmas.

Lemma format_priority_rank (fmt : str) :
  dict_get format_priority fmt 5 = declared_rank fmt.
Proof.
  unfold dict_get, format_priority, declared_rank.
  rewrite !list_to_map_cons, list_to_map_nil. cbn [fst snd].
  repeat (rewrite lookup_insert;
          case_decide; [subst fmt; by vm_compute|];
          rewrite bool_decide_eq_false_2 by congruence).
  by rewrite lookup_empty.
Qed.

Lemma ext_to_fmt_rank (ext : str) :
  dict_get ext_to_fmt ext 5 = extension_rank ext.
Proof.
  unfold dict_get, ext_to_fmt, extension_rank.
  rewrite !list_to_map_cons, list_to_map_nil. cbn [fst snd].
  repeat (rewrite lookup_insert;
          case_decide; [subst ext; by vm_compute|];
          rewrite bool_decide_eq_false_2 by congruence).
  by rewrite lookup_empty.
Qed.

Lemma candidate_of_ranked (src_part base_url : str) c :
  candidate_of src_part base_url = Ok (Some c) -> ranked c.
Proof.
  unfold candidate_of, ranked.
  destruct (extract_font_url (strip src_part) base_url) as [[[u fmt]|]|e];
    simpl; [|done..].
  destruct fmt as [d|]; simpl.
  - intros [= <-]. simpl. apply format_priority_rank.
  - destruct (urlparse_path u) as [path|e] eqn:E; simpl; [|done].
    intros [= <-]. simpl. exists path. split; [done|]. apply ext_to_fmt_rank.
Qed.

Lemma collect_candidates_ranked (parts : list str) (base_url : str) cs :
  collect_candidates parts base_url = Ok cs -> Forall ranked cs.
Proof.
  revert cs. induction parts as [|part parts IH]; intros cs; simpl.
  - by intros [= <-].
  - destruct (candidate_of part base_url) as [c|e] eqn:E; simpl; [|done].
    destruct (collect_candidates parts base_url) as [cs'|e]; simpl; [|done].
    intros [= <-]. apply Forall_app. split; [|by apply IH].
    destruct c as [c|]; simpl; [|constructor].
    constructor; [|constructor]. by eapply candidate_of_ranked.
Qed.

(** Declaring the fragments in another order gives the same candidates in
    another order. *)
Lemma collect_candidates_perm (parts parts' : list str) (base_url : str) cs :
  parts ≡ₚ parts' ->
  collect_candidates parts base_url = Ok cs ->
  exists cs', collect_candidates parts' base_url = Ok cs' /\ cs ≡ₚ cs'.
Proof.
  intros Hp. revert cs.
  induction Hp as [|x l l' Hp IH|x y l|l l' l'' Hp1 IH1 Hp2 IH2]; intros cs; simpl.
  - intros [= <-]. by exists [].
  - destruct (candidate_of x base_url) as [c|e]; simpl; [|done].
    destruct (collect_candidates l base_url) as [cs0|e]; simpl; [|done].
    intros [= <-]. destruct (IH cs0 eq_refl) as (cs1 & -> & Hcs). simpl.
    eexists. split; [done|]. by rewrite Hcs.
  - destruct (candidate_of y base_url) as [cy|e]; simpl; [|done].
    destruct (candidate_of x base_url) as [cx|e]; simpl; [|done].
    destruct (collect_candidates l base_url) as [cs0|e]; simpl; [|done].
    intros [= <-]. eexists. split; [done|].
    rewrite !app_assoc. f_equiv. apply Permutation_app_comm.
  - intros H. destruct (IH1 _ H) as (cs1 & H1 & Hc1).
    destruct (IH2 _ H1) as (cs2 & H2 & Hc2).
    exists cs2. split; [done|]. by etrans.
Qed.

Lemma best_candidate_perm (cs cs' : list candidate) :
  cs ≡ₚ cs' ->
  priority_of <$> best_candidate cs' = priority_of <$> best_candidate cs
  /\ (forall c, best_candidate cs = Some c ->
        Forall (fun x => priority_of x = priority_of c -> x = c) cs ->
        best_candidate cs' = Some c).
Proof.
  intros Hp. unfold best_candidate.
  destruct (head (sort_by priority_of cs)) as [c|] eqn:E.
  - destruct (head (sort_by priority_of cs')) as [c'|] eqn:E'.
    + apply head_sort_by_lowest in E as [Hin Hlow].
      apply head_sort_by_lowest in E' as [Hin' Hlow'].
      assert (priority_of c' = priority_of c) as Heq.
      { apply Nat.le_antisymm.
        - apply Hlow'. by rewrite <- Hp.
        - apply Hlow. by rewrite Hp. }
      split; [simpl; by rewrite Heq|].
      intros c0 [= <-] Huniq. f_equal.
      rewrite Forall_forall in Huniq. apply Huniq; [by rewrite Hp|done].
    + apply head_sort_by_None in E' as ->.
      apply Permutation_nil_r in Hp as ->. cbn in E. discriminate E.
  - apply head_sort_by_None in E as ->.
    apply Permutation_nil_l in Hp as <-. cbn. split; [reflexivity|].
    intros c Hc. discriminate Hc.
Qed.

(** The candidates are, in the order of the fragments, what extraction
    gives for each fragment that gives something. *)
Lemma collect_candidates_entries (parts : list str) (base_url : str)
    (cs : list candidate) :
  collect_candidates parts base_url = Ok cs ->
  exists rs,
    Forall2 (fun part r => extract_font_url (strip part) base_url = Ok r)
      parts rs
    /\ (fun c : candidate => c.1) <$> cs = omap id rs.
Proof.
  revert cs. induction parts as [|part parts IH]; intros cs;
    cbn [collect_candidates].
  - intros [= <-]. exists []. split; [constructor|done].
  - destruct (candidate_of part base_url) as [c|e] eqn:E;
      cbn [mbind result_bind]; [|done].
    destruct (collect_candidates parts base_url) as [cs'|e];
      cbn [mbind result_bind]; [|done].
    intros [= <-]. destruct (IH _ eq_refl) as (rs & HF & Hrs).
    unfold candidate_of in E.
    destruct (extract_font_url (strip part) base_url) as [[[u fmt]|]|e] eqn:X;
      cbn [mbind result_bind] in E; [| |done].
    + exists (Some (u, fmt) :: rs). split; [by constructor|].
      cbn [omap list_omap id]. rewrite <- Hrs.
      destruct fmt as [d|].
      * injection E as <-. done.
      * destruct (urlparse_path u); cbn [mbind result_bind] in E; [|done].
        injection E as <-. done.
    + injection E as <-. exists (None :: rs). split; [by constructor|].
      done.
Qed.

(** An exception is the one extraction raises on a fragment, or the one
    [urlparse] raises on the URL of a fragment without declared format. *)
Lemma collect_candidates_raise (parts : list str) (base_url : str) (e : exn) :
  collect_candidates parts base_url = Raise e ->
  exists part, part ∈ parts
    /\ (extract_font_url (strip part) base_url = Raise e
        \/ exists u,
             extract_font_url (strip part) base_url = Ok (Some (u, None))
             /\ urlparse_path u = Raise e).
Proof.
  induction parts as [|part parts IH]; cbn [collect_candidates]; [done|].
  destruct (candidate_of part base_url) as [c|e'] eqn:E;
    cbn [mbind result_bind].
  - destruct (collect_candidates parts base_url) as [cs'|e''];
      cbn [mbind result_bind]; [done|].
    intros [= ->]. destruct (IH eq_refl) as (p' & Hin & H).
    exists p'. split; [by right|done].
  - intros [= ->]. exists part. split; [left|].
    unfold candidate_of in E.
    destruct (extract_font_url (strip part) base_url) as [[[u fmt]|]|e'];
      cbn [mbind result_bind] in E; [| |left; congruence]; [|done].
    destruct fmt as [d|]; [done|].
    destruct (urlparse_path u) as [path|e'] eqn:U;
      cbn [mbind result_bind] in E; [done|].
    injection E as ->. right. by exists u.
Qed.

(** The candidates are built when every fragment can be resolved. *)
Lemma collect_candidates_returns (parts : list str) (base_url : str) :
  Forall (fun part => exists r,
            extract_font_url (strip part) base_url = Ok r
            /\ forall u, r = Some (u, None) ->
                  exists path, urlparse_path u = Ok path) parts ->
  exists cs, collect_candidates parts base_url = Ok cs.
Proof.
  induction 1 as [|part parts (r & Hr & Hu) _ [cs IH]];
    cbn [collect_candidates]; [eauto|].
  unfold candidate_of. rewrite Hr, IH. cbn [mbind result_bind].
  destruct r as [[u [d|]]|]; cbn [mbind result_bind]; eauto.
  destruct (Hu u eq_refl) as [path ->]. cbn [mbind result_bind]. eauto.
Qed.

(** C1, as amended.  When the candidates of a src value are built, they are,
    in the order of declaration, the entries that extraction gives for the
    fragments between the commas (a fragment without one, such as a data
    URI, is passed over); every candidate carries the rank of its declared
    format (woff2 0, woff 1, truetype 2, opentype 3, embedded-opentype 4,
    other 5) or, with no declared format, of the lower-cased extension of
    its URL (.woff2 0, .woff 1, .ttf 2, .otf 3, .eot 4, other 5); selection
    returns the first declared candidate among those of lowest rank, and
    none only when there is no candidate; declaring the fragments in
    another order leaves the rank of the chosen entry unchanged, and the
    entry itself unchanged when no other candidate has its rank.  Selection
    returns exactly when every fragment can be resolved, and what it raises
    otherwise is the error of the URL library on one of the fragments. *)
Theorem select_best_source_first_lowest (src_value base_url : str) :
  (forall cs,
     src_candidates src_value base_url = Ok cs ->
     (exists rs,
        Forall2 (fun part r => extract_font_url (strip part) base_url = Ok r)
          (split (chr ",") src_value) rs
        /\ (fun c : candidate => c.1) <$> cs = omap id rs)
     /\ Forall ranked cs
     /\ select_best_source src_value base_url = Ok (best_candidate cs)
     /\ (best_candidate cs = None <-> cs = [])
     /\ (forall c, best_candidate cs = Some c -> first_lowest c cs)
     /\ (forall parts', split (chr ",") src_value ≡ₚ parts' ->
           exists cs',
             collect_candidates parts' base_url = Ok cs' /\ cs ≡ₚ cs'
             /\ select_among parts' base_url = Ok (best_candidate cs')
             /\ priority_of <$> best_candidate cs'
                = priority_of <$> best_candidate cs
             /\ (forall c, best_candidate cs = Some c ->
                   Forall (fun x => priority_of x = priority_of c -> x = c) cs ->
                   best_candidate cs' = Some c)))
  /\ ((exists best, select_best_source src_value base_url = Ok best)
      <-> Forall (fun part => exists r,
                    extract_font_url (strip part) base_url = Ok r
                    /\ forall u, r = Some (u, None) ->
                          exists path, urlparse_path u = Ok path)
            (split (chr ",") src_value))
  /\ (forall e,
        select_best_source src_value base_url = Raise e ->
        exists part, part ∈ split (chr ",") src_value
          /\ (extract_font_url (strip part) base_url = Raise e
              \/ exists u,
                   extract_font_url (strip part) base_url = Ok (Some (u, None))
                   /\ urlparse_path u = Raise e)).
Proof.
  split; [|split].
  - intros cs H. split; [by apply collect_candidates_entries|].
    split; [by eapply collect_candidates_ranked|].
    split; [unfold select_best_source; by rewrite H|].
    split; [apply head_sort_by_None|].
    split; [intros c Hc; by apply head_sort_by_first in Hc|].
    intros parts' Hp.
    destruct (collect_candidates_perm _ _ _ _ Hp H) as (cs' & H' & Hcs).
    exists cs'. split; [done|]. split; [done|].
    split; [unfold select_among; by rewrite H'|].
    by apply best_candidate_perm.
  - unfold select_best_source, src_candidates. split.
    + intros [best H].
      destruct (collect_candidates (split (chr ",") src_value) base_url)
        as [cs|e] eqn:E; cbn [mbind result_bind] in H; [|done].
      destruct (collect_candidates_entries _ _ _ E) as (rs & HF & Hrs).
      pose proof (collect_candidates_ranked _ _ _ E) as Hrk.
      clear E H. revert cs Hrs Hrk.
      induction HF as [|part r parts rs Hr HF IH]; intros cs Hrs Hrk;
        [constructor|].
      destruct r as [[u fmt]|].
      * destruct cs as [|c cs]; [done|]. cbn [omap list_omap id] in Hrs.
        injection Hrs as Hc Hrs. apply Forall_cons in Hrk as [Hc' Hrk].
        constructor; [|by apply (IH cs)].
        exists (Some (u, fmt)). split; [done|]. intros u' [= <- ->].
        unfold ranked in Hc'. rewrite Hc in Hc'. cbn [fst snd] in Hc'.
        destruct Hc' as (path & Hpath & _). eauto.
      * constructor; [|by apply (IH cs)].
        exists None. split; [done|]. by intros u' [=].
    + intros H. destruct (collect_candidates_returns _ _ H) as [cs ->].
      cbn [mbind result_bind]. eauto.
  - intros e. unfold select_best_source, src_candidates.
    destruct (collect_candidates (split (chr ",") src_value) base_url)
      as [cs|e'] eqn:E; cbn [mbind result_bind]; [done|].
    intros [= ->]. by apply collect_candidates_raise.
Qed.

(** ** The scan for blocks *)








(** ** The malformed-CSS scenario *)






(** ** Data URIs *)

Section DataUri.
Variable base_url : str.

Lemma extract_font_url_data (src_value : str) m :
  re_search URL_RE src_value = Some m ->
  startswith (lit "data:") (group1 m) = true ->
  extract_font_url src_value base_url = Ok None.
Proof. intros Hm Hd. unfold extract_font_url. by rewrite Hm, Hd. Qed.

Lemma extract_font_url_plain (src_value : str) u fmt :
  extract_font_url src_value base_url = Ok (Some (u, fmt)) ->
  from_plain_token base_url u.
Proof.
  unfold extract_font_url.
  destruct (re_search URL_RE src_value) as [m|]; [|done].
  destruct (startswith (lit "data:") (group1 m)) eqn:E; [done|].
  destruct (urljoin base_url (group1 m)) as [a|e] eqn:J; simpl; [|done].
  intros [= <- _]. by exists (group1 m).
Qed.

Lemma candidate_of_plain (src_part : str) c :
  candidate_of src_part base_url = Ok (Some c) ->
  from_plain_token base_url c.1.1.
Proof.
  unfold candidate_of.
  destruct (extract_font_url (strip src_part) base_url)
    as [[[u fmt]|]|e] eqn:E; simpl; [|done..].
  apply extract_font_url_plain in E.
  destruct fmt as [d|]; simpl.
  - by intros [= <-].
  - destruct (urlparse_path u); simpl; [|done]. by intros [= <-].
Qed.

Lemma collect_candidates_plain (parts : list str) cs :
  collect_candidates parts base_url = Ok cs ->
  Forall (fun c => from_plain_token base_url c.1.1) cs.
Proof.
  revert cs. induction parts as [|part parts IH]; intros cs; simpl.
  - by intros [= <-].
  - destruct (candidate_of part base_url) as [c|e] eqn:E; simpl; [|done].
    destruct (collect_candidates parts base_url) as [cs'|e]; simpl; [|done].
    intros [= <-]. apply Forall_app. split; [|by apply IH].
    destruct c as [c|]; simpl; [|constructor].
    constructor; [|constructor]. by apply (candidate_of_plain part).
Qed.

Lemma parse_font_face_rule_plain (rule : list (str * str)) fs :
  parse_font_face_rule rule base_url = Ok fs ->
  Forall (fun f => from_plain_token base_url (url f)) fs.
Proof.
  unfold parse_font_face_rule, select_best_source, src_candidates.
  destruct (falsy _ || falsy _); [by intros [= <-]|].
  destruct (collect_candidates _ base_url) as [cs|e] eqn:E; simpl; [|done].
  apply collect_candidates_plain in E.
  destruct (best_candidate cs) as [[[u fmt] pr]|] eqn:B; [|by intros [= <-]].
  intros [= <-]. constructor; [|constructor]. simpl.
  apply head_sort_by_lowest in B as [Hin _].
  rewrite Forall_forall in E. apply (E _ Hin).
Qed.

Lemma parse_blocks_plain (blocks : list str) fs :
  parse_blocks blocks base_url = Ok fs ->
  Forall (fun f => from_plain_token base_url (url f)) fs.
Proof.
  revert fs. induction blocks as [|block blocks IH]; intros fs; simpl.
  - by intros [= <-].
  - destruct (parse_block block base_url) as [f|e] eqn:E; simpl; [|done].
    destruct (parse_blocks blocks base_url) as [fs'|e]; simpl; [|done].
    intros [= <-]. apply Forall_app. split; [|by apply IH].
    destruct f as [f|]; simpl; [|constructor].
    constructor; [|constructor].
    unfold parse_block in E.
    destruct (re_search FAMILY_RE block); [|done].
    destruct (re_search SRC_RE block); [|done].
    destruct (extract_font_url _ base_url) as [[[u fmt]|]|e] eqn:X;
      simpl in E; [|done..].
    injection E as <-. simpl. by eapply extract_font_url_plain.
Qed.

Lemma extend_from_rules_plain (sheet : list css_rule) fonts :
  Forall (fun f => from_plain_token base_url (url f)) fonts ->
  Forall (fun f => from_plain_token base_url (url f))
    (extend_from_rules sheet base_url fonts).1.
Proof.
  revert fonts. induction sheet as [|[rule|] sheet IH]; intros fonts H; simpl.
  - done.
  - destruct (parse_font_face_rule rule base_url) as [fs|e] eqn:E; [|done].
    apply IH. apply Forall_app. split; [done|].
    by apply parse_font_face_rule_plain in E.
  - by apply IH.
Qed.

Lemma parse_css_for_fonts_plain (css_text : str) fonts :
  parse_css_for_fonts css_text base_url = Ok fonts ->
  Forall (fun f => from_plain_token base_url (url f)) fonts.
Proof.
  unfold parse_css_for_fonts.
  assert (Forall (fun f => from_plain_token base_url (url f))
            (try_structured css_text base_url []).1) as H.
  { unfold try_structured. destruct (parseString css_text); [|constructor].
    apply extend_from_rules_plain. constructor. }
  destruct (try_structured css_text base_url []) as [fs [e|]]; simpl in H.
  - destruct (parse_css_with_regex css_text base_url) as [fs'|e'] eqn:E;
      simpl; [|done].
    intros [= <-]. apply Forall_app. split; [done|].
    by apply parse_blocks_plain in E.
  - by intros [= <-].
Qed.

End DataUri.

(** ** parse_css_for_fonts *)

(** When [cssutils.parseString] itself raises, the scan is the fallback
    scan: its FontFaces, or the error it raises. *)
Lemma parse_css_for_fonts_parse_error (css_text base_url : str) e :
  parseString css_text = Raise e ->
  parse_css_for_fonts css_text base_url
  = parse_css_with_regex css_text base_url.
Proof.
  intros H. unfold parse_css_for_fonts, try_structured. rewrite H.
  by destruct (parse_css_with_regex css_text base_url).
Qed.

(** When the structured path ends without an exception, its FontFaces are
    the result and the fallback is not run. *)
Lemma parse_css_for_fonts_structured (css_text base_url : str) sheet fonts :
  parseString css_text = Ok sheet ->
  extend_from_rules sheet base_url [] = (fonts, None) ->
  parse_css_for_fonts css_text base_url = Ok fonts.
Proof.
  intros H1 H2. unfold parse_css_for_fonts, try_structured.
  by rewrite H1, H2.
Qed.

(** C4: the round-trip scenario.  With the sheet parsed into its one
    font-face rule and the two URLs resolved against the style sheet's URL,
    the scan gives exactly one FontFace: url https://x.test/css/a.woff2,
    format woff2, category unknown. *)
Theorem myfont_round_trip (props : list (str * str)) (u1 : str) :
  props ∈ [myfont_rule_verbatim; myfont_rule_serialized] ->
  parseString myfont_css = Ok [CSSFontFaceRule props] ->
  urljoin x_test_base (lit "a.ttf") = Ok u1 ->
  urljoin x_test_base (lit "a.woff2") = Ok (lit "https://x.test/css/a.woff2") ->
  parse_css_for_fonts myfont_css x_test_base = Ok [myfont_face]
  /\ url myfont_face = lit "https://x.test/css/a.woff2"
  /\ format myfont_face = Some (lit "woff2")
  /\ category myfont_face = UNKNOWN.
Proof.
  intros Hin Hp H1 H2. split; [|done].
  apply (parse_css_for_fonts_structured _ _ _ _ Hp).
  cbn [extend_from_rules].
  assert (parse_font_face_rule props x_test_base = Ok [myfont_face]) as ->.
  { vm_compute in H1, H2.
    apply elem_of_cons in Hin as [->|Hin];
      [|apply elem_of_cons in Hin as [->|Hin];
          [|by apply elem_of_nil in Hin]].
    - vm_compute. rewrite H1. vm_compute. rewrite H2. reflexivity.
    - vm_compute. rewrite H1. vm_compute. rewrite H2. reflexivity. }
  reflexivity.
Qed.

(** ** download_font: the file name *)

Lemma match_at_unsafe c (s : str) :
  match_at UNSAFE_RE (c :: s)
  = if keeps c then None else Some (mkMatch 1 []).
Proof.
  unfold match_at, UNSAFE_RE. cbn [m_seq m_item].
  replace (cls_match (CNone [AWord; AChar (chr "-")]) c) with (negb (keeps c)).
  2:{ unfold keeps. cbn [cls_match existsb atom_match].
      by rewrite orb_false_r. }
  destruct (keeps c); cbn [negb]; [done|].
  by replace (length (c :: s) - length s)%nat with 1%nat by (cbn [length]; lia).
Qed.

Lemma re_sub_unsafe (s : str) :
  re_sub UNSAFE_RE (lit "_") s = sanitize s.
Proof.
  unfold re_sub. induction s as [|c s IH]; [done|].
  cbn [re_sub_from sanitize List.map]. rewrite match_at_unsafe.
  destruct (keeps c); cbn [span]; by rewrite IH.
Qed.

Lemma lstrip_by_length (p : char -> bool) (s : str) :
  (length (lstrip_by p s) <= length s)%nat.
Proof.
  induction s as [|c s IH]; simpl; [done|]. destruct (p c); simpl; lia.
Qed.

Lemma lstrip_by_drop (p : char -> bool) (s : str) :
  drop (length s - length (lstrip_by p s)) s = lstrip_by p s.
Proof.
  induction s as [|c s IH]; simpl; [done|].
  destruct (p c); simpl.
  - pose proof (lstrip_by_length p s).
    replace (S (length s) - length (lstrip_by p s))%nat
      with (S (length s - length (lstrip_by p s))) by lia.
    apply IH.
  - by rewrite Nat.sub_diag.
Qed.

Lemma m_star_longest {A} (k : cls) (s : str) cap
    (g : str -> option str -> A) :
  m_star k s cap (fun s' cap' => Some (g s' cap'))
  = Some (g (lstrip_by (cls_match k) s) cap).
Proof.
  induction s as [|c s IH]; simpl; [done|].
  destruct (cls_match k c); [|done]. by rewrite IH.
Qed.

Lemma match_at_plus (k : cls) (s : str) :
  match_at [RPlus k] s
  = match s with
    | c :: s' =>
        if cls_match k c
        then Some (mkMatch (length s - length (lstrip_by (cls_match k) s')) [])
        else None
    | [] => None
    end.
Proof.
  unfold match_at. destruct s as [|c s]; [done|]. cbn [m_seq m_item].
  destruct (cls_match k c); [|done].
  apply (m_star_longest k s None
           (fun s' cap' =>
              mkMatch (length (c :: s) - length s') (default [] cap'))).
Qed.

Lemma re_sub_from_drop (n : nat) (p : pattern) (repl s : str) :
  (n <= length s)%nat ->
  re_sub_from n p repl s = re_sub_from 0 p repl (drop n s).
Proof.
  revert s. induction n as [|n IH]; intros s Hn; [done|].
  destruct s as [|c s]; simpl in Hn; [lia|].
  cbn [re_sub_from drop]. apply IH. lia.
Qed.

Lemma collapse_spaces_lstrip (s : str) :
  collapse_spaces true s = collapse_spaces false (lstrip_by is_space s).
Proof.
  induction s as [|c s IH]; simpl; [done|].
  destruct (is_space c) eqn:E; [done|]. simpl. by rewrite E.
Qed.

Lemma re_sub_spaces (s : str) :
  re_sub SPACES_RE (lit "_") s = collapse_spaces false s.
Proof.
  unfold re_sub.
  induction s as [s IH] using (induction_ltof1 _ (@length N)).
  unfold ltof in IH. destruct s as [|c s]; [done|].
  cbn [re_sub_from collapse_spaces]. unfold SPACES_RE.
  rewrite match_at_plus.
  change (cls_match (CAtom ASpace)) with is_space.
  destruct (is_space c); cbn [span].
  - pose proof (lstrip_by_length is_space s).
    replace (length (c :: s) - length (lstrip_by is_space s))%nat
      with (S (length s - length (lstrip_by is_space s)))
      by (cbn [length]; lia).
    rewrite re_sub_from_drop by lia.
    rewrite lstrip_by_drop, collapse_spaces_lstrip.
    change (lit "_" ++ ?x) with (chr "_" :: x). f_equal.
    apply IH. cbn [length]. lia.
  - f_equal. apply IH. cbn [length]. lia.
Qed.

Lemma split_nonempty (sep : char) (s : str) : split sep s <> [].
Proof.
  induction s as [|c s IH]; simpl; [done|].
  destruct (c =? sep); [done|]. by destruct (split sep s).
Qed.

Lemma split_elem (sep : char) (s x : str) :
  x ∈ split sep s -> contains sep x = false /\ forall c, c ∈ x -> c ∈ s.
Proof.
  revert x. induction s as [|c s IH]; intros x; simpl.
  - intros ->%list_elem_of_singleton. split; [done|]. by intros c ?%elem_of_nil.
  - destruct (c =? sep) eqn:E.
    + intros [->|H]%elem_of_cons.
      * split; [done|]. by intros c' ?%elem_of_nil.
      * destruct (IH _ H) as [H1 H2]. split; [done|].
        intros c' Hc'. right. by apply H2.
    + destruct (split sep s) as [|p ps] eqn:S; [by destruct (split_nonempty sep s)|].
      intros [->|H]%elem_of_cons.
      * destruct (IH p) as [H1 H2]; [by left|]. split.
        -- simpl. by rewrite (N.eqb_sym sep c), E, H1.
        -- intros c' [->|Hc']%elem_of_cons; [by left|]. right. by apply H2.
      * destruct (IH x) as [H1 H2]; [by right|]. split; [done|].
        intros c' Hc'. right. by apply H2.
Qed.

Lemma split_no_sep (sep : char) (s : str) :
  contains sep s = false -> split sep s = [s].
Proof.
  induction s as [|c s IH]; simpl; [done|].
  rewrite (N.eqb_sym sep c). intros [E H]%orb_false_iff.
  rewrite E, (IH H). done.
Qed.

Lemma path_name_cases (p : str) :
  path_name p = [] \/ path_name p ∈ path_parts p.
Proof.
  unfold path_name. destruct (last (path_parts p)) as [x|] eqn:E; [|by left].
  right. simpl. apply last_Some in E as [l ->]. set_solver.
Qed.

Lemma path_name_idem (p : str) : path_name (path_name p) = path_name p.
Proof.
  destruct (path_name_cases p) as [->|H]; [done|].
  set (x := path_name p) in *. unfold path_parts in H.
  apply list_elem_of_In, filter_In in H as [H1 H2].
  apply list_elem_of_In, split_elem in H1 as [H1 _].
  unfold path_name, path_parts. rewrite (split_no_sep _ _ H1).
  cbn [List.filter]. by rewrite H2.
Qed.

Lemma path_suffix_name (p : str) : path_suffix (path_name p) = path_suffix p.
Proof. unfold path_suffix. by rewrite path_name_idem. Qed.

Lemma contains_false (c : char) (s : str) :
  contains c s = false <-> c ∉ s.
Proof.
  unfold contains. split.
  - intros H Hin. assert (existsb (N.eqb c) s = true); [|congruence].
    apply existsb_exists. exists c. split; [by apply list_elem_of_In|].
    apply N.eqb_refl.
  - intros H. destruct (existsb (N.eqb c) s) eqn:E; [|done].
    apply existsb_exists in E as (x & Hx & ->%N.eqb_eq).
    by apply list_elem_of_In in Hx.
Qed.

Lemma path_name_contains (c : char) (p : str) :
  contains c p = false -> contains c (path_name p) = false.
Proof.
  rewrite !contains_false. intros H Hin.
  destruct (path_name_cases p) as [E|Hp].
  - rewrite E in Hin. by apply elem_of_nil in Hin.
  - unfold path_parts in Hp.
    apply list_elem_of_In, filter_In in Hp as [Hp _].
    apply list_elem_of_In, split_elem in Hp as [_ Hp]. by apply H, Hp.
Qed.

Lemma str_of_nat_small (n : nat) :
  (n < 10)%nat -> str_of_nat n = [digit_char n].
Proof.
  intros H. unfold str_of_nat. cbn [digits_fuel].
  apply Nat.ltb_lt in H as H'. rewrite H'. by rewrite Nat.mod_small.
Qed.

Lemma str_of_nat_two (n : nat) :
  (10 <= n < 100)%nat ->
  str_of_nat n = [digit_char (n / 10); digit_char (n mod 10)].
Proof.
  intros [H1 H2]. unfold str_of_nat. cbn [digits_fuel].
  assert ((n <? 10)%nat = false) as -> by (apply Nat.ltb_ge; lia).
  destruct n as [|n]; [lia|]. cbn [digits_fuel].
  assert ((S n / 10 <? 10)%nat = true) as ->.
  { apply Nat.ltb_lt. apply Nat.Div0.div_lt_upper_bound. lia. }
  rewrite (Nat.mod_small (S n / 10)); [done|].
  apply Nat.Div0.div_lt_upper_bound. lia.
Qed.

Lemma format_02d_two_digits (index : nat) :
  (index < 100)%nat ->
  format_02d index = [digit_char (index / 10); digit_char (index mod 10)].
Proof.
  intros H. unfold format_02d. destruct (decide (index < 10)%nat) as [L|L].
  - rewrite str_of_nat_small by done. cbn [length replicate Nat.sub app].
    rewrite Nat.div_small, Nat.mod_small by done. reflexivity.
  - rewrite str_of_nat_two by lia. reflexivity.
Qed.

(** C7, as amended: the file of a font is named
    family-weight-style-index.ext, where the family has every character
    that is neither a word character of [\w] (a Unicode letter or digit, or
    the underscore) nor a hyphen replaced by an underscore, the weight has
    every run of white space replaced by one underscore, the style is as it
    is, the index is the position in the deduplicated and filtered list in
    decimal, padded with a zero to two digits, and the extension is the
    suffix of the path of the URL, or .woff2 if it has none. *)
Theorem download_filename_parts (font : FontFace) (index : nat) (path : str) :
  urlparse_path (url font) = Ok path ->
  contains (chr "?") path = false ->
  download_filename font index
    = Ok (sanitize (family font) ++ lit "-"
          ++ collapse_spaces false (weight font) ++ lit "-"
          ++ style font ++ lit "-" ++ format_02d index
          ++ str_or (path_suffix path) (lit ".woff2"))
  /\ ((index < 100)%nat ->
        format_02d index
        = [digit_char (index / 10); digit_char (index mod 10)])
  /\ (2 <= length (format_02d index))%nat
  /\ (forall fonts categories,
        filter_fonts (deduplicate_fonts fonts) categories !! index = Some font ->
        download_filenames fonts categories !! index
        = Some (download_filename font index)).
Proof.
  intros Hp Hq. split; [|split; [apply format_02d_two_digits|split]].
  - unfold download_filename. rewrite Hp. cbn [mbind result_bind].
    rewrite (path_name_contains _ _ Hq).
    by rewrite re_sub_unsafe, re_sub_spaces, path_suffix_name.
  - unfold format_02d. rewrite length_app, length_replicate. lia.
  - intros fonts categories H. unfold download_filenames.
    rewrite list_lookup_imap, H. reflexivity.
Qed.

(** ** Tokens: what a group captures *)

Section CaptureLemmas.
Context {A : Type}.
Implicit Types (k : cls) (r : regex) (p : pattern) (s : str) (cap : option str).
Implicit Types (cont : str -> option str -> option A).

Lemma m_star_split k s cap cont x :
  m_star k s cap cont = Some x ->
  exists g s', s = g ++ s'
    /\ Forall (fun c => cls_match k c = true) g
    /\ cont s' cap = Some x.
Proof.
  induction s as [|c s IH]; simpl; intros H.
  - by exists [], [].
  - destruct (cls_match k c) eqn:E; [|by exists [], (c :: s)].
    destruct (m_star k s cap cont) eqn:E'; [|by exists [], (c :: s)].
    destruct (IH H) as (g & s' & -> & Hg & Hc).
    exists (c :: g), s'. split; [done|]. split; [by constructor|done].
Qed.

Lemma m_item_group_plus k s cap cont x :
  m_item (RGroup (RPlus k)) s cap cont = Some x ->
  exists g s', s = g ++ s' /\ g <> []
    /\ Forall (fun c => cls_match k c = true) g
    /\ cont s' (Some g) = Some x.
Proof.
  cbn [m_item]. destruct s as [|c s]; [done|].
  destruct (cls_match k c) eqn:E; [|done]. intros H.
  apply m_star_split in H as (g & s' & -> & Hg & Hc).
  exists (c :: g), s'. split; [done|]. split; [done|].
  split; [by constructor|].
  replace (take (length (c :: g ++ s') - length s') (c :: g ++ s'))
    with (c :: g) in Hc; [done|].
  change (c :: g ++ s') with ((c :: g) ++ s').
  rewrite length_app, Nat.add_sub. by rewrite take_app_length.
Qed.

Lemma m_item_opt k s cap cont x :
  m_item (ROpt k) s cap cont = Some x ->
  exists q s', s = q ++ s'
    /\ (q = [] \/ exists c, q = [c] /\ cls_match k c = true)
    /\ cont s' cap = Some x.
Proof.
  cbn [m_item]. destruct s as [|c s]; [intros; exists [], []; eauto|].
  destruct (cls_match k c) eqn:E; [|intros; exists [], (c :: s); eauto].
  destruct (cont s cap) eqn:E'.
  - intros [= <-]. exists [c], s. eauto 6.
  - intros. exists [], (c :: s). eauto.
Qed.

Lemma m_item_same_cap r s cap cont x :
  no_group [r] = true ->
  m_item r s cap cont = Some x ->
  exists s', s' `suffix_of` s /\ cont s' cap = Some x.
Proof.
  destruct r as [k|k|k|k|r]; [| | | |done]; intros _ H.
  - cbn [m_item] in H. destruct s as [|c s]; [done|].
    destruct (cls_match k c); [|done]. exists s. split; [|done].
    by apply suffix_cons_r.
  - apply m_item_opt in H as (q & s' & -> & _ & H). exists s'.
    split; [by apply suffix_app_r|done].
  - apply m_star_suffix in H as (s' & ? & ?). eauto.
  - cbn [m_item] in H. destruct s as [|c s]; [done|].
    destruct (cls_match k c); [|done].
    apply m_star_suffix in H as (s' & ? & ?). exists s'.
    split; [by apply suffix_cons_r|done].
Qed.

Lemma m_seq_same_cap p s cap cont x :
  no_group p = true ->
  m_seq p s cap cont = Some x ->
  exists s', s' `suffix_of` s /\ cont s' cap = Some x.
Proof.
  revert s. induction p as [|r p IH]; intros s Hp H.
  - by exists s.
  - cbn [no_group forallb] in Hp. apply andb_true_iff in Hp as [Hr Hp].
    cbn [m_seq] in H.
    apply m_item_same_cap in H as (s1 & Hs1 & H);
      [|cbn [no_group forallb]; by rewrite Hr].
    apply IH in H as (s2 & Hs2 & H); [|done].
    exists s2. split; [by etrans|done].
Qed.

End CaptureLemmas.

Lemma re_search_at (p : pattern) (s : str) m :
  re_search p s = Some m ->
  exists a s', s = a ++ s' /\ match_at p s' = Some m.
Proof.
  induction s as [|c s IH]; cbn [re_search].
  - destruct (match_at p []) eqn:E; [|done]. intros [= <-]. by exists [], [].
  - destruct (match_at p (c :: s)) eqn:E.
    + intros [= <-]. by exists [], (c :: s).
    + intros (a & s' & -> & H)%IH. by exists (c :: a), s'.
Qed.

Lemma token_char_cls c :
  cls_match (CNone [AChar DQUOTE; AChar SQUOTE; AChar (chr ")"); ASpace]) c
  = token_char c.
Proof.
  unfold token_char. cbn [cls_match existsb atom_match].
  by rewrite orb_false_r, !orb_assoc.
Qed.

(** A match of word([Q']?(token)[Q']?\) holds the word, at most one quote
    and then the token, which is made of token characters and is not
    empty. *)
Lemma token_match (w : string) (s : str) m :
  re_search
    (plit w ++
     [quote_opt;
      RGroup (RPlus (CNone [AChar DQUOTE; AChar SQUOTE; AChar (chr ")"); ASpace]));
      quote_opt; lc ")"]) s = Some m ->
  exists a q b, s = a ++ lit w ++ q ++ group1 m ++ b
    /\ (q = [] \/ q = [DQUOTE] \/ q = [SQUOTE])
    /\ group1 m <> []
    /\ forallb token_char (group1 m) = true.
Proof.
  intros (a & s' & -> & H)%re_search_at. unfold match_at in H.
  rewrite m_seq_plit in H.
  destruct (startswith (lit w) s') eqn:Hw; [|done].
  apply startswith_prefix in Hw as [s0 ->].
  rewrite drop_app_length in H. cbn [m_seq] in H.
  apply m_item_opt in H as (q & s1 & -> & Hq & H).
  apply m_item_group_plus in H as (g & s2 & -> & Hne & Hg & H).
  apply (m_seq_same_cap [quote_opt; lc ")"]) in H as (s3 & _ & H); [|done].
  injection H as <-. cbn [group1 default].
  exists a, q, s2. split; [done|]. split.
  - destruct Hq as [->|(c & -> & Hc)]; [by left|right].
    cbn [cls_match existsb atom_match] in Hc.
    rewrite orb_false_r in Hc.
    apply orb_true_iff in Hc as [->%N.eqb_eq| ->%N.eqb_eq]; eauto.
  - split; [done|]. apply forallb_forall. intros c Hc.
    rewrite <- token_char_cls. rewrite Forall_forall in Hg.
    by apply Hg, list_elem_of_In.
Qed.

Lemma re_search_occurs (w : string) (p : pattern) (s : str) m :
  re_search (plit w ++ p) s = Some m -> occurs (lit w) s = true.
Proof.
  induction s as [|c s IH]; cbn [re_search occurs].
  - destruct (match_at _ []) eqn:E; [|done]. intros _.
    unfold match_at in E. rewrite m_seq_plit in E.
    by destruct (startswith (lit w) []).
  - destruct (match_at _ (c :: s)) eqn:E.
    + intros _. unfold match_at in E. rewrite m_seq_plit in E.
      by destruct (startswith (lit w) (c :: s)).
    + intros H. rewrite (IH H). apply orb_true_r.
Qed.

(** ** The fallback parser and terminated declarations *)

Lemma m_item_char {A} (x : ascii) (s : str) cap
    (cont : str -> option str -> option A) r :
  m_item (lc x) s cap cont = Some r ->
  exists s', s = chr x :: s' /\ cont s' cap = Some r.
Proof.
  unfold lc. cbn [m_item]. destruct s as [|c s]; [done|].
  cbn [cls_match atom_match]. destruct (c =? chr x) eqn:E; [|done].
  apply N.eqb_eq in E as ->. intros H. by exists s.
Qed.

Lemma m_item_spaces {A} (s : str) cap
    (cont : str -> option str -> option A) r :
  m_item spaces s cap cont = Some r ->
  exists ws s', s = ws ++ s'
    /\ Forall (fun c => is_space c = true) ws
    /\ cont s' cap = Some r.
Proof. apply (m_star_split (CAtom ASpace)). Qed.

Lemma m_item_char_here {A} (x : ascii) (s : str) cap
    (cont : str -> option str -> option A) :
  m_item (lc x) (chr x :: s) cap cont = cont s cap.
Proof.
  unfold lc. cbn [m_item cls_match atom_match]. by rewrite N.eqb_refl.
Qed.

Lemma m_star_here {A} k (s : str) cap (cont : str -> option str -> option A) :
  is_Some (cont s cap) -> is_Some (m_star k s cap cont).
Proof.
  intros H. destruct s as [|c s]; cbn [m_star]; [done|].
  destruct (cls_match k c); [|done]. by destruct (m_star k s cap cont).
Qed.

Lemma m_star_complete {A} k (g s : str) cap
    (cont : str -> option str -> option A) :
  Forall (fun c => cls_match k c = true) g ->
  is_Some (cont s cap) -> is_Some (m_star k (g ++ s) cap cont).
Proof.
  intros Hg H. induction Hg as [|c g Hc Hg IH]; [by apply m_star_here|].
  cbn [app m_star]. rewrite Hc. destruct IH as [x ->]. eauto.
Qed.

(** A match of name\s*:\s*([^;]+); is a terminated declaration. *)
Lemma decl_match (name : string) (block : str) m :
  re_search (decl_re name) block = Some m ->
  terminated_decl (lit name) block.
Proof.
  intros (a & s' & -> & H)%re_search_at. unfold match_at, decl_re in H.
  rewrite m_seq_plit in H.
  destruct (startswith (lit name) s') eqn:Hw; [|done].
  apply startswith_prefix in Hw as [s0 ->].
  rewrite drop_app_length in H. cbn [m_seq] in H.
  apply m_item_spaces in H as (ws & s1 & -> & Hws & H).
  apply m_item_char in H as (s2 & -> & H).
  apply m_item_spaces in H as (ws2 & s3 & -> & Hws2 & H).
  apply m_item_group_plus in H as (g & s4 & -> & Hne & Hg & H).
  apply m_item_char in H as (b & -> & _).
  exists a, ws, (ws2 ++ g), b. rewrite <- !app_assoc. split; [done|].
  split; [exact Hws|]. split; [by destruct ws2, g|].
  intros [Hin|Hin]%elem_of_app.
  - rewrite Forall_forall in Hws2. by specialize (Hws2 _ Hin).
  - rewrite Forall_forall in Hg. specialize (Hg _ Hin).
    cbn [cls_match existsb atom_match] in Hg.
    by rewrite N.eqb_refl in Hg.
Qed.

Lemma decl_items_complete {A} (ws value b : str) cap
    (cont : str -> option str -> option A) :
  Forall (fun c => is_space c = true) ws ->
  value <> [] -> (chr ";" ∉ value) ->
  (forall s' cap', is_Some (cont s' cap')) ->
  is_Some
    (m_seq [spaces; lc ":"; spaces; RGroup (RPlus (CNone [AChar (chr ";")]));
            lc ";"]
       (ws ++ chr ":" :: value ++ chr ";" :: b) cap cont).
Proof.
  intros Hws Hne Hv Hcont. cbn [m_seq].
  apply (m_star_complete (CAtom ASpace)); [exact Hws|].
  rewrite m_item_char_here.
  apply (m_star_here (CAtom ASpace)).
  destruct value as [|v0 value]; [done|].
  assert (forall c, c ∈ v0 :: value ->
            cls_match (CNone [AChar (chr ";")]) c = true) as Hcls.
  { intros c Hc. cbn [cls_match existsb atom_match]. rewrite orb_false_r.
    apply negb_true_iff, N.eqb_neq. by intros ->. }
  cbn [m_item app]. rewrite (Hcls v0) by left.
  apply m_star_complete.
  - apply Forall_forall. intros c Hc. apply Hcls. by right.
  - rewrite m_item_char_here. apply Hcont.
Qed.

(** And every terminated declaration is matched. *)
Lemma decl_complete (name : string) (block : str) :
  terminated_decl (lit name) block ->
  is_Some (re_search (decl_re name) block).
Proof.
  intros (a & ws & value & b & -> & Hws & Hne & Hv).
  apply re_search_later.
  assert (is_Some (match_at (decl_re name)
                     (lit name ++ ws ++ chr ":" :: value ++ chr ";" :: b)))
    as [m Hm]; [|rewrite (re_search_here _ _ _ Hm); eauto].
  unfold match_at, decl_re. rewrite m_seq_plit, startswith_app.
  rewrite drop_app_length. apply decl_items_complete; eauto.
Qed.

(** A match of the font-family pattern is a terminated declaration too. *)
Lemma family_match_decl (block : str) m :
  re_search FAMILY_RE block = Some m ->
  terminated_decl (lit "font-family") block.
Proof.
  intros (a & s' & -> & H)%re_search_at. unfold match_at, FAMILY_RE in H.
  rewrite m_seq_plit in H.
  destruct (startswith (lit "font-family") s') eqn:Hw; [|done].
  apply startswith_prefix in Hw as [s0 ->].
  rewrite drop_app_length in H. cbn [m_seq] in H.
  apply m_item_spaces in H as (ws & s1 & -> & Hws & H).
  apply m_item_char in H as (s2 & -> & H).
  apply m_item_spaces in H as (ws2 & s3 & -> & Hws2 & H).
  apply m_item_opt in H as (q1 & s4 & -> & Hq1 & H).
  apply m_item_group_plus in H as (g & s5 & -> & Hne & Hg & H).
  apply m_item_opt in H as (q2 & s6 & -> & Hq2 & H).
  apply m_item_spaces in H as (ws3 & s7 & -> & Hws3 & H).
  apply m_item_char in H as (b & -> & _).
  exists a, ws, (ws2 ++ q1 ++ g ++ q2 ++ ws3), b.
  rewrite <- !app_assoc. split; [done|].
  split; [exact Hws|]. split; [by destruct ws2, q1, g|].
  assert (forall q, q = [] \/ (exists c, q = [c] /\
            cls_match (CSome [AChar DQUOTE; AChar SQUOTE]) c = true) ->
          chr ";" ∉ q) as Hq.
  { intros q [->|(c & -> & Hc)]; [by intros ?%elem_of_nil|].
    intros <-%list_elem_of_singleton. by vm_compute in Hc. }
  rewrite Forall_forall in Hws2, Hws3, Hg.
  intros Hin. repeat apply elem_of_app in Hin as [Hin|Hin].
  - by specialize (Hws2 _ Hin).
  - by apply (Hq q1).
  - specialize (Hg _ Hin). cbn [cls_match existsb atom_match] in Hg.
    by rewrite N.eqb_refl in Hg.
  - by apply (Hq q2).
  - by specialize (Hws3 _ Hin).
Qed.

Lemma terminated_semicolon_follows (name block : str) :
  terminated_decl name block -> semicolon_follows name block = true.
Proof.
  intros (a & ws & value & b & -> & _).
  induction a as [|c a IH].
  - cbn [app].
    assert (startswith name (name ++ ws ++ chr ":" :: value ++ chr ";" :: b)
            && contains (chr ";")
                 (drop (length name)
                    (name ++ ws ++ chr ":" :: value ++ chr ";" :: b)) = true)
      as H.
    { rewrite startswith_app, drop_app_length. cbn [andb].
      unfold contains. rewrite existsb_app. cbn [existsb].
      rewrite existsb_app. cbn [existsb]. rewrite N.eqb_refl.
      by rewrite !orb_true_r. }
    destruct (name ++ ws ++ chr ":" :: value ++ chr ";" :: b);
      cbn [semicolon_follows]; by rewrite H.
  - cbn [app semicolon_follows]. rewrite IH. apply orb_true_r.
Qed.

(** C10, as amended: the fallback parser matches a [src] declaration exactly
    when the block holds one that a semicolon terminates, and a
    [font-family] declaration only when the block holds one; a block that
    gives a FontFace holds both, and a block without a terminated [src]
    declaration gives none.  A block in which no semicolon comes after the
    text src, as a minified block that ends with its only [src]
    declaration, has no terminated [src] declaration. *)
Theorem fallback_needs_semicolon (block base_url : str) :
  (is_Some (re_search SRC_RE block) <-> terminated_decl (lit "src") block)
  /\ (is_Some (re_search FAMILY_RE block) ->
        terminated_decl (lit "font-family") block)
  /\ (forall f, parse_block block base_url = Ok (Some f) ->
        terminated_decl (lit "src") block
        /\ terminated_decl (lit "font-family") block)
  /\ (~ terminated_decl (lit "src") block ->
        parse_block block base_url = Ok None)
  /\ (semicolon_follows (lit "src") block = false ->
        ~ terminated_decl (lit "src") block).
Proof.
  assert (is_Some (re_search SRC_RE block)
          <-> terminated_decl (lit "src") block) as Hsrc.
  { split; [intros [m H]; by apply decl_match in H|apply decl_complete]. }
  split; [exact Hsrc|].
  split; [intros [m H]; by apply family_match_decl in H|].
  split; [|split].
  - intros f. unfold parse_block.
    destruct (re_search FAMILY_RE block) as [fm|] eqn:Ef; [|done].
    destruct (re_search SRC_RE block) as [sm|] eqn:Es; [|done].
    intros _. split; [by apply decl_match in Es|by apply family_match_decl in Ef].
  - intros Hno. unfold parse_block.
    destruct (re_search SRC_RE block) as [sm|] eqn:Es.
    + destruct Hno. apply Hsrc. eauto.
    + by destruct (re_search FAMILY_RE block).
  - intros H Ht. apply terminated_semicolon_follows in Ht. congruence.
Qed.

(** ** extract_font_url *)

(** X1: when extraction gives a candidate, its URL is the resolution of a
    token of the fragment that follows the text url( and at most one quote,
    is not empty, holds no quote, closing parenthesis or white space and
    does not begin with data:; a declared format is such a token after
    format(, and none is reported only when the fragment has no match of the
    format pattern. *)
Theorem extract_font_url_token (src_value base_url u : str) (fmt : option str) :
  extract_font_url src_value base_url = Ok (Some (u, fmt)) ->
  (exists raw a q b,
     src_value = a ++ lit "url(" ++ q ++ raw ++ b
     /\ (q = [] \/ q = [DQUOTE] \/ q = [SQUOTE])
     /\ raw <> [] /\ forallb token_char raw = true
     /\ startswith (lit "data:") raw = false
     /\ urljoin base_url raw = Ok u)
  /\ match fmt with
     | Some f =>
         exists a q b,
           src_value = a ++ lit "format(" ++ q ++ f ++ b
           /\ (q = [] \/ q = [DQUOTE] \/ q = [SQUOTE])
           /\ f <> [] /\ forallb token_char f = true
     | None => re_search FORMAT_RE src_value = None
     end.
Proof.
  unfold extract_font_url.
  destruct (re_search URL_RE src_value) as [m|] eqn:Hm; [|done].
  destruct (startswith (lit "data:") (group1 m)) eqn:Hd; [done|].
  destruct (urljoin base_url (group1 m)) as [u'|e] eqn:Hj; [|done].
  cbn [mbind result_bind]. intros [= <- <-].
  apply (token_match "url(") in Hm as (a & q & b & E & Hq & Hne & Htok).
  split; [exists (group1 m), a, q, b; done|].
  destruct (re_search FORMAT_RE src_value) as [fm|] eqn:Hf; cbn [fmap option_fmap option_map].
  - apply (token_match "format(") in Hf
      as (a' & q' & b' & E' & Hq' & Hne' & Htok').
    exists a', q', b'. done.
  - done.
Qed.

(** X2: a fragment in which the text url( does not occur gives no
    candidate, and the URL library is not called: the result is none on
    every runtime. *)
Theorem extract_font_url_without_url (src_value base_url : str) :
  occurs (lit "url(") src_value = false ->
  extract_font_url src_value base_url = Ok None.
Proof.
  intros H. unfold extract_font_url.
  destruct (re_search URL_RE src_value) as [m|] eqn:Hm; [|done].
  apply (re_search_occurs "url(") in Hm. congruence.
Qed.

(** ** parse_font_face_rule *)

Lemma read_props_snoc (props : list (str * str)) p :
  read_props (props ++ [p]) = read_prop (read_props props) p.
Proof. unfold read_props. by rewrite foldl_app. Qed.

Lemma last_value_snoc (name : str) (props : list (str * str)) n v :
  last_value name (props ++ [(n, v)])
  = if decide (n = name) then Some v else last_value name props.
Proof.
  unfold last_value. rewrite filter_app, fmap_app.
  destruct (decide (n = name)) as [E|E].
  - rewrite filter_cons_True by done. rewrite filter_nil. cbn [fmap list_fmap snd].
    by rewrite last_snoc.
  - rewrite filter_cons_False by done. rewrite filter_nil. cbn [fmap list_fmap].
    by rewrite app_nil_r.
Qed.

(** In a rule the last property of a name gives the value; without one the
    family and the source are absent, the weight is 400 and the style
    normal. *)
Lemma read_props_last (props : list (str * str)) :
  read_props props
  = mkVars (strip_quotes <$> last_value (lit "font-family") props)
      (default (lit "400") (last_value (lit "font-weight") props))
      (default (lit "normal") (last_value (lit "font-style") props))
      (last_value (lit "src") props).
Proof.
  induction props as [|[n v] props IH] using rev_ind; [done|].
  rewrite read_props_snoc, IH, !last_value_snoc. unfold read_prop.
  cbn [v_family v_weight v_style v_src].
  repeat case_bool_decide; subst; repeat case_decide;
    try done; try congruence;
    exfalso;
    repeat match goal with
    | H : lit _ = lit _ |- _ => vm_compute in H; try discriminate H; clear H
    end.
Qed.

Lemma best_candidate_first_lowest (cs : list candidate) c :
  best_candidate cs = Some c -> first_lowest c cs.
Proof. apply head_sort_by_first. Qed.

Lemma parse_font_face_rule_shape (rule : list (str * str))
    (base_url : str) (fs : list FontFace) :
  parse_font_face_rule rule base_url = Ok fs ->
  (length fs <= 1)%nat
  /\ forall f, f ∈ fs ->
       (exists v, last_value (lit "font-family") rule = Some v
          /\ family f = strip_quotes v /\ family f <> [])
       /\ weight f = default (lit "400") (last_value (lit "font-weight") rule)
       /\ style f = default (lit "normal") (last_value (lit "font-style") rule)
       /\ category f = classify_font (family f)
       /\ exists src_value cs c,
            last_value (lit "src") rule = Some src_value
            /\ src_candidates src_value base_url = Ok cs
            /\ first_lowest c cs
            /\ url f = c.1.1 /\ format f = c.1.2.
Proof.
  unfold parse_font_face_rule, select_best_source. rewrite read_props_last.
  cbn [v_family v_weight v_style v_src].
  destruct (last_value (lit "font-family") rule) as [v|];
    [|intros [= <-]; split; [simpl; lia|by intros f ?%elem_of_nil]].
  destruct (last_value (lit "src") rule) as [src_value|];
    [|rewrite orb_true_r; intros [= <-];
      split; [simpl; lia|by intros f ?%elem_of_nil]].
  cbn [fmap option_fmap option_map default from_option]. unfold id.
  destruct (falsy (Some (strip_quotes v)) || falsy (Some src_value)) eqn:Hf;
    [intros [= <-]; split; [simpl; lia|by intros f ?%elem_of_nil]|].
  apply orb_false_iff in Hf as [Hfam _].
  destruct (src_candidates src_value base_url) as [cs|e] eqn:Hcs;
    cbn [mbind result_bind]; [|done].
  destruct (best_candidate cs) as [[[u fmt] pr]|] eqn:Hb;
    [|intros [= <-]; split; [simpl; lia|by intros f ?%elem_of_nil]].
  intros [= <-]. split; [simpl; lia|].
  intros f ->%list_elem_of_singleton. cbn [family weight style category url format].
  split.
  { exists v. split; [done|]. split; [done|].
    intros E. rewrite E in Hfam. done. }
  do 3 (split; [done|]).
  exists src_value, cs, (u, fmt, pr). split; [done|]. split; [done|].
  split; [by apply best_candidate_first_lowest|done].
Qed.

(** X3: a font-face rule gives at most one FontFace.  Its family is the
    value of the last font-family property without the quotes around it and
    is not empty, its weight and style are the values of the last
    font-weight and font-style properties (400 and normal without one), its
    category is the classification of its family, and its url and format
    are those of the first candidate of lowest rank of the last src
    property. *)
Theorem parse_font_face_rule_fields (rule : list (str * str))
    (base_url : str) (fs : list FontFace) :
  parse_font_face_rule rule base_url = Ok fs ->
  (length fs <= 1)%nat
  /\ forall f, f ∈ fs ->
       (exists v, last_value (lit "font-family") rule = Some v
          /\ family f = strip_quotes v /\ family f <> [])
       /\ weight f = default (lit "400") (last_value (lit "font-weight") rule)
       /\ style f = default (lit "normal") (last_value (lit "font-style") rule)
       /\ category f = classify_font (family f)
       /\ exists src_value cs c,
            last_value (lit "src") rule = Some src_value
            /\ src_candidates src_value base_url = Ok cs
            /\ first_lowest c cs
            /\ url f = c.1.1 /\ format f = c.1.2.
Proof. apply parse_font_face_rule_shape. Qed.

(** X4: a rule without a font-family property or without a src property
    gives no FontFace and raises nothing, whatever its other properties
    hold: no URL is resolved. *)
Theorem parse_font_face_rule_incomplete (rule : list (str * str))
    (base_url : str) :
  last_value (lit "font-family") rule = None
  \/ last_value (lit "src") rule = None ->
  parse_font_face_rule rule base_url = Ok [].
Proof.
  intros H. unfold parse_font_face_rule. rewrite read_props_last.
  cbn [v_family v_src].
  destruct H as [-> | ->]; [done|]. by rewrite orb_true_r.
Qed.

Lemma collect_candidates_none (parts : list str) (base_url : str) :
  Forall (fun part => extract_font_url (strip part) base_url = Ok None) parts ->
  collect_candidates parts base_url = Ok [].
Proof.
  induction 1 as [|part parts H _ IH]; [done|].
  cbn [collect_candidates]. unfold candidate_of. rewrite H.
  cbn [mbind result_bind]. by rewrite IH.
Qed.

(** X5: a rule whose src value has no fragment that gives a candidate, as
    when every source is a data URI, gives no FontFace and raises
    nothing. *)
Theorem parse_font_face_rule_no_candidate (rule : list (str * str))
    (base_url src_value : str) :
  last_value (lit "src") rule = Some src_value ->
  Forall (fun part => exists m,
            re_search URL_RE (strip part) = Some m
            /\ startswith (lit "data:") (group1 m) = true)
    (split (chr ",") src_value) ->
  select_best_source src_value base_url = Ok None
  /\ parse_font_face_rule rule base_url = Ok [].
Proof.
  intros Hsrc Hdata.
  assert (select_best_source src_value base_url = Ok None) as Hsel.
  { unfold select_best_source, src_candidates.
    rewrite collect_candidates_none; [done|].
    eapply Forall_impl; [apply Hdata|]. intros part (m & Hm & Hd).
    by eapply extract_font_url_data. }
  split; [done|].
  unfold parse_font_face_rule. rewrite read_props_last, Hsrc.
  cbn [v_family v_src default from_option]. unfold id.
  destruct (falsy _ || falsy _); [done|]. by rewrite Hsel.
Qed.

(** ** parse_css_with_regex *)

Lemma match_at_block_other c (s : str) :
  c <> chr "@" -> match_at BLOCK_RE (c :: s) = None.
Proof.
  intros Hc. unfold match_at, BLOCK_RE.
  let x := eval vm_compute in (pliti "@font-face") in
    change (pliti "@font-face") with x.
  cbn [app m_seq m_item cls_match].
  replace (ascii_tolower c =? ascii_tolower 64) with false; [done|].
  symmetry. apply N.eqb_neq. unfold ascii_tolower, is_ascii_upper.
  change (chr "@") with 64 in Hc.
  destruct ((65 <=? c) && (c <=? 90)) eqn:E; cbn.
  - apply andb_true_iff in E as [E1%N.leb_le E2]. lia.
  - done.
Qed.

Lemma match_at_block_nil : match_at BLOCK_RE [] = None.
Proof. reflexivity. Qed.

Lemma finditer_block_no_at (s : str) :
  contains (chr "@") s = false -> finditer BLOCK_RE s = [].
Proof.
  unfold finditer. induction s as [|c s IH]; [done|].
  cbn [contains existsb]. intros [Hc Hs]%orb_false_iff.
  cbn [finditer_from]. rewrite match_at_block_other.
  - by apply IH.
  - intros ->. by rewrite N.eqb_refl in Hc.
Qed.

(** X6: on a text without the character @ the fallback parser finds no
    block: it gives the empty list and raises nothing, and so does the scan
    when the structured parse fails on such a text. *)
Theorem fallback_without_at (css_text base_url : str) :
  contains (chr "@") css_text = false ->
  parse_css_with_regex css_text base_url = Ok []
  /\ forall e, parseString css_text = Raise e ->
       parse_css_for_fonts css_text base_url = Ok [].
Proof.
  intros H.
  assert (parse_css_with_regex css_text base_url = Ok []) as Hre.
  { unfold parse_css_with_regex. by rewrite finditer_block_no_at. }
  split; [done|]. intros e He.
  unfold parse_css_for_fonts, try_structured. by rewrite He, Hre.
Qed.

Lemma lstrip_by_head (p : char -> bool) (s : str) c :
  head (lstrip_by p s) = Some c -> p c = false.
Proof.
  induction s as [|d s IH]; [done|]. cbn [lstrip_by].
  destruct (p d) eqn:E; [done|]. by intros [= <-].
Qed.

Lemma lstrip_by_suffix (p : char -> bool) (s : str) :
  lstrip_by p s `suffix_of` s.
Proof.
  induction s as [|d s IH]; [done|]. cbn [lstrip_by].
  destruct (p d); [by apply suffix_cons_r|done].
Qed.

Lemma rstrip_by_prefix (p : char -> bool) (s : str) :
  rstrip_by p s `prefix_of` s.
Proof.
  unfold rstrip_by.
  destruct (lstrip_by_suffix p (reverse s)) as [t E].
  exists (reverse t).
  by rewrite <- reverse_app, <- E, reverse_involutive.
Qed.

Lemma rstrip_by_last (p : char -> bool) (s : str) c :
  last (rstrip_by p s) = Some c -> p c = false.
Proof.
  unfold rstrip_by. rewrite last_reverse. apply lstrip_by_head.
Qed.

Lemma strip_stripped (s : str) : stripped (strip s).
Proof.
  unfold stripped, strip, strip_by. split.
  - destruct (head (rstrip_by is_space (lstrip_by is_space s))) as [c|] eqn:E;
      [|done].
    apply (lstrip_by_head is_space s).
    destruct (rstrip_by_prefix is_space (lstrip_by is_space s)) as [t Ht].
    rewrite Ht.
    destruct (rstrip_by is_space (lstrip_by is_space s)); [done|].
    by injection E as ->.
  - destruct (last (rstrip_by is_space (lstrip_by is_space s))) as [c|] eqn:E;
      [|done].
    by eapply rstrip_by_last.
Qed.

Lemma parse_block_fields (block base_url : str) f :
  parse_block block base_url = Ok (Some f) ->
  stripped (family f) /\ stripped (weight f) /\ stripped (style f)
  /\ category f = classify_font (family f).
Proof.
  unfold parse_block.
  destruct (re_search FAMILY_RE block) as [fm|]; [|done].
  destruct (re_search SRC_RE block) as [sm|]; [|done].
  destruct (extract_font_url _ base_url) as [[[u fmt]|]|e];
    cbn [mbind result_bind]; [|done..].
  intros [= <-]. cbn [family weight style category].
  split; [apply strip_stripped|].
  split; [|split; [|done]].
  - destruct (re_search WEIGHT_RE block); cbn [from_option];
      [apply strip_stripped|by vm_compute].
  - destruct (re_search STYLE_RE block); cbn [from_option];
      [apply strip_stripped|by vm_compute].
Qed.

Lemma parse_blocks_Forall (P : FontFace -> Prop) (blocks : list str)
    (base_url : str) fs :
  (forall block f, parse_block block base_url = Ok (Some f) -> P f) ->
  parse_blocks blocks base_url = Ok fs ->
  Forall P fs /\ (length fs <= length blocks)%nat.
Proof.
  intros HP. revert fs.
  induction blocks as [|block blocks IH]; intros fs; cbn [parse_blocks].
  - intros [= <-]. by split.
  - destruct (parse_block block base_url) as [f|e] eqn:E;
      cbn [mbind result_bind]; [|done].
    destruct (parse_blocks blocks base_url) as [fs'|e];
      cbn [mbind result_bind]; [|done].
    intros [= <-]. destruct (IH fs' eq_refl) as [IH1 IH2].
    destruct f as [f|]; cbn [from_option app length].
    + split; [constructor; [by eapply HP|done]|lia].
    + split; [done|lia].
Qed.

(** X7: the fallback parser gives at most one FontFace for each block it
    matches; the family, weight and style of each are free of white space
    at both ends, and the category is the classification of the family. *)
Theorem fallback_fields_stripped (css_text base_url : str)
    (fonts : list FontFace) :
  parse_css_with_regex css_text base_url = Ok fonts ->
  (length fonts <= length (finditer BLOCK_RE css_text))%nat
  /\ Forall (fun f => stripped (family f) /\ stripped (weight f)
                      /\ stripped (style f)
                      /\ category f = classify_font (family f)) fonts.
Proof.
  unfold parse_css_with_regex. intros H.
  apply (parse_blocks_Forall _ _ _ _
           (fun block f => parse_block_fields block base_url f)) in H
    as [H1 H2].
  rewrite length_fmap in H2. done.
Qed.

(** ** parse_css_for_fonts: what every FontFace satisfies *)

Lemma extend_from_rules_Forall (P : FontFace -> Prop) (sheet : list css_rule)
    (base_url : str) fonts :
  (forall rule fs, parse_font_face_rule rule base_url = Ok fs -> Forall P fs) ->
  Forall P fonts ->
  Forall P (extend_from_rules sheet base_url fonts).1.
Proof.
  intros HP. revert fonts.
  induction sheet as [|[rule|] sheet IH]; intros fonts H; cbn [extend_from_rules].
  - done.
  - destruct (parse_font_face_rule rule base_url) as [fs|e] eqn:E; [|done].
    apply IH. apply Forall_app. split; [done|]. by eapply HP.
  - by apply IH.
Qed.

Lemma parse_css_for_fonts_Forall (P : FontFace -> Prop)
    (css_text base_url : str) fonts :
  (forall rule fs, parse_font_face_rule rule base_url = Ok fs -> Forall P fs) ->
  (forall block f, parse_block block base_url = Ok (Some f) -> P f) ->
  parse_css_for_fonts css_text base_url = Ok fonts ->
  Forall P fonts.
Proof.
  intros HP1 HP2. unfold parse_css_for_fonts.
  assert (Forall P (try_structured css_text base_url []).1) as H.
  { unfold try_structured. destruct (parseString css_text); [|constructor].
    by apply extend_from_rules_Forall. }
  destruct (try_structured css_text base_url []) as [fs [e|]]; cbn [fst] in H.
  - destruct (parse_css_with_regex css_text base_url) as [fs'|e'] eqn:E;
      cbn [mbind result_bind]; [|done].
    intros [= <-]. apply Forall_app. split; [done|].
    by eapply parse_blocks_Forall in E as [E _].
  - by intros [= <-].
Qed.

Lemma classify_font_not_display (family : str) :
  classify_font family <> DISPLAY.
Proof.
  unfold classify_font.
  destruct (search_any MONO_PATTERNS _); [done|].
  destruct (search_any SANS_PATTERNS _); [done|].
  by destruct (search_any SERIF_PATTERNS _).
Qed.

(** X8: every FontFace the scan returns, on the structured path and on the
    fallback path, has the category that classification gives its family;
    the category display is never given. *)
Theorem scan_categories (css_text base_url : str) (fonts : list FontFace) :
  parse_css_for_fonts css_text base_url = Ok fonts ->
  Forall (fun f => category f = classify_font (family f)
                   /\ category f <> DISPLAY) fonts.
Proof.
  apply parse_css_for_fonts_Forall.
  - intros rule fs H. apply Forall_forall. intros f Hf.
    destruct (parse_font_face_rule_shape _ _ _ H) as [_ Hfs].
    destruct (Hfs f Hf) as (_ & _ & _ & Hc & _).
    split; [done|]. rewrite Hc. apply classify_font_not_display.
  - intros block f H. apply parse_block_fields in H as (_ & _ & _ & Hc).
    split; [done|]. rewrite Hc. apply classify_font_not_display.
Qed.

(** ** parse_css_for_fonts: the two paths *)

Lemma extend_from_rules_all_ok (sheet : list css_rule) (base_url : str)
    (fss : list (list FontFace)) fonts :
  Forall2 (fun r fs =>
             match r with
             | CSSFontFaceRule rule => parse_font_face_rule rule base_url = Ok fs
             | OtherRule => fs = []
             end) sheet fss ->
  extend_from_rules sheet base_url fonts = (fonts ++ concat fss, None).
Proof.
  intros H. revert fonts.
  induction H as [|r fs sheet fss Hr _ IH]; intros fonts;
    cbn [extend_from_rules concat].
  - by rewrite app_nil_r.
  - destruct r as [rule|].
    + rewrite Hr, IH. by rewrite app_assoc.
    + subst fs. by rewrite IH.
Qed.

(** X9: when the structured parse succeeds and no font-face rule raises,
    the scan is the concatenation, in the order of the sheet, of what each
    font-face rule gives; rules of other kinds give nothing and the text is
    not scanned by the fallback parser. *)
Theorem structured_scan_concat (css_text base_url : str)
    (sheet : list css_rule) (fss : list (list FontFace)) :
  parseString css_text = Ok sheet ->
  Forall2 (fun r fs =>
             match r with
             | CSSFontFaceRule rule => parse_font_face_rule rule base_url = Ok fs
             | OtherRule => fs = []
             end) sheet fss ->
  parse_css_for_fonts css_text base_url = Ok (concat fss).
Proof.
  intros Hp H. unfold parse_css_for_fonts, try_structured.
  by rewrite Hp, (extend_from_rules_all_ok _ _ _ _ H).
Qed.

(** X10: the scan raises exactly when the structured path has raised and
    the fallback parser raises in its turn, and what it raises is the
    fallback's exception; an exception of the structured path alone never
    leaves the scan. *)
Theorem scan_raises_what_fallback_raises (css_text base_url : str) (e : exn) :
  parse_css_for_fonts css_text base_url = Raise e
  <-> (exists e', (try_structured css_text base_url []).2 = Some e')
      /\ parse_css_with_regex css_text base_url = Raise e.
Proof.
  unfold parse_css_for_fonts.
  destruct (try_structured css_text base_url []) as [fs [e'|]]; cbn [snd].
  - destruct (parse_css_with_regex css_text base_url) as [fs'|e''];
      cbn [mbind result_bind].
    + split; [done|]. by intros [_ ?].
    + split.
      * intros [= ->]. eauto.
      * by intros [_ [= ->]].
  - split; [done|]. by intros [[? ?] _].
Qed.

(** ** deduplicate_fonts and filter_fonts together *)

Lemma keep_first_union (S T : gset (list N)) (l : list FontFace) :
  keep_first (S ∪ T) l = filter (fun f => url f ∉ S) (keep_first T l).
Proof.
  revert T. induction l as [|f l IH]; intros T; cbn [keep_first]; [done|].
  destruct (decide (url f ∈ T)) as [HT|HT].
  - rewrite !bool_decide_eq_true_2 by set_solver. apply IH.
  - rewrite (bool_decide_eq_false_2 (url f ∈ T)) by done.
    destruct (decide (url f ∈ S)) as [HS|HS].
    + rewrite bool_decide_eq_true_2 by set_solver.
      rewrite filter_cons_False by (intros ?; done).
      rewrite <- IH. f_equal. set_solver.
    + rewrite bool_decide_eq_false_2 by set_solver.
      rewrite filter_cons_True by done.
      f_equal. rewrite <- IH. f_equal. set_solver.
Qed.

Lemma keep_first_length seen (l : list FontFace) :
  (length (keep_first seen l) <= length l)%nat.
Proof. apply sublist_length, keep_first_sublist. Qed.

(** X11: deduplicating two lists put end to end keeps the deduplicated
    first list and, of the deduplicated second list, the entries whose url
    is not in the first: what was found first stays.  The result is never
    longer than the input. *)
Theorem deduplicate_fonts_app (a b : list FontFace) :
  deduplicate_fonts (a ++ b)
  = deduplicate_fonts a
    ++ filter (fun f => url f ∉ url <$> a) (deduplicate_fonts b)
  /\ (length (deduplicate_fonts (a ++ b)) <= length a + length b)%nat.
Proof.
  rewrite !deduplicate_keep_first. split.
  - rewrite keep_first_app. f_equal.
    rewrite (keep_first_union (list_to_set (url <$> a)) ∅ b).
    apply list_filter_iff. intros f. by rewrite elem_of_list_to_set.
  - rewrite <- length_app. apply keep_first_length.
Qed.

Lemma filter_fonts_Some (fonts : list FontFace) (cats : list FontCategory) :
  filter_fonts fonts (Some cats)
  = filter (fun f => category f ∈ cats) fonts.
Proof.
  cbn [filter_fonts]. induction fonts as [|f fonts IH]; [done|].
  cbn [List.filter]. case_bool_decide.
  - rewrite filter_cons_True by done. by rewrite IH.
  - rewrite filter_cons_False by done. done.
Qed.

Lemma keep_first_filter_sublist (P : FontFace -> Prop)
    `{!forall f, Decision (P f)} seen (l : list FontFace) :
  sublist (filter P (keep_first seen l)) (keep_first seen (filter P l)).
Proof.
  revert seen. induction l as [|f l IH]; intros seen; [done|].
  cbn [keep_first].
  destruct (decide (url f ∈ seen)) as [Hs|Hs].
  - rewrite bool_decide_eq_true_2 by done.
    destruct (decide (P f)).
    + rewrite filter_cons_True by done. cbn [keep_first].
      rewrite bool_decide_eq_true_2 by done. apply IH.
    + rewrite filter_cons_False by done. apply IH.
  - rewrite bool_decide_eq_false_2 by done.
    destruct (decide (P f)).
    + rewrite !filter_cons_True by done. cbn [keep_first].
      rewrite bool_decide_eq_false_2 by done. apply sublist_skip, IH.
    + rewrite !filter_cons_False by done.
      etrans; [apply IH|].
      rewrite (keep_first_union {[url f]} seen). apply sublist_filter.
Qed.

(** X12: after deduplication and filtering, as [main] applies them, the
    urls are pairwise distinct and the list is a sublist of the input; it
    is also a sublist of what filtering before deduplicating would give, no
    entry being gained by the order [main] uses. *)
Theorem filter_after_deduplicate (fonts : list FontFace)
    (categories : option (list FontCategory)) :
  NoDup (url <$> filter_fonts (deduplicate_fonts fonts) categories)
  /\ sublist (filter_fonts (deduplicate_fonts fonts) categories) fonts
  /\ sublist (filter_fonts (deduplicate_fonts fonts) categories)
       (deduplicate_fonts (filter_fonts fonts categories)).
Proof.
  destruct categories as [cats|]; cbn [filter_fonts].
  - change (List.filter _ ?l) with (filter_fonts l (Some cats)).
    rewrite !filter_fonts_Some, !deduplicate_keep_first.
    split; [|split].
    + eapply sublist_NoDup; [apply (keep_first_NoDup ∅ fonts)|].
      apply fmap_sublist, sublist_filter.
    + etrans; [apply sublist_filter|apply keep_first_sublist].
    + apply keep_first_filter_sublist.
  - rewrite deduplicate_keep_first.
    split; [apply keep_first_NoDup|]. split; [apply keep_first_sublist|done].
Qed.

(** X13: with --all, or with none of --serif, --sans-serif and --monospace,
    [main] keeps every font; otherwise it keeps, in order, the fonts whose
    category has its flag, so that a font of category unknown or display is
    dropped as soon as one of the three flags is given without --all. *)
Theorem filter_by_flags (fonts : list FontFace)
    (all serif sans_serif monospace : bool) :
  filter_fonts fonts (categories_of_flags all serif sans_serif monospace)
  = if all || negb (serif || sans_serif || monospace) then fonts
    else List.filter
           (fun f => match category f with
                     | SERIF => serif
                     | SANS_SERIF => sans_serif
                     | MONOSPACE => monospace
                     | DISPLAY | UNKNOWN => false
                     end) fonts.
Proof.
  unfold categories_of_flags. destruct all; [done|]. cbn [orb].
  destruct (serif || sans_serif || monospace) eqn:E; [|done].
  cbn [negb filter_fonts]. clear E.
  induction fonts as [|f fonts IH]; [done|]. cbn [List.filter].
  rewrite IH. clear IH.
  replace (bool_decide (category f ∈ _))
    with (match category f with
          | SERIF => serif
          | SANS_SERIF => sans_serif
          | MONOSPACE => monospace
          | DISPLAY | UNKNOWN => false
          end); [done|].
  destruct serif, sans_serif, monospace, (category f); by vm_compute.
Qed.

(** ** The parts of a file name *)

Lemma rfind_None c (s : str) : rfind c s = None -> c ∉ s.
Proof.
  induction s as [|x s IH]; cbn [rfind]; [by intros _ ?%elem_of_nil|].
  destruct (rfind c s); [done|].
  destruct (x =? c) eqn:E; [done|]. intros _.
  apply N.eqb_neq in E. intros [->|H]%elem_of_cons; [done|]. by apply IH.
Qed.

Lemma rfind_Some c (s : str) i :
  rfind c s = Some i ->
  exists a t, s = a ++ c :: t /\ length a = i /\ c ∉ t.
Proof.
  revert i. induction s as [|x s IH]; intros i; cbn [rfind]; [done|].
  destruct (rfind c s) as [j|] eqn:E.
  - intros [= <-]. destruct (IH j eq_refl) as (a & t & -> & <- & Ht).
    by exists (x :: a), t.
  - destruct (x =? c) eqn:Ex; [|done]. intros [= <-].
    apply N.eqb_eq in Ex as ->. exists [], s. split; [done|].
    split; [done|]. by apply rfind_None.
Qed.

Lemma path_name_no_slash (p : str) : chr "/" ∉ path_name p.
Proof.
  destruct (path_name_cases p) as [->|H]; [by intros ?%elem_of_nil|].
  unfold path_parts in H.
  apply list_elem_of_In, filter_In in H as [H _].
  apply list_elem_of_In, split_elem in H as [H _].
  by apply contains_false.
Qed.

Lemma path_suffix_shape_lemma (p : str) :
  path_suffix p = []
  \/ exists stem t, path_name p = stem ++ path_suffix p
       /\ path_suffix p = (chr "." :: t)
       /\ stem <> [] /\ t <> [] /\ (chr "." ∉ t) /\ (chr "/" ∉ t).
Proof.
  unfold path_suffix.
  destruct (rfind (chr ".") (path_name p)) as [i|] eqn:E; [|by left].
  case_bool_decide as Hi; [|by left]. right.
  pose proof (path_name_no_slash p) as Hslash.
  apply rfind_Some in E as (a & t & En & <- & Ht).
  rewrite En in *. rewrite drop_app_length.
  rewrite length_app in Hi. cbn [length] in Hi.
  exists a, t. split; [done|]. split; [done|].
  split; [by destruct a; [simpl in Hi; lia|]|].
  split; [by destruct t; [simpl in Hi; lia|]|].
  split; [done|]. intros H. apply Hslash. set_solver.
Qed.

(** X14: the suffix pathlib gives a path, which ranks a source without a
    declared format and ends the name of a downloaded file, is empty or is
    a dot followed by at least one character, none of them a dot or a
    slash; it is the end of the last component of the path and never the
    whole of it. *)
Theorem path_suffix_shape (p : str) :
  path_suffix p = []
  \/ exists stem t, path_name p = stem ++ path_suffix p
       /\ path_suffix p = (chr "." :: t)
       /\ stem <> [] /\ t <> [] /\ (chr "." ∉ t) /\ (chr "/" ∉ t).
Proof. apply path_suffix_shape_lemma. Qed.

Lemma sanitize_length (s : str) : length (sanitize s) = length s.
Proof. unfold sanitize. apply length_map. Qed.

Lemma keeps_underscore : keeps (chr "_") = true.
Proof. reflexivity. Qed.

Lemma keeps_ascii c : c < 128 -> keeps c = ascii_safe c.
Proof.
  intros Hc. unfold keeps, ascii_safe, is_word.
  apply N.ltb_lt in Hc. rewrite Hc.
  change (chr "_") with 95. by destruct (c =? 95), (ascii_alnum c).
Qed.

Lemma sanitize_keeps (s : str) :
  Forall (fun c => keeps c = true) (sanitize s).
Proof.
  unfold sanitize. apply Forall_forall. intros c Hc.
  apply list_elem_of_In, in_map_iff in Hc as (d & <- & _).
  destruct (keeps d) eqn:E; [done|apply keeps_underscore].
Qed.

Lemma sanitize_idem (s : str) : sanitize (sanitize s) = sanitize s.
Proof.
  unfold sanitize. rewrite map_map. apply map_ext. intros c.
  destruct (keeps c) eqn:E; [by rewrite E|by rewrite keeps_underscore].
Qed.

Lemma collapse_spaces_no_space b (s : str) :
  Forall (fun c => is_space c = false) (collapse_spaces b s).
Proof.
  revert b. induction s as [|c s IH]; intros b; cbn [collapse_spaces]; [done|].
  destruct (is_space c) eqn:E.
  - destruct b; [apply IH|]. constructor; [done|apply IH].
  - constructor; [done|apply IH].
Qed.

Lemma collapse_spaces_id b (s : str) :
  Forall (fun c => is_space c = false) s -> collapse_spaces b s = s.
Proof.
  intros H. revert b. induction H as [|c s Hc _ IH]; intros b; [done|].
  cbn [collapse_spaces]. rewrite Hc. by rewrite IH.
Qed.

Lemma collapse_spaces_length b (s : str) :
  (length (collapse_spaces b s) <= length s)%nat.
Proof.
  revert b. induction s as [|c s IH]; intros b; cbn [collapse_spaces]; [done|].
  pose proof (IH true). pose proof (IH false).
  destruct (is_space c); [destruct b|]; cbn [length]; lia.
Qed.

(** X15: the family part of a file name has the length of the family and
    holds only word characters, hyphens and underscores, so among the ASCII
    characters only letters, digits, hyphen and underscore: no slash, dot or
    space.  The weight part holds no white space and is not longer than the
    weight.  Both substitutions change nothing when applied again. *)
Theorem file_name_parts_safe (family_name weight_name : str) :
  let safe_family := re_sub UNSAFE_RE (lit "_") family_name in
  let safe_weight := re_sub SPACES_RE (lit "_") weight_name in
  length safe_family = length family_name
  /\ Forall (fun c => keeps c = true /\ (c < 128 -> ascii_safe c = true))
       safe_family
  /\ re_sub UNSAFE_RE (lit "_") safe_family = safe_family
  /\ Forall (fun c => is_space c = false) safe_weight
  /\ (length safe_weight <= length weight_name)%nat
  /\ re_sub SPACES_RE (lit "_") safe_weight = safe_weight.
Proof.
  cbv zeta. rewrite !re_sub_unsafe, !re_sub_spaces.
  split; [apply sanitize_length|].
  split.
  { eapply Forall_impl; [apply sanitize_keeps|]. intros c Hc.
    split; [done|]. intros Hlt. by rewrite <- keeps_ascii. }
  split; [apply sanitize_idem|].
  split; [apply collapse_spaces_no_space|].
  split; [apply collapse_spaces_length|].
  apply collapse_spaces_id, collapse_spaces_no_space.
Qed.

(** ** The index in a file name *)

Lemma nat_of_str_snoc (d : str) c :
  nat_of_str (d ++ [c]) = (10 * nat_of_str d + N.to_nat (c - 48))%nat.
Proof. unfold nat_of_str. by rewrite foldl_app. Qed.

Lemma digit_char_digit (m : nat) :
  (m < 10)%nat ->
  N.to_nat (digit_char m - 48) = m /\ is_ascii_digit (digit_char m) = true.
Proof.
  intros H. unfold digit_char, is_ascii_digit. split; [lia|].
  apply andb_true_iff. split; apply N.leb_le; lia.
Qed.

Lemma digits_fuel_spec (fuel n : nat) (acc : str) :
  (n < fuel)%nat ->
  exists d, digits_fuel fuel n acc = d ++ acc
    /\ nat_of_str d = n /\ d <> []
    /\ Forall (fun c => is_ascii_digit c = true) d.
Proof.
  revert n acc. induction fuel as [|fuel IH]; intros n acc Hn; [lia|].
  cbn [digits_fuel].
  assert (n mod 10 < 10)%nat as Hm by (apply Nat.mod_upper_bound; lia).
  destruct (digit_char_digit _ Hm) as [Hv Hd].
  destruct (n <? 10)%nat eqn:E.
  - apply Nat.ltb_lt in E. exists [digit_char (n mod 10)].
    split; [done|]. split; [|split; [done|by constructor]].
    unfold nat_of_str. cbn [foldl]. rewrite Hv, Nat.mod_small by done. lia.
  - apply Nat.ltb_ge in E.
    assert (n / 10 < fuel)%nat as Hq.
    { assert (n / 10 < n)%nat by (apply Nat.div_lt; lia). lia. }
    destruct (IH (n / 10)%nat (digit_char (n mod 10) :: acc) Hq)
      as (d & -> & Hd1 & Hd2 & Hd3).
    exists (d ++ [digit_char (n mod 10)]).
    split; [by rewrite <- app_assoc|].
    split; [|split; [by destruct d|]].
    + rewrite nat_of_str_snoc, Hd1, Hv.
      symmetry. apply Nat.div_mod_eq.
    + apply Forall_app. split; [done|by constructor].
Qed.

Lemma nat_of_str_zeros (k : nat) (d : str) :
  nat_of_str (replicate k (chr "0") ++ d) = nat_of_str d.
Proof.
  unfold nat_of_str. rewrite foldl_app.
  replace (foldl _ 0%nat (replicate k (chr "0"))) with 0%nat; [done|].
  induction k as [|k IH]; [done|]. cbn [replicate foldl].
  change (10 * 0 + N.to_nat (chr "0" - 48))%nat with 0%nat. done.
Qed.

Lemma format_02d_digits (index : nat) :
  nat_of_str (format_02d index) = index
  /\ Forall (fun c => is_ascii_digit c = true) (format_02d index)
  /\ (2 <= length (format_02d index))%nat.
Proof.
  unfold format_02d, str_of_nat.
  destruct (digits_fuel_spec (S index) index [])
    as (d & -> & Hv & Hne & Hd); [lia|].
  rewrite app_nil_r. split; [by rewrite nat_of_str_zeros|].
  split.
  - apply Forall_app. split; [|done].
    apply Forall_forall. intros c Hc.
    apply elem_of_replicate in Hc as [-> _]. reflexivity.
  - rewrite length_app, length_replicate. lia.
Qed.

(** X16: the index of a file name is written in decimal: it is made of at
    least two ASCII digits and reading it back as a number gives the index,
    whatever its size. *)
Theorem format_02d_round_trip (index : nat) :
  nat_of_str (format_02d index) = index
  /\ Forall (fun c => is_ascii_digit c = true) (format_02d index)
  /\ (2 <= length (format_02d index))%nat.
Proof. apply format_02d_digits. Qed.

Lemma last_occurrence_unique c (a1 t1 a2 t2 : str) :
  a1 ++ c :: t1 = a2 ++ c :: t2 -> c ∉ t1 -> c ∉ t2 -> a1 = a2 /\ t1 = t2.
Proof.
  revert a2. induction a1 as [|x a1 IH]; intros [|y a2]; cbn [app].
  - by intros [= ->].
  - intros [= -> ->] H1 _. destruct H1. set_solver.
  - intros [= -> <-] _ H2. destruct H2. set_solver.
  - intros [= -> E] H1 H2. destruct (IH _ E H1 H2) as [-> ->]. done.
Qed.

Lemma extension_shape (x : str) :
  exists t, str_or (path_suffix x) (lit ".woff2") = chr "." :: t
    /\ (chr "." ∉ t).
Proof.
  destruct (path_suffix_shape_lemma x) as [->|(stem & t & _ & -> & _ & _ & Ht & _)].
  - exists (lit "woff2"). split; [done|]. vm_compute. set_solver.
  - by exists t.
Qed.

Lemma digits_no_hyphen (d : str) :
  Forall (fun c => is_ascii_digit c = true) d -> chr "-" ∉ d.
Proof.
  intros H Hin. rewrite Forall_forall in H. specialize (H _ Hin).
  by vm_compute in H.
Qed.

Lemma digits_no_dot (d : str) :
  Forall (fun c => is_ascii_digit c = true) d -> chr "." ∉ d.
Proof.
  intros H Hin. rewrite Forall_forall in H. specialize (H _ Hin).
  by vm_compute in H.
Qed.

Lemma Ok_inj {A} (a b : A) : Ok a = Ok b -> a = b.
Proof. by intros [= ->]. Qed.

Lemma name_split (a b c d e f g x : str) :
  a ++ b ++ c ++ d ++ e ++ f ++ g ++ x
  = ((a ++ b ++ c ++ d ++ e) ++ f ++ g) ++ x.
Proof. by rewrite <- !app_assoc. Qed.

Lemma download_filename_index (font1 font2 : FontFace) (i j : nat)
    (name : str) :
  download_filename font1 i = Ok name ->
  download_filename font2 j = Ok name ->
  i = j.
Proof.
  unfold download_filename.
  destruct (urlparse_path (url font1)) as [path1|]; [|done].
  destruct (urlparse_path (url font2)) as [path2|]; [|done].
  cbn [mbind result_bind].
  set (x1 := if contains (chr "?") (path_name path1) then _ else _).
  set (x2 := if contains (chr "?") (path_name path2) then _ else _).
  destruct (extension_shape x1) as (t1 & -> & Ht1).
  destruct (extension_shape x2) as (t2 & -> & Ht2).
  destruct (format_02d_digits i) as (Hi & Hdi & _).
  destruct (format_02d_digits j) as (Hj & Hdj & _).
  intros H1 H2. rewrite <- H2 in H1. apply Ok_inj in H1 as E.
  rewrite !name_split in E.
  apply last_occurrence_unique in E as [E _]; [|done..].
  change (lit "-" ++ ?f) with (chr "-" :: f) in E.
  apply last_occurrence_unique in E as [_ E];
    [|by apply digits_no_hyphen..].
  by rewrite <- Hi, <- Hj, E.
Qed.

(** X17: two downloads that get the same file name have the same index:
    within a run, where every font has its own index, no file is written
    over another, whatever the families, weights, styles and URLs. *)
Theorem download_filename_index_injective (font1 font2 : FontFace)
    (i j : nat) (name : str) :
  download_filename font1 i = Ok name ->
  download_filename font2 j = Ok name ->
  i = j.
Proof. apply download_filename_index. Qed.

(** ** extract_site_name *)

Lemma split_app_sep (sep : char) (x r : str) :
  contains sep x = false -> split sep (x ++ sep :: r) = x :: split sep r.
Proof.
  induction x as [|c x IH]; cbn [app split contains existsb].
  - intros _. by rewrite N.eqb_refl.
  - intros [Hc Hx]%orb_false_iff. rewrite (N.eqb_sym c sep), Hc.
    by rewrite (IH Hx).
Qed.

Lemma split_join (sep : char) (l : list str) :
  l <> [] -> Forall (fun x => contains sep x = false) l ->
  split sep (urllib.join [sep] l) = l.
Proof.
  intros Hne H. induction H as [|x l Hx Hl IH]; [done|].
  destruct l as [|y l]; cbn [urllib.join].
  - by apply split_no_sep.
  - cbn [app]. rewrite split_app_sep by done. f_equal. by apply IH.
Qed.

Lemma join_split (sep : char) (s : str) :
  urllib.join [sep] (split sep s) = s.
Proof.
  induction s as [|c s IH]; [done|]. cbn [split].
  destruct (c =? sep) eqn:E.
  - apply N.eqb_eq in E as ->.
    destruct (split sep s) as [|p ps] eqn:S; [by destruct (split_nonempty sep s)|].
    change (urllib.join [sep] ([] :: p :: ps))
      with (sep :: urllib.join [sep] (p :: ps)).
    by rewrite IH.
  - destruct (split sep s) as [|p ps] eqn:S; [by destruct (split_nonempty sep s)|].
    rewrite <- IH. by destruct ps.
Qed.

Section SiteNameLemmas.
Variable netloc_of : str -> result str.

(** X18: the site name is free of dots.  When the host, in lower case and
    without a leading www., is made of at least two labels joined by dots,
    the name is the label before the last (economist for
    www.economist.com, co for example.co.uk); a host without a dot is its
    own name. *)
Theorem extract_site_name_label (page netloc : str) :
  netloc_of page = Ok netloc ->
  let host := lower netloc in
  let host' := if startswith (lit "www.") host then drop 4 host else host in
  exists name,
    extract_site_name netloc_of page = Ok name
    /\ (chr "." ∉ name)
    /\ (forall labels a b,
          host' = urllib.join (lit ".") (labels ++ [a; b]) ->
          Forall (fun x => chr "." ∉ x) (labels ++ [a; b]) ->
          name = a)
    /\ (chr "." ∉ host' -> name = host').
Proof.
  intros Hn. cbv zeta. unfold extract_site_name. rewrite Hn.
  cbn [mbind result_bind].
  set (host' := if startswith (lit "www.") (lower netloc) then _ else _).
  pose proof (join_split (chr ".") host') as Hjs.
  case_bool_decide as Hlen.
  - eexists. split; [done|].
    destruct (split (chr ".") host' !! (length (split (chr ".") host') - 2)%nat)
      as [x|] eqn:Hx;
      [|apply lookup_ge_None in Hx; lia].
    cbn [default from_option]. unfold id.
    split; [|split].
    + apply list_elem_of_lookup_2, split_elem in Hx as [Hx _].
      by apply contains_false.
    + intros labels a b Eh Hl. rewrite Eh in Hx.
      rewrite split_join in Hx.
      * rewrite length_app in Hx. cbn [length] in Hx.
        rewrite lookup_app_r in Hx by lia.
        replace (length labels + 2 - 2 - length labels)%nat with 0%nat in Hx by lia.
        by injection Hx as ->.
      * by destruct labels.
      * eapply Forall_impl; [apply Hl|]. intros x'. apply contains_false.
    + intros Hd. apply contains_false in Hd.
      rewrite (split_no_sep _ _ Hd) in Hlen. cbn [length] in Hlen. lia.
  - exists host'. split; [done|].
    assert (split (chr ".") host' = [host']) as Hs.
    { destruct (split (chr ".") host') as [|p [|q ps]] eqn:S.
      - by destruct (split_nonempty (chr ".") host').
      - rewrite <- Hjs. done.
      - cbn [length] in Hlen. lia. }
    split; [|split; [|done]].
    + apply contains_false.
      assert (host' ∈ split (chr ".") host') as Hin by (rewrite Hs; set_solver).
      by apply split_elem in Hin as [Hin _].
    + intros labels a b Eh Hl. rewrite Eh in Hs.
      rewrite split_join in Hs.
      * apply (f_equal length) in Hs. rewrite length_app in Hs.
        cbn [length] in Hs. lia.
      * by destruct labels.
      * eapply Forall_impl; [apply Hl|]. intros x'. apply contains_false.
Qed.

End SiteNameLemmas.

(** ** extract_css_urls and extract_inline_styles *)

Lemma extract_inline_styles_truthy (strings : list (option str)) :
  extract_inline_styles strings = omap truthy strings.
Proof. done. Qed.

Lemma truthy_cons (x : option str) (rest : list (option str)) :
  omap truthy (x :: rest)
  = match x with
    | Some (c :: h) => (c :: h) :: omap truthy rest
    | _ => omap truthy rest
    end.
Proof. by destruct x as [[|c h]|]. Qed.

Lemma append_hrefs_spec (hrefs : list (option str)) (base_url : str)
    (urls r : list str) :
  append_hrefs hrefs base_url urls = Ok r ->
  exists us, r = urls ++ us
    /\ Forall2 (fun h u => urljoin base_url h = Ok u) (omap truthy hrefs) us.
Proof.
  revert urls. induction hrefs as [|x rest IH]; intros urls; cbn [append_hrefs].
  - intros [= <-]. exists []. by rewrite app_nil_r.
  - rewrite truthy_cons. destruct x as [[|c h]|].
    + apply IH.
    + destruct (urljoin base_url (c :: h)) as [u|e] eqn:E;
        cbn [mbind result_bind]; [|done].
      intros (us & -> & H)%IH. exists (u :: us). split.
      * by rewrite <- app_assoc.
      * by constructor.
    + apply IH.
Qed.

Lemma append_new_hrefs_spec (hrefs : list (option str)) (base_url : str)
    (urls r : list str) :
  append_new_hrefs hrefs base_url urls = Ok r ->
  exists extra, r = urls ++ extra
    /\ NoDup extra
    /\ (forall u, u ∈ extra -> u ∉ urls)
    /\ (forall u, u ∈ extra ->
          exists h, h ∈ omap truthy hrefs /\ urljoin base_url h = Ok u)
    /\ (forall h, h ∈ omap truthy hrefs ->
          exists u, urljoin base_url h = Ok u /\ u ∈ r).
Proof.
  revert urls. induction hrefs as [|x rest IH]; intros urls;
    cbn [append_new_hrefs].
  - intros [= <-]. exists []. rewrite app_nil_r.
    split; [done|]. split; [constructor|].
    split; [by intros u ?%elem_of_nil|].
    split; [by intros u ?%elem_of_nil|]. by intros h ?%elem_of_nil.
  - rewrite truthy_cons. destruct x as [[|c h]|]; [apply IH| |apply IH].
    destruct (urljoin base_url (c :: h)) as [u|e] eqn:E;
      cbn [mbind result_bind]; [|done].
    case_bool_decide as Hu; cbn [mbind result_bind].
    + intros (extra & -> & Hnd & Hout & Hfrom & Hall)%IH.
      exists (u :: extra). split; [by rewrite <- app_assoc|].
      split.
      { constructor; [|done]. intros Hin. apply Hout in Hin. set_solver. }
      split.
      { intros u' [->|Hin]%elem_of_cons; [done|].
        apply Hout in Hin. set_solver. }
      split.
      { intros u' [->|Hin]%elem_of_cons.
        - exists (c :: h). split; [left|done].
        - destruct (Hfrom _ Hin) as (h' & ? & ?). exists h'.
          split; [by right|done]. }
      intros h' [->|Hin]%elem_of_cons.
      * exists u. split; [done|]. set_solver.
      * by apply Hall.
    + intros (extra & -> & Hnd & Hout & Hfrom & Hall)%IH.
      exists extra. split; [done|]. split; [done|]. split; [done|].
      split.
      { intros u' Hin. destruct (Hfrom _ Hin) as (h' & ? & ?). exists h'.
        split; [by right|done]. }
      intros h' [->|Hin]%elem_of_cons.
      * exists u. split; [done|].
        apply elem_of_app. by left.
      * by apply Hall.
Qed.

(** X19: the style sheet addresses of a page.  First every non-empty href
    of the rel=stylesheet links, resolved against the base, in the order of
    the page and with its repetitions; then the resolved hrefs of the
    type=text/css links that are not listed yet, each once.  Every
    non-empty href of a type=text/css link is in the list. *)
Theorem extract_css_urls_shape (rel_hrefs type_hrefs : list (option str))
    (base_url : str) (urls : list str) :
  extract_css_urls rel_hrefs type_hrefs base_url = Ok urls ->
  exists rel_urls extra,
    urls = rel_urls ++ extra
    /\ Forall2 (fun h u => urljoin base_url h = Ok u)
         (omap truthy rel_hrefs) rel_urls
    /\ NoDup extra
    /\ (forall u, u ∈ extra -> u ∉ rel_urls)
    /\ (forall u, u ∈ extra ->
          exists h, h ∈ omap truthy type_hrefs /\ urljoin base_url h = Ok u)
    /\ (forall h, h ∈ omap truthy type_hrefs ->
          exists u, urljoin base_url h = Ok u /\ u ∈ urls).
Proof.
  unfold extract_css_urls.
  destruct (append_hrefs rel_hrefs base_url []) as [rel_urls|e] eqn:E;
    cbn [mbind result_bind]; [|done].
  apply append_hrefs_spec in E as (us & -> & Hrel). cbn [app].
  intros (extra & -> & H)%append_new_hrefs_spec.
  by exists us, extra.
Qed.

Lemma append_hrefs_raises (hrefs : list (option str)) (base_url : str)
    (urls : list str) :
  match append_hrefs hrefs base_url urls with
  | Ok _ => Forall (fun h => exists u, urljoin base_url h = Ok u)
              (omap truthy hrefs)
  | Raise e => exists h, h ∈ omap truthy hrefs /\ urljoin base_url h = Raise e
  end.
Proof.
  revert urls. induction hrefs as [|x rest IH]; intros urls;
    cbn [append_hrefs]; [by constructor|].
  rewrite truthy_cons. destruct x as [[|c h]|]; [apply IH| |apply IH].
  destruct (urljoin base_url (c :: h)) as [u|e] eqn:E; cbn [mbind result_bind].
  - specialize (IH (urls ++ [u])).
    destruct (append_hrefs rest base_url (urls ++ [u])).
    + constructor; [by exists u|done].
    + destruct IH as (h' & ? & ?). exists h'. split; [by right|done].
  - exists (c :: h). split; [left|done].
Qed.

Lemma append_new_hrefs_raises (hrefs : list (option str)) (base_url : str)
    (urls : list str) :
  match append_new_hrefs hrefs base_url urls with
  | Ok _ => Forall (fun h => exists u, urljoin base_url h = Ok u)
              (omap truthy hrefs)
  | Raise e => exists h, h ∈ omap truthy hrefs /\ urljoin base_url h = Raise e
  end.
Proof.
  revert urls. induction hrefs as [|x rest IH]; intros urls;
    cbn [append_new_hrefs]; [by constructor|].
  rewrite truthy_cons. destruct x as [[|c h]|]; [apply IH| |apply IH].
  destruct (urljoin base_url (c :: h)) as [u|e] eqn:E; cbn [mbind result_bind].
  - case_bool_decide; cbn [mbind result_bind].
    + specialize (IH (urls ++ [u])).
      destruct (append_new_hrefs rest base_url (urls ++ [u])).
      * constructor; [by exists u|done].
      * destruct IH as (h' & ? & ?). exists h'. split; [by right|done].
    + specialize (IH urls).
      destruct (append_new_hrefs rest base_url urls).
      * constructor; [by exists u|done].
      * destruct IH as (h' & ? & ?). exists h'. split; [by right|done].
  - exists (c :: h). split; [left|done].
Qed.

(** X20: the list of style sheet addresses is returned exactly when every
    non-empty href of both groups of links can be resolved; an exception
    raised is the one [urljoin] raises on one of them. *)
Theorem extract_css_urls_raises (rel_hrefs type_hrefs : list (option str))
    (base_url : str) :
  ((exists urls, extract_css_urls rel_hrefs type_hrefs base_url = Ok urls)
   <-> Forall (fun h => exists u, urljoin base_url h = Ok u)
         (omap truthy (rel_hrefs ++ type_hrefs)))
  /\ (forall e, extract_css_urls rel_hrefs type_hrefs base_url = Raise e ->
        exists h, h ∈ omap truthy (rel_hrefs ++ type_hrefs)
                  /\ urljoin base_url h = Raise e).
Proof.
  unfold extract_css_urls. rewrite omap_app.
  pose proof (append_hrefs_raises rel_hrefs base_url []) as H1.
  destruct (append_hrefs rel_hrefs base_url []) as [us|e1];
    cbn [mbind result_bind].
  - pose proof (append_new_hrefs_raises type_hrefs base_url us) as H2.
    destruct (append_new_hrefs type_hrefs base_url us) as [r|e2].
    + split; [|done]. split; [|by exists r].
      intros _. by apply Forall_app.
    + destruct H2 as (h & Hin & Hr). split.
      * split; [by intros [? ?]|]. intros [_ Ha]%Forall_app.
        rewrite Forall_forall in Ha. destruct (Ha _ Hin) as [u Hu]. congruence.
      * intros e [= <-]. exists h. split; [|done]. apply elem_of_app. by right.
  - destruct H1 as (h & Hin & Hr). split.
    + split; [by intros [? ?]|]. intros [Ha _]%Forall_app.
      rewrite Forall_forall in Ha. destruct (Ha _ Hin) as [u Hu]. congruence.
    + intros e [= <-]. exists h. split; [|done]. apply elem_of_app. by left.
Qed.

(** ** collect_fonts_from_page *)

Section CollectorLemmas.
Context {W : Type}.
Variable fetch : str -> W -> result str * W.
Variable style_strings : str -> list (option str).
Variable rel_hrefs : str -> list (option str).
Variable type_hrefs : str -> list (option str).

Lemma follow_imports_grows (imports : list str) (css_url : str)
    (st st' : collector W) (o : option exn) :
  follow_imports fetch imports css_url st = (st', o) ->
  all_fonts st `prefix_of` all_fonts st'.
Proof.
  revert st. induction imports as [|target rest IH]; intros st;
    cbn [follow_imports].
  - by intros [= <- <-].
  - destruct (urljoin css_url target) as [import_url|e]; [|by intros [= <- <-]].
    cbv zeta.
    destruct (fetch import_url (world (log st (FollowingImport import_url))))
      as [[import_css|e] w].
    + destruct (parse_css_for_fonts import_css import_url) as [fonts|e].
      * intros H%IH. cbn in H. etrans; [|apply H]. by apply prefix_app_r.
      * intros H%IH. apply H.
    + intros H%IH. apply H.
Qed.

Lemma collect_stylesheet_grows (css_url : str) (st : collector W) :
  all_fonts st `prefix_of` all_fonts (collect_stylesheet fetch css_url st).
Proof.
  unfold collect_stylesheet. cbv zeta.
  destruct (fetch css_url (world (log st (FetchingCSS css_url))))
    as [[css_text|e] w]; [|done].
  destruct (parse_css_for_fonts css_text css_url) as [fonts|e]; [|done].
  destruct (follow_imports _ _ _ _) as [st' o] eqn:E.
  apply follow_imports_grows in E. cbn in E.
  assert (all_fonts st `prefix_of` all_fonts st')
    by (etrans; [|apply E]; by apply prefix_app_r).
  by destruct o.
Qed.

Lemma collect_stylesheets_grows (css_urls : list str) (st : collector W) :
  all_fonts st `prefix_of` all_fonts (collect_stylesheets fetch css_urls st).
Proof.
  revert st. induction css_urls as [|u rest IH]; intros st; [done|].
  cbn [collect_stylesheets foldl]. etrans; [apply collect_stylesheet_grows|].
  apply IH.
Qed.

(** X21: a style sheet can only add faces.  What was collected before it
    stays, in place, whatever happens with the style sheet and with the
    ones after it; a style sheet that cannot be fetched or scanned adds
    nothing, and one that is scanned adds its faces right after the ones
    collected before, ahead of the faces of its imports. *)
Theorem collect_stylesheet_only_adds (css_url : str) (st : collector W) :
  (forall css_urls,
     all_fonts st
       `prefix_of` all_fonts (collect_stylesheets fetch (css_url :: css_urls) st))
  /\ (forall e w,
        fetch css_url (world st) = (Raise e, w) ->
        all_fonts (collect_stylesheet fetch css_url st) = all_fonts st
        /\ world (collect_stylesheet fetch css_url st) = w)
  /\ (forall css_text w e,
        fetch css_url (world st) = (Ok css_text, w) ->
        parse_css_for_fonts css_text css_url = Raise e ->
        all_fonts (collect_stylesheet fetch css_url st) = all_fonts st)
  /\ (forall css_text w fonts,
        fetch css_url (world st) = (Ok css_text, w) ->
        parse_css_for_fonts css_text css_url = Ok fonts ->
        (all_fonts st ++ fonts)
          `prefix_of` all_fonts (collect_stylesheet fetch css_url st)).
Proof.
  split; [intros css_urls; apply collect_stylesheets_grows|].
  unfold collect_stylesheet. cbv zeta.
  change (world (log st (FetchingCSS css_url))) with (world st).
  split; [|split].
  - intros e w ->. done.
  - intros css_text w e -> ->. done.
  - intros css_text w fonts -> ->.
    destruct (follow_imports _ _ _ _) as [st' o] eqn:E.
    apply follow_imports_grows in E. cbn in E. by destruct o.
Qed.

Lemma collect_inline_spec (styles : list str) (i : nat) (page : str)
    (st : collector W) :
  match collect_inline styles i page st with
  | (st', None) =>
      exists fss,
        Forall2 (fun style fs => parse_css_for_fonts style page = Ok fs)
          styles fss
        /\ all_fonts st' = all_fonts st ++ concat fss
        /\ world st' = world st
  | (st', Some e) =>
      exists style, style ∈ styles /\ parse_css_for_fonts style page = Raise e
  end.
Proof.
  revert i st. induction styles as [|style rest IH]; intros i st;
    cbn [collect_inline].
  - exists []. split; [constructor|]. by rewrite app_nil_r.
  - cbv zeta. destruct (parse_css_for_fonts style page) as [fonts|e] eqn:E.
    + specialize (IH (S i) (extend (log st (ParsingInline (i + 1))) fonts)).
      destruct (collect_inline rest _ _ _) as [st' [e|]].
      * destruct IH as (s & ? & ?). exists s. split; [by right|done].
      * destruct IH as (fss & HF & Hall & Hw). exists (fonts :: fss).
        split; [by constructor|]. split; [|done].
        rewrite Hall. cbn. by rewrite <- app_assoc.
    + exists style. split; [left|done].
Qed.

(** X22: when the collection of a page returns, the page was fetched and
    every inline style block was scanned without an exception; the faces of
    the inline blocks come first in the result, block after block, and the
    faces of the external style sheets follow.  With no style sheet link the
    result is the faces of the inline blocks. *)
Theorem collect_fonts_inline_first (page : str) (w : W) (st : collector W)
    (fonts : list FontFace) :
  collect_fonts_from_page fetch style_strings rel_hrefs type_hrefs page w
  = (st, Ok fonts) ->
  exists html w' fss css_urls,
    fetch page w = (Ok html, w')
    /\ Forall2 (fun style fs => parse_css_for_fonts style page = Ok fs)
         (extract_inline_styles (style_strings html)) fss
    /\ extract_css_urls (rel_hrefs html) (type_hrefs html) page = Ok css_urls
    /\ concat fss `prefix_of` fonts
    /\ (css_urls = [] -> fonts = concat fss)
    /\ fonts = all_fonts st.
Proof.
  unfold collect_fonts_from_page. cbv zeta.
  change (world (log _ (FetchingPage page))) with w.
  destruct (fetch page w) as [[html|e] w']; [|done].
  pose proof (collect_inline_spec (extract_inline_styles (style_strings html))
                0 page (set_world (log (mkCollector w [] []) (FetchingPage page)) w'))
    as Hi.
  destruct (collect_inline _ _ _ _) as [st1 [e|]]; [done|].
  destruct Hi as (fss & HF & Hall & Hw). cbn in Hall.
  destruct (extract_css_urls _ _ _) as [css_urls|e] eqn:Ec; [|done].
  intros [= <- <-]. exists html, w', fss, css_urls.
  split; [done|]. split; [done|]. split; [done|].
  split; [|split; [|done]].
  - rewrite <- Hall. apply (collect_stylesheets_grows css_urls (log st1 _)).
  - intros ->. by cbn.
Qed.

(** X23: what the collection of a page raises.  A failed fetch of the page
    and an exception of the scan of an inline style block are not caught:
    the call raises.  Whatever it raises comes from the fetch of the page,
    from the scan of an inline block or from resolving the href of a style
    sheet link, never from fetching or scanning an external style sheet. *)
Theorem collect_fonts_raises (page : str) (w : W) :
  let r := (collect_fonts_from_page fetch style_strings rel_hrefs type_hrefs
              page w).2 in
  (forall e w', fetch page w = (Raise e, w') -> r = Raise e)
  /\ (forall html w' style e,
        fetch page w = (Ok html, w') ->
        style ∈ extract_inline_styles (style_strings html) ->
        parse_css_for_fonts style page = Raise e ->
        exists e', r = Raise e')
  /\ (forall e, r = Raise e ->
        (exists w', fetch page w = (Raise e, w'))
        \/ exists html w',
             fetch page w = (Ok html, w')
             /\ ((exists style,
                    style ∈ extract_inline_styles (style_strings html)
                    /\ parse_css_for_fonts style page = Raise e)
                 \/ extract_css_urls (rel_hrefs html) (type_hrefs html) page
                    = Raise e)).
Proof.
  cbv zeta. unfold collect_fonts_from_page. cbv zeta.
  change (world (log _ (FetchingPage page))) with w.
  destruct (fetch page w) as [[html|e0] w0].
  - pose proof (collect_inline_spec (extract_inline_styles (style_strings html))
                  0 page (set_world (log (mkCollector w [] []) (FetchingPage page)) w0))
      as Hi.
    destruct (collect_inline _ _ _ _) as [st1 [e1|]].
    + split; [done|]. split; [by exists e1|].
      intros e [= <-]. right. exists html, w0. split; [done|]. by left.
    + destruct Hi as (fss & HF & _). split; [done|]. split.
      * intros html' w' style e [= <- <-] Hin Hr.
        apply list_elem_of_lookup in Hin as [k Hk].
        destruct (Forall2_lookup_l _ _ _ _ _ HF Hk) as (fs & _ & Hok).
        congruence.
      * destruct (extract_css_urls _ _ _) as [css_urls|e1] eqn:Ec; [done|].
        intros e [= <-]. right. exists html, w0. split; [done|]. by right.
  - split; [by intros e w' [= <- <-]|]. split; [done|].
    intros e [= <-]. left. by exists w0.
Qed.

End CollectorLemmas.

(** ** download_font and the download loop of main *)

Section DownloadLemmas.
Context {W B P : Type}.
Variable get : str -> W -> result B * W.
Variable path_join : P -> str -> P.
Variable write_bytes : P -> B -> W -> result unit * W.
Variable name_of : P -> str.

Lemma download_font_cases (f : FontFace) (output_dir : P) (index : nat)
    (w : W) :
  (exists name content w1 w2,
     get (url f) w = (Ok content, w1)
     /\ download_filename f index = Ok name
     /\ write_bytes (path_join output_dir name) content w1 = (Ok tt, w2)
     /\ download_font get path_join write_bytes f output_dir index w
        = (mkDownloadResult f true (Some (path_join output_dir name)) None, w2))
  \/ (exists e w',
        download_font get path_join write_bytes f output_dir index w
        = (mkDownloadResult f false None (Some e), w')).
Proof.
  unfold download_font.
  destruct (get (url f) w) as [[content|e] w1]; [|right; by exists e, w1].
  destruct (download_filename f index) as [name|e]; [|right; by exists e, w1].
  cbv zeta.
  destruct (write_bytes (path_join output_dir name) content w1)
    as [[[]|e] w2] eqn:Ew; [|right; by exists e, w2].
  left. by exists name, content, w1, w2.
Qed.

(** X24: the result of one download.  It is about the font asked for, and
    it is either a success with the path written and no error, or a failure
    with an error and no path.  A success means the font was fetched, its
    file name could be built and the bytes were written to the output
    directory under that name; when the fetch fails nothing is written. *)
Theorem download_font_result (f : FontFace) (output_dir : P) (index : nat)
    (w : W) :
  let r := (download_font get path_join write_bytes f output_dir index w).1 in
  font r = f
  /\ ((success r = true /\ error r = None
       /\ exists name content w1,
            get (url f) w = (Ok content, w1)
            /\ download_filename f index = Ok name
            /\ path r = Some (path_join output_dir name)
            /\ (write_bytes (path_join output_dir name) content w1).1 = Ok tt)
      \/ (success r = false /\ path r = None /\ is_Some (error r)))
  /\ (forall e w1,
        get (url f) w = (Raise e, w1) ->
        download_font get path_join write_bytes f output_dir index w
        = (mkDownloadResult f false None (Some e), w1)).
Proof.
  cbv zeta. split; [|split].
  - destruct (download_font_cases f output_dir index w)
      as [(name & content & w1 & w2 & _ & _ & _ & ->)|(e & w' & ->)]; done.
  - destruct (download_font_cases f output_dir index w)
      as [(name & content & w1 & w2 & Hg & Hn & Hw & ->)|(e & w' & ->)].
    + left. split; [done|]. split; [done|]. exists name, content, w1.
      by rewrite Hw.
    + right. by split; [|split; [|eexists]].
  - intros e w1 Hg. unfold download_font. by rewrite Hg.
Qed.

Lemma download_loop_spec (fonts : list FontFace) (i : nat) (output_dir : P)
    (st : downloads W P) :
  let st' := download_loop get path_join write_bytes name_of fonts i
               output_dir st in
  exists names evs,
    downloaded_paths st'
    = downloaded_paths st ++ (path_join output_dir <$> names)
    /\ success_count st' = (success_count st + length names)%nat
    /\ console st' = console st ++ evs
    /\ length evs = length fonts
    /\ (length names <= length fonts)%nat
    /\ (forallb printed_ok evs = true <-> length names = length fonts)
    /\ Forall (fun name => exists k f,
                 fonts !! k = Some f
                 /\ download_filename f (i + k) = Ok name) names.
Proof.
  cbv zeta. revert i st. induction fonts as [|f rest IH]; intros i st.
  - exists [], []. cbn. rewrite !app_nil_r. repeat split; try done; lia.
  - cbn [download_loop].
    destruct (download_font_cases f output_dir i (dl_world st))
      as [(name & content & w1 & w2 & _ & Hn & _ & ->)|(e & w' & ->)];
      cbn [success path error];
      match goal with
      | |- context [download_loop _ _ _ _ rest (S i) output_dir ?s] =>
          destruct (IH (S i) s)
            as (names & evs & -> & -> & -> & Hl & Hle & Hok & HF)
      end; cbn [downloaded_paths success_count console].
    + exists (name :: names), (PrintedOK (name_of (path_join output_dir name)) :: evs).
      rewrite <- !app_assoc. cbn [fmap list_fmap app length forallb printed_ok andb].
      split; [done|]. split; [lia|]. split; [done|]. split; [lia|].
      split; [lia|]. split; [rewrite Hok; lia|].
      constructor.
      * exists 0%nat, f. by rewrite Nat.add_0_r.
      * eapply Forall_impl; [apply HF|]. intros n (k & g & Hk & Hg).
        exists (S k), g. split; [done|]. by rewrite Nat.add_succ_r.
    + exists names, (PrintedFAILED (family f) (Some e) :: evs).
      rewrite <- !app_assoc. cbn [app length forallb printed_ok andb].
      split; [done|]. split; [done|]. split; [done|]. split; [lia|].
      split; [lia|]. split; [split; [done|lia]|].
      eapply Forall_impl; [apply HF|]. intros n (k & g & Hk & Hg).
      exists (S k), g. split; [done|]. by rewrite Nat.add_succ_r.
Qed.

Lemma names_of_indices_NoDup (fonts : list FontFace) (i : nat)
    (output_dir : P) (st : downloads W P) :
  let st' := download_loop get path_join write_bytes name_of fonts i
               output_dir st in
  exists names,
    downloaded_paths st'
    = downloaded_paths st ++ (path_join output_dir <$> names)
    /\ NoDup names
    /\ Forall (fun name => exists k f,
                 fonts !! k = Some f
                 /\ download_filename f (i + k) = Ok name) names.
Proof.
  cbv zeta. revert i st. induction fonts as [|f rest IH]; intros i st.
  - exists []. cbn. rewrite app_nil_r. repeat split; constructor.
  - cbn [download_loop].
    destruct (download_font_cases f output_dir i (dl_world st))
      as [(name & content & w1 & w2 & _ & Hn & _ & ->)|(e & w' & ->)];
      cbn [success path error];
      match goal with
      | |- context [download_loop _ _ _ _ rest (S i) output_dir ?s] =>
          destruct (IH (S i) s) as (names & -> & Hnd & HF)
      end; cbn [downloaded_paths].
    + exists (name :: names). rewrite <- !app_assoc. cbn [fmap list_fmap app].
      split; [done|]. split.
      * constructor; [|done]. intros Hin. rewrite Forall_forall in HF.
        destruct (HF _ Hin) as (k & g & _ & Hg).
        pose proof (download_filename_index _ _ _ _ _ Hn Hg). lia.
      * constructor.
        -- exists 0%nat, f. by rewrite Nat.add_0_r.
        -- eapply Forall_impl; [apply HF|]. intros n (k & g & Hk & Hg).
           exists (S k), g. split; [done|]. by rewrite Nat.add_succ_r.
    + exists names. split; [done|]. split; [done|].
      eapply Forall_impl; [apply HF|]. intros n (k & g & Hk & Hg).
      exists (S k), g. split; [done|]. by rewrite Nat.add_succ_r.
Qed.

(** X25: the download loop of main.  The count of successes is the number
    of paths kept, at most the number of fonts; the console gets one line
    for every font; the exit status is 0 exactly when every line reports a
    file written. *)
Theorem download_all_counts (fonts : list FontFace) (output_dir : P) (w : W) :
  let st := download_all get path_join write_bytes name_of fonts output_dir w in
  success_count st = length (downloaded_paths st)
  /\ (success_count st <= length fonts)%nat
  /\ length (console st) = length fonts
  /\ (exit_status (success_count st) (length fonts) = 0%nat
      <-> forallb printed_ok (console st) = true).
Proof.
  cbv zeta. unfold download_all.
  destruct (download_loop_spec fonts 0 output_dir (mkDownloads w 0 [] []))
    as (names & evs & -> & -> & -> & Hl & Hle & Hok & _).
  cbn [downloaded_paths success_count console app].
  rewrite length_fmap, Nat.add_0_l. split; [done|]. split; [done|].
  split; [done|]. rewrite Hok. unfold exit_status. by case_bool_decide.
Qed.

(** X26: the files of a run.  Every path kept is the output directory
    joined with the file name built for one of the fonts and its position
    in the list, and the file names of the paths kept are pairwise
    different: no download of a run is written over another. *)
Theorem download_all_distinct_names (fonts : list FontFace) (output_dir : P)
    (w : W) :
  exists names,
    downloaded_paths
      (download_all get path_join write_bytes name_of fonts output_dir w)
    = path_join output_dir <$> names
    /\ NoDup names
    /\ Forall (fun name => exists k f,
                 fonts !! k = Some f /\ download_filename f k = Ok name) names.
Proof.
  unfold download_all.
  destruct (names_of_indices_NoDup fonts 0 output_dir (mkDownloads w 0 [] []))
    as (names & -> & Hnd & HF).
  by exists names.
Qed.

End DownloadLemmas.

(** ** The @import rules of a style sheet *)

Lemma occurs_startswith (w s : str) :
  startswith w s = true -> occurs w s = true.
Proof. intros H. destruct s; cbn [occurs]; by rewrite H. Qed.

Lemma occurs_suffix (w s' s : str) :
  s' `suffix_of` s -> occurs w s' = true -> occurs w s = true.
Proof.
  intros [a ->] H. induction a as [|c a IH]; [done|].
  cbn [app occurs]. rewrite IH. apply orb_true_r.
Qed.

Lemma occurs_tail (w : str) c (s : str) :
  occurs w (c :: s) = false -> occurs w s = false.
Proof. cbn [occurs]. by intros [_ H]%orb_false_iff. Qed.

Lemma match_at_import_occurs (s : str) m :
  match_at IMPORT_RE s = Some m ->
  startswith (lit "@import") s = true /\ occurs (lit "url(") s = true.
Proof.
  unfold match_at, IMPORT_RE. rewrite m_seq_plit.
  destruct (startswith (lit "@import") s); [|done]. intros H. split; [done|].
  cbn [app m_seq] in H.
  apply m_item_suffix in H as (s' & cap' & Hs' & H).
  rewrite m_seq_plit in H.
  destruct (startswith (lit "url(") s') eqn:E; [|done].
  apply (occurs_suffix _ s'); [|by apply occurs_startswith].
  etrans; [apply Hs'|]. exists (take (length (lit "@import")) s).
  by rewrite take_drop.
Qed.

Lemma finditer_import_none (s : str) (k : nat) :
  occurs (lit "@import") s = false \/ occurs (lit "url(") s = false ->
  finditer_from k IMPORT_RE s = [].
Proof.
  revert k. induction s as [|c s IH]; intros k H.
  - destruct k; [|done]. cbn [finditer_from].
    destruct (match_at IMPORT_RE []) eqn:E; [|done].
    apply match_at_import_occurs in E as [E1%occurs_startswith E2].
    destruct H; congruence.
  - assert (occurs (lit "@import") s = false \/ occurs (lit "url(") s = false)
      as H' by (destruct H as [H|H]; [left|right]; by apply occurs_tail in H).
    destruct k; cbn [finditer_from]; [|by apply IH].
    destruct (match_at IMPORT_RE (c :: s)) eqn:E; [|by apply IH].
    apply match_at_import_occurs in E as [E1%occurs_startswith E2].
    destruct H; congruence.
Qed.

(** X27: a style sheet whose text has no @import, or no url( at all (an
    import written with a bare string), follows no import.  When it is
    fetched and scanned, the collection makes that one fetch, adds the
    faces of the scan and logs the fetch alone. *)
Theorem collect_stylesheet_without_import {W : Type}
    (fetch : str -> W -> result str * W) (css_url css_text : str)
    (st : collector W) (w : W) (fonts : list FontFace) :
  fetch css_url (world st) = (Ok css_text, w) ->
  occurs (lit "@import") css_text = false
  \/ occurs (lit "url(") css_text = false ->
  parse_css_for_fonts css_text css_url = Ok fonts ->
  collect_stylesheet fetch css_url st
  = mkCollector w (all_fonts st ++ fonts) (logged st ++ [FetchingCSS css_url]).
Proof.
  intros Hf Hi Hp. unfold collect_stylesheet. cbv zeta.
  change (world (log st (FetchingCSS css_url))) with (world st).
  rewrite Hf, Hp. unfold finditer. by rewrite finditer_import_none.
Qed.

End Properties.

(** * The scenarios run on the reference runtime *)

Module Reference.

Lemma urlsplit_scheme_https (rest : str) r :
  urllib.urlsplit (lit "https://" ++ rest) [] = Ok r ->
  urllib.sp_scheme r = lit "https".
Proof.
  unfold urllib.urlsplit.
  change (lstrip_by _ (lit "https://" ++ rest)) with (lit "https://" ++ rest).
  cbv zeta.
  match goal with |- context [List.filter ?f (lit "https://" ++ rest)] =>
    change (List.filter f (lit "https://" ++ rest))
      with (lit "https://" ++ List.filter f rest);
    generalize (List.filter f rest) end.
  intros u.
  lazy -[urllib.span_until urllib.split_once contains].
  destruct (urllib.span_until _ u) as [netloc rest0].
  match goal with |- context [if ?c then Raise ValueError else _] =>
    destruct c end; [done|].
  destruct (urllib.split_once 35 rest0) as [[a b]|];
    match goal with |- context [urllib.split_once 63 ?x] =>
      destruct (urllib.split_once 63 x) as [[a' b']|] end;
    by intros [= <-].
Qed.

Lemma urlsplit_scheme_http (rest : str) r :
  urllib.urlsplit (lit "http://" ++ rest) [] = Ok r ->
  urllib.sp_scheme r = lit "http".
Proof.
  unfold urllib.urlsplit.
  change (lstrip_by _ (lit "http://" ++ rest)) with (lit "http://" ++ rest).
  cbv zeta.
  match goal with |- context [List.filter ?f (lit "http://" ++ rest)] =>
    change (List.filter f (lit "http://" ++ rest))
      with (lit "http://" ++ List.filter f rest);
    generalize (List.filter f rest) end.
  intros u.
  lazy -[urllib.span_until urllib.split_once contains].
  destruct (urllib.span_until _ u) as [netloc rest0].
  match goal with |- context [if ?c then Raise ValueError else _] =>
    destruct c end; [done|].
  destruct (urllib.split_once 35 rest0) as [[a b]|];
    match goal with |- context [urllib.split_once 63 ?x] =>
      destruct (urllib.split_once 63 x) as [[a' b']|] end;
    by intros [= <-].
Qed.

(** The scheme [urlparse] reads from an http or https URL *)
Lemma urlparse_scheme_http (base : str) b :
  http_base base = true ->
  urllib.urlparse base [] = Ok b ->
  urllib.scheme b = lit "http" \/ urllib.scheme b = lit "https".
Proof.
  intros Hb. unfold urllib.urlparse.
  destruct (urllib.urlsplit base []) as [r|e] eqn:E; cbn [mbind result_bind];
    [|done].
  assert (urllib.sp_scheme r = lit "http" \/ urllib.sp_scheme r = lit "https")
    as Hs.
  { apply orb_true_iff in Hb as [[rest ->]%startswith_prefix
                                |[rest ->]%startswith_prefix].
    - left. by apply (urlsplit_scheme_http rest).
    - right. by apply (urlsplit_scheme_https rest). }
  destruct (_ && _); [destruct (urllib.splitparams _)|]; by intros [= <-].
Qed.

Lemma urlunparse_scheme_no_data (s n pa pr q f : str) :
  s = lit "http" \/ s = lit "https" ->
  startswith (lit "data:") (urllib.urlunparse s n pa pr q f) = false.
Proof.
  intros [-> | ->]; unfold urllib.urlunparse, urllib.urlunsplit.
  - change (urllib.nonempty (lit "http")) with true. cbv iota.
    by destruct (urllib.nonempty q), (urllib.nonempty f).
  - change (urllib.nonempty (lit "https")) with true. cbv iota.
    by destruct (urllib.nonempty q), (urllib.nonempty f).
Qed.

(** Against an http or https base, [urljoin] gives a [data:] URL only for a
    reference that begins with [data:]: a reference of another scheme is
    returned as it is, and any other result begins with the scheme of the
    base. *)
Lemma urljoin_http_no_data (base raw u : str) :
  http_base base = true ->
  urllib.urljoin base raw = Ok u ->
  startswith (lit "data:") u = true ->
  startswith (lit "data:") raw = true.
Proof.
  intros Hb. unfold urllib.urljoin.
  destruct (urllib.nonempty base) eqn:Hne; cbn [negb].
  2:{ destruct base; [|done]. by vm_compute in Hb. }
  destruct (urllib.nonempty raw) eqn:Hraw; cbn [negb].
  2:{ intros [= <-] H. exfalso.
      apply orb_true_iff in Hb as [[rest ->]%startswith_prefix
                                  |[rest ->]%startswith_prefix];
        by vm_compute in H. }
  destruct (urllib.urlparse base []) as [b|e] eqn:B; cbn [mbind result_bind];
    [|done].
  pose proof (urlparse_scheme_http _ _ Hb B) as Hs.
  destruct (urllib.urlparse raw _) as [p|e]; cbn [mbind result_bind]; [|done].
  destruct (decide (urllib.scheme p = urllib.scheme b)) as [E|E].
  - rewrite E.
    repeat match goal with
    | |- (if ?c then _ else _) = _ -> _ => destruct c
    end; intros [= <-] H;
      first [done | by rewrite urlunparse_scheme_no_data in H].
  - rewrite bool_decide_eq_false_2 by done. by intros [= <-].
Qed.

End Reference.

(** ** Data URIs, on every runtime and on the reference runtime *)

(** C5, as amended.  A fragment whose [url(...)] token begins with [data:]
    gives no candidate.  On both parsing paths the url of every FontFace is
    the resolution against the base of a token that does not begin with
    [data:]; so no FontFace has a url that begins with [data:] whenever
    resolution against the base does not itself turn such a token into a
    [data:] URL.  The reference [urljoin] never does so against a base that
    begins with http:// or https://, and there no FontFace has a [data:]
    url, whatever the style-sheet parser. *)
Theorem data_uri_never_extracted `{RT : Runtime} (base_url : str) :
  (forall src_value m,
     re_search URL_RE src_value = Some m ->
     startswith (lit "data:") (group1 m) = true ->
     extract_font_url src_value base_url = Ok None)
  /\ (forall css_text fonts,
        parse_css_for_fonts css_text base_url = Ok fonts
        \/ parse_css_with_regex css_text base_url = Ok fonts ->
        Forall (fun f => from_plain_token base_url (url f)) fonts)
  /\ ((forall raw u, urljoin base_url raw = Ok u ->
         startswith (lit "data:") u = true ->
         startswith (lit "data:") raw = true) ->
      forall css_text fonts,
        parse_css_for_fonts css_text base_url = Ok fonts
        \/ parse_css_with_regex css_text base_url = Ok fonts ->
        Forall (fun f => startswith (lit "data:") (url f) = false) fonts)
  /\ (http_base base_url = true ->
      forall raw u, urllib.urljoin base_url raw = Ok u ->
        startswith (lit "data:") u = true ->
        startswith (lit "data:") raw = true)
  /\ (http_base base_url = true ->
      forall parser css_text fonts,
        @parse_css_for_fonts (reference_runtime parser) css_text base_url
          = Ok fonts
        \/ @parse_css_with_regex (reference_runtime parser) css_text base_url
           = Ok fonts ->
        Forall (fun f => startswith (lit "data:") (url f) = false) fonts).
Proof.
  assert (forall (R : Runtime) css_text fonts,
            @parse_css_for_fonts R css_text base_url = Ok fonts
            \/ @parse_css_with_regex R css_text base_url = Ok fonts ->
            Forall (fun f => @from_plain_token R base_url (url f)) fonts)
    as Hplain.
  { intros R css_text fonts [H|H]; [by eapply parse_css_for_fonts_plain|].
    by eapply parse_blocks_plain. }
  assert (forall (R : Runtime),
            (forall raw u, @urljoin R base_url raw = Ok u ->
               startswith (lit "data:") u = true ->
               startswith (lit "data:") raw = true) ->
            forall css_text fonts,
              @parse_css_for_fonts R css_text base_url = Ok fonts
              \/ @parse_css_with_regex R css_text base_url = Ok fonts ->
              Forall (fun f => startswith (lit "data:") (url f) = false) fonts)
    as Hnodata.
  { intros R Hres css_text fonts H.
    eapply Forall_impl; [apply (Hplain R _ _ H)|]. intros f (raw & Hraw & Hj).
    destruct (startswith (lit "data:") (url f)) eqn:E; [|done].
    by rewrite (Hres _ _ Hj E) in Hraw. }
  split; [apply extract_font_url_data|].
  split; [apply Hplain|]. split; [apply Hnodata|].
  split; [intros Hb raw u; by apply Reference.urljoin_http_no_data|].
  intros Hb parser. apply Hnodata. intros raw u.
  by apply Reference.urljoin_http_no_data.
Qed.

(** ** C1 *)

(** C1, witness: sources with and without declared format and a data URI.
    The three candidates are the entries of the first, second and fourth
    fragment, in that order; the truetype and woff2 files are ranked by
    their extension, the woff file by its declared format; the woff2 file,
    declared last, is chosen, also when the fragments are reversed. *)
Lemma select_best_source_witness :
  @src_candidates rt_reference mixed_sources x_test_base
    = Ok [ (lit "https://x.test/css/a.ttf", None, 2%nat);
           (lit "https://x.test/css/b.woff", Some (lit "woff"), 1%nat);
           (lit "https://x.test/css/c.woff2", None, 0%nat) ]
  /\ @select_best_source rt_reference mixed_sources x_test_base
     = Ok (Some (lit "https://x.test/css/c.woff2", None, 0%nat))
  /\ @select_among rt_reference (reverse (split (chr ",") mixed_sources))
       x_test_base
     = Ok (Some (lit "https://x.test/css/c.woff2", None, 0%nat))
  /\ (exists rs,
        Forall2 (fun part r =>
                   @extract_font_url rt_reference (strip part) x_test_base
                   = Ok r)
          (split (chr ",") mixed_sources) rs
        /\ [ (lit "https://x.test/css/a.ttf", None);
             (lit "https://x.test/css/b.woff", Some (lit "woff"));
             (lit "https://x.test/css/c.woff2", None) ]
           = omap id rs).
Proof.
  assert (H : @src_candidates rt_reference mixed_sources x_test_base
    = Ok [ (lit "https://x.test/css/a.ttf", None, 2%nat);
           (lit "https://x.test/css/b.woff", Some (lit "woff"), 1%nat);
           (lit "https://x.test/css/c.woff2", None, 0%nat) ])
    by (vm_compute; reflexivity).
  split; [exact H|].
  destruct (proj1 (@select_best_source_first_lowest rt_reference
                     mixed_sources x_test_base) _ H)
    as (Hent & _ & Hsel & _ & _ & Hperm).
  split; [rewrite Hsel; vm_compute; reflexivity|].
  split; [|exact Hent].
  destruct (Hperm (reverse (split (chr ",") mixed_sources)))
    as (cs' & _ & _ & -> & _ & Hsame); [symmetry; apply reverse_Permutation|].
  f_equal. apply Hsame; [vm_compute; reflexivity|].
  repeat constructor; vm_compute; intros [=]; reflexivity.
Defined.

(** C1, counterexample.  Two sources of the same rank: the chosen entry is
    the one declared first, so it changes with the order of declaration.
    A woff2 source followed by a source that the URL library rejects:
    selection raises and returns no entry, though the woff2 source alone
    gives the candidate of rank 0. *)
Lemma select_best_source_order_matters :
  split (chr ",") two_woff2 ≡ₚ split (chr ",") two_woff2_swapped
  /\ @select_best_source rt_reference two_woff2 x_test_base
     = Ok (Some (lit "https://x.test/css/a.woff2", None, 0%nat))
  /\ @select_best_source rt_reference two_woff2_swapped x_test_base
     = Ok (Some (lit "https://x.test/css/b.woff2", None, 0%nat))
  /\ @select_best_source rt_reference two_woff2 x_test_base
     <> @select_best_source rt_reference two_woff2_swapped x_test_base
  /\ @select_best_source rt_reference (lit "url(a.woff2)") x_test_base
     = Ok (Some (lit "https://x.test/css/a.woff2", None, 0%nat))
  /\ @select_best_source rt_reference woff2_then_bad x_test_base
     = Raise ValueError.
Proof.
  split; [vm_compute; apply Permutation_swap|].
  split; [vm_compute; reflexivity|].
  split; [vm_compute; reflexivity|].
  split; [vm_compute; discriminate|].
  split; vm_compute; reflexivity.
Qed.

(** ** C2 *)

(** C2, at the failing input: the second rule raises in the structured
    path after the first has given its FontFace; that FontFace stays in the
    list and the fallback's FontFaces are appended to it, so the scan is not
    the fallback scan. *)
Theorem structured_results_kept :
  @parseString rt_two_rules two_rules_css = Ok two_rules_sheet
  /\ @extend_from_rules rt_two_rules two_rules_sheet x_test_base []
     = ([face_A], Some ValueError)
  /\ @parse_css_with_regex rt_two_rules two_rules_css x_test_base
     = Ok [face_A; face_B]
  /\ @parse_css_for_fonts rt_two_rules two_rules_css x_test_base
     = Ok [face_A; face_A; face_B].
Proof. repeat split; vm_compute; reflexivity. Qed.

(** ** C3 *)

(** C3, witness: Fira Code, with sans and serif in the name as well. *)
Lemma classify_font_witness :
  @classify_font rt_fallback (lit "Fira Code Sans Serif") = MONOSPACE
  /\ @classify_font rt_fallback (lit "Fira Code") = MONOSPACE
  /\ @classify_font rt_fallback (lit "Sans Mono") = MONOSPACE.
Proof.
  pose proof (@classify_font_first_rule rt_fallback
                (lit "Fira Code Sans Serif")) as (_ & H1 & _).
  pose proof (@classify_font_first_rule rt_fallback
                (lit "Fira Code")) as (_ & H2 & _).
  pose proof (@classify_font_first_rule rt_fallback
                (lit "Sans Mono")) as (_ & _ & H3).
  split; [|split].
  - apply H1. exists (plit "fira" ++ [spaces] ++ plit "code").
    split; [unfold MONO_PATTERNS; set_solver|]. vm_compute. eauto.
  - apply H2. exists (plit "fira" ++ [spaces] ++ plit "code").
    split; [unfold MONO_PATTERNS; set_solver|]. vm_compute. eauto.
  - apply (H3 "mono"%string (lit "sans ") []); [set_solver|].
    vm_compute. reflexivity.
Defined.

(** ** C4 *)

(** C4, witness: the scenario on the reference runtime. *)
Lemma myfont_round_trip_witness :
  @parse_css_for_fonts rt_myfont myfont_css x_test_base = Ok [myfont_face].
Proof.
  apply (@myfont_round_trip rt_myfont myfont_rule_verbatim
           (lit "https://x.test/css/a.ttf")).
  - set_solver.
  - reflexivity.
  - vm_compute. reflexivity.
  - vm_compute. reflexivity.
Defined.

(** ** C5 *)

(** C5, witness.  The fragment of the specification, a data URI in
    url(...): the pattern captures the data URI and extraction gives none.
    A rule with a data URI before a file: on the structured path the first
    fragment reaches the test and is passed over, the FontFace has the url
    of the file; on the fallback path the first token of the value is the
    data URI and the rule gives nothing.  The base begins with https://. *)
Lemma data_uri_never_extracted_witness :
  (exists m,
     @re_search rt_reference URL_RE data_fragment = Some m
     /\ group1 m = lit "data:font/woff2;base64,AAAA")
  /\ @extract_font_url rt_reference data_fragment x_test_base = Ok None
  /\ @candidate_of rt_data_then_file (lit "url(data:abc)") x_test_base
     = Ok None
  /\ @parse_css_for_fonts rt_data_then_file data_then_file_css x_test_base
     = Ok [face_A]
  /\ @parse_css_with_regex rt_data_then_file data_then_file_css x_test_base
     = Ok []
  /\ http_base x_test_base = true
  /\ Forall (fun f => startswith (lit "data:") (url f) = false) [face_A].
Proof.
  assert (Hm : @re_search rt_reference URL_RE data_fragment
               = Some (mkMatch 32 (lit "data:font/woff2;base64,AAAA")))
    by (vm_compute; reflexivity).
  assert (Hs : @parse_css_for_fonts rt_data_then_file data_then_file_css
                 x_test_base = Ok [face_A]) by (vm_compute; reflexivity).
  assert (Hb : http_base x_test_base = true) by (vm_compute; reflexivity).
  split; [eexists; split; [exact Hm|reflexivity]|].
  split.
  { apply (proj1 (@data_uri_never_extracted rt_reference x_test_base)
             _ _ Hm). vm_compute. reflexivity. }
  split; [vm_compute; reflexivity|]. split; [exact Hs|].
  split; [vm_compute; reflexivity|]. split; [exact Hb|].
  apply (proj2 (proj2 (proj2 (proj2
           (@data_uri_never_extracted rt_reference x_test_base)))) Hb
           (fixed_parser data_then_file_sheet) data_then_file_css).
  left. exact Hs.
Defined.

(** C5, counterexample: the page URL given without a scheme; the token
    ./data:foo does not begin with data: and is resolved to data:foo, the
    url of the FontFace, on the structured path and on the fallback path. *)
Lemma relative_base_gives_data_url :
  @parse_css_for_fonts rt_dotdata dotdata_css (lit "localhost")
  = Ok [face_data_foo]
  /\ (forall parser,
        @parse_css_with_regex (reference_runtime parser) dotdata_css
          (lit "localhost")
        = Ok [face_data_foo])
  /\ startswith (lit "data:") (url face_data_foo) = true
  /\ http_base (lit "localhost") = false.
Proof.
  split; [vm_compute; reflexivity|].
  split; [intros parser; vm_compute; reflexivity|].
  split; vm_compute; reflexivity.
Qed.

(** ** C6 *)

(** C6, witness: two entries of one url with different family, weight and
    style; the first stays. *)
Lemma deduplicate_fonts_witness :
  deduplicate_fonts [face_A; face_B; face_A_renamed] = [face_A; face_B].
Proof.
  destruct (deduplicate_fonts_stable_first [face_A; face_B; face_A_renamed])
    as (_ & _ & _ & _ & H & _).
  rewrite (H [face_A; face_B] face_A_renamed []); [|reflexivity|].
  - vm_compute. reflexivity.
  - vm_compute. set_solver.
Defined.

(** ** C7 *)

(** C7, witness: a family with a space, a weight with a run of two spaces,
    a URL with a query, the fourth font. *)
Lemma download_filename_witness :
  @urlparse_path rt_fallback (url my_font_face) = Ok (lit "/fonts/my.woff")
  /\ contains (chr "?") (lit "/fonts/my.woff") = false
  /\ @download_filename rt_fallback my_font_face 3
     = Ok (lit "My_Font-400_700-italic-03.woff").
Proof.
  split; [vm_compute; reflexivity|]. split; [reflexivity|].
  destruct (@download_filename_parts rt_fallback my_font_face 3
              (lit "/fonts/my.woff")) as [-> _];
    [vm_compute; reflexivity|reflexivity|].
  vm_compute. reflexivity.
Defined.

(** C7, counterexample: the e with acute accent (U+00E9) is outside
    [A-Za-z0-9_-] and is a word character; it stays in the file name. *)
Lemma accented_letter_is_kept :
  ascii_safe 233 = false
  /\ @download_filename rt_fallback cafe_face 0
     = Ok ([67; 97; 102; 233] ++ lit "-400-normal-00.woff2").
Proof. split; vm_compute; reflexivity. Qed.

(** ** C8 *)



(** ** C10 *)

(** C10, witness: a minified block that ends with its only [src]
    declaration; no semicolon comes after src, and the block and the rule
    give no FontFace, whatever the style-sheet parser. *)
Lemma fallback_needs_semicolon_witness :
  semicolon_follows (lit "src") minified_block = false
  /\ ~ terminated_decl (lit "src") minified_block
  /\ (forall parser,
        @parse_block (reference_runtime parser) minified_block x_test_base
        = Ok None)
  /\ (forall parser,
        @parse_css_with_regex (reference_runtime parser)
          (lit "@font-face{" ++ minified_block ++ lit "}") x_test_base
        = Ok []).
Proof.
  assert (H : semicolon_follows (lit "src") minified_block = false)
    by (vm_compute; reflexivity).
  split; [exact H|].
  pose proof (fun parser =>
    @fallback_needs_semicolon (reference_runtime parser) minified_block
      x_test_base) as T.
  split; [exact (proj2 (proj2 (proj2 (proj2 (T (fixed_parser []))))) H)|].
  split; [|intros parser; vm_compute; reflexivity].
  intros parser.
  apply (proj1 (proj2 (proj2 (proj2 (T parser))))).
  exact (proj2 (proj2 (proj2 (proj2 (T parser)))) H).
Defined.

(** C10, counterexample: the last declaration of the block is a [src]
    declaration without a semicolon, after a [src] declaration that has
    one; the fallback parser reads the earlier declaration and gives a
    FontFace, whatever the style-sheet parser. *)
Lemma unterminated_last_src_still_parsed :
  two_src_block
  = lit "font-family:A;src:url(a.eot);" ++ lit "src:url(b.woff) format('woff')"
  /\ contains (chr ";") (lit "src:url(b.woff) format('woff')") = false
  /\ (forall parser,
        @parse_block (reference_runtime parser) two_src_block x_test_base
        = Ok (Some face_A_eot))
  /\ (forall parser,
        @parse_css_with_regex (reference_runtime parser)
          (lit "@font-face{" ++ two_src_block ++ lit "}") x_test_base
        = Ok [face_A_eot]).
Proof.
  split; [reflexivity|]. split; [vm_compute; reflexivity|].
  split; intros parser; vm_compute; reflexivity.
Qed.

(** * The further properties on the scenarios *)

(** X1, witness: the first source of the two-source value, a truetype
    file with its declared format. *)
Lemma extract_font_url_token_witness :
  @extract_font_url rt_fallback ttf_then_woff2 x_test_base
    = Ok (Some (lit "https://x.test/css/a.ttf", Some (lit "truetype")))
  /\ exists raw,
       forallb token_char raw = true
       /\ startswith (lit "data:") raw = false
       /\ @urljoin rt_fallback x_test_base raw
          = Ok (lit "https://x.test/css/a.ttf").
Proof.
  assert (H : @extract_font_url rt_fallback ttf_then_woff2 x_test_base
    = Ok (Some (lit "https://x.test/css/a.ttf", Some (lit "truetype"))))
    by (vm_compute; reflexivity).
  split; [exact H|].
  destruct (@extract_font_url_token rt_fallback _ _ _ _ H)
    as ((raw & a & q & b & _ & _ & _ & Ht & Hd & Hu) & _).
  exists raw. split; [exact Ht|]. split; [exact Hd|exact Hu].
Defined.

(** X2, witness: a local source. *)
Lemma extract_font_url_without_url_witness :
  occurs (lit "url(") (lit "local(Arial)") = false
  /\ @extract_font_url rt_fallback (lit "local(Arial)") x_test_base = Ok None.
Proof.
  split; [vm_compute; reflexivity|].
  apply (@extract_font_url_without_url rt_fallback). vm_compute. reflexivity.
Defined.

(** X3, witness: the rule of the round-trip scenario. *)
Lemma parse_font_face_rule_fields_witness :
  @parse_font_face_rule rt_fallback myfont_rule_verbatim x_test_base
    = Ok [myfont_face]
  /\ (length [myfont_face] <= 1)%nat
  /\ weight myfont_face
     = default (lit "400") (last_value (lit "font-weight") myfont_rule_verbatim).
Proof.
  assert (H : @parse_font_face_rule rt_fallback myfont_rule_verbatim x_test_base
    = Ok [myfont_face]) by (vm_compute; reflexivity).
  split; [exact H|].
  destruct (@parse_font_face_rule_fields rt_fallback _ _ _ H) as [Hl Hf].
  split; [exact Hl|].
  destruct (Hf myfont_face) as (_ & Hw & _); [left|exact Hw].
Defined.

(** X4, witness: a rule with a family and a weight and no src. *)
Lemma parse_font_face_rule_incomplete_witness :
  last_value (lit "src") family_only_rule = None
  /\ @parse_font_face_rule rt_fallback family_only_rule x_test_base = Ok [].
Proof.
  split; [vm_compute; reflexivity|].
  apply (@parse_font_face_rule_incomplete rt_fallback). right.
  vm_compute. reflexivity.
Defined.

(** X5, witness: a rule whose only source is a data URI. *)
Lemma parse_font_face_rule_no_candidate_witness :
  last_value (lit "src") data_rule = Some (lit "url(data:abc)")
  /\ @select_best_source rt_fallback (lit "url(data:abc)") x_test_base = Ok None
  /\ @parse_font_face_rule rt_fallback data_rule x_test_base = Ok [].
Proof.
  split; [vm_compute; reflexivity|].
  apply (@parse_font_face_rule_no_candidate rt_fallback).
  - vm_compute. reflexivity.
  - change (split (chr ",") (lit "url(data:abc)")) with [lit "url(data:abc)"].
    constructor; [|constructor].
    exists (mkMatch 13 (lit "data:abc")). split; vm_compute; reflexivity.
Defined.

(** X6, witness: a style sheet without a font-face rule. *)
Lemma fallback_without_at_witness :
  contains (chr "@") (lit "body{margin:0}") = false
  /\ @parse_css_with_regex rt_fallback (lit "body{margin:0}") x_test_base
     = Ok [].
Proof.
  split; [vm_compute; reflexivity|].
  apply (@fallback_without_at rt_fallback). vm_compute. reflexivity.
Defined.

(** X7, witness: the Georgia Pro block. *)
Lemma fallback_fields_stripped_witness :
  @parse_css_with_regex rt_fallback georgia_block x_test_base
    = Ok [georgia_face (lit "https://x.test/css/g.woff")]
  /\ Forall (fun f => stripped (family f) /\ stripped (weight f)
                      /\ stripped (style f)
                      /\ category f = @classify_font rt_fallback (family f))
       [georgia_face (lit "https://x.test/css/g.woff")].
Proof.
  assert (H : @parse_css_with_regex rt_fallback georgia_block x_test_base
    = Ok [georgia_face (lit "https://x.test/css/g.woff")])
    by (vm_compute; reflexivity).
  split; [exact H|].
  apply (@fallback_fields_stripped rt_fallback _ _ _ H).
Defined.

(** X8, witness: the round-trip scenario on the structured path. *)
Lemma scan_categories_witness :
  @parse_css_for_fonts rt_myfont myfont_css x_test_base = Ok [myfont_face]
  /\ Forall (fun f => category f = @classify_font rt_myfont (family f)
                      /\ category f <> DISPLAY) [myfont_face].
Proof.
  assert (H : @parse_css_for_fonts rt_myfont myfont_css x_test_base
    = Ok [myfont_face]) by (vm_compute; reflexivity).
  split; [exact H|].
  apply (@scan_categories rt_myfont _ _ _ H).
Defined.

(** X9, witness: the one rule of the round-trip scenario. *)
Lemma structured_scan_concat_witness :
  @parseString rt_myfont myfont_css = Ok [CSSFontFaceRule myfont_rule_verbatim]
  /\ @parse_css_for_fonts rt_myfont myfont_css x_test_base
     = Ok (concat [[myfont_face]]).
Proof.
  split; [reflexivity|].
  apply (@structured_scan_concat rt_myfont myfont_css x_test_base
           [CSSFontFaceRule myfont_rule_verbatim] [[myfont_face]]).
  - reflexivity.
  - constructor; [vm_compute; reflexivity|constructor].
Defined.

(** X10, witness: a rule whose only source cannot be resolved; the
    structured path raises on it and so does the fallback. *)
Lemma scan_raises_what_fallback_raises_witness :
  @parse_css_for_fonts rt_bad_url bad_url_css x_test_base = Raise ValueError
  /\ (exists e', (@try_structured rt_bad_url bad_url_css x_test_base []).2
                 = Some e')
  /\ @parse_css_with_regex rt_bad_url bad_url_css x_test_base
     = Raise ValueError.
Proof.
  assert (H : @parse_css_for_fonts rt_bad_url bad_url_css x_test_base
              = Raise ValueError) by (vm_compute; reflexivity).
  split; [exact H|].
  exact (proj1 (@scan_raises_what_fallback_raises rt_bad_url bad_url_css
                  x_test_base ValueError) H).
Defined.

(** X17, witness: two different faces that get the same file name, My Font
    and My_Font, at the same index. *)
Lemma download_filename_index_injective_witness :
  my_font_face <> my_font_face_underscore
  /\ @download_filename rt_fallback my_font_face 3
     = Ok (lit "My_Font-400_700-italic-03.woff")
  /\ @download_filename rt_fallback my_font_face_underscore 3
     = Ok (lit "My_Font-400_700-italic-03.woff")
  /\ 3%nat = 3%nat.
Proof.
  assert (H1 : @download_filename rt_fallback my_font_face 3
    = Ok (lit "My_Font-400_700-italic-03.woff")) by (vm_compute; reflexivity).
  assert (H2 : @download_filename rt_fallback my_font_face_underscore 3
    = Ok (lit "My_Font-400_700-italic-03.woff")) by (vm_compute; reflexivity).
  split; [vm_compute; discriminate|]. split; [exact H1|]. split; [exact H2|].
  apply (@download_filename_index_injective rt_fallback my_font_face
           my_font_face_underscore 3 3 _ H1 H2).
Defined.

(** X18, witness: the example of the source, www.economist.com. *)
Lemma extract_site_name_label_witness :
  urlparse_netloc (lit "https://www.economist.com/fonts")
    = Ok (lit "www.economist.com")
  /\ @extract_site_name rt_fallback urlparse_netloc
       (lit "https://www.economist.com/fonts")
     = Ok (lit "economist").
Proof.
  assert (H : urlparse_netloc (lit "https://www.economist.com/fonts")
    = Ok (lit "www.economist.com")) by (vm_compute; reflexivity).
  split; [exact H|].
  destruct (@extract_site_name_label rt_fallback urlparse_netloc _ _ H)
    as (name & -> & _ & Hl & _).
  f_equal. apply (Hl [] (lit "economist") (lit "com")).
  - vm_compute. reflexivity.
  - repeat constructor; apply contains_false; vm_compute; reflexivity.
Defined.

(** X19, witness: the links of the small site; s.css is linked twice by
    rel and once by type, t.css twice by type. *)
Lemma extract_css_urls_shape_witness :
  @extract_css_urls rt_fallback (site_rel_hrefs site_html)
    (site_type_hrefs site_html) site_page
    = Ok [x_test_base; x_test_base; lit "https://x.test/css/t.css"]
  /\ exists rel_urls extra,
       [x_test_base; x_test_base; lit "https://x.test/css/t.css"]
       = rel_urls ++ extra
       /\ length rel_urls = 2%nat /\ NoDup extra.
Proof.
  assert (H : @extract_css_urls rt_fallback (site_rel_hrefs site_html)
    (site_type_hrefs site_html) site_page
    = Ok [x_test_base; x_test_base; lit "https://x.test/css/t.css"])
    by (vm_compute; reflexivity).
  split; [exact H|].
  destruct (@extract_css_urls_shape rt_fallback _ _ _ _ H)
    as (rel_urls & extra & E & HF & Hnd & _).
  exists rel_urls, extra. split; [exact E|]. split; [|exact Hnd].
  apply Forall2_length in HF. rewrite <- HF. reflexivity.
Defined.

(** X22, witness: the small site; the face of the inline block comes
    first, then the face of the style sheet, once for each of the two rel
    links to it; t.css cannot be fetched and adds nothing. *)
Lemma collect_fonts_inline_first_witness :
  exists st,
    @collect_fonts_from_page rt_fallback nat site_fetch site_style_strings
      site_rel_hrefs site_type_hrefs site_page 0%nat
    = (st, Ok [georgia_face (lit "https://x.test/css/g.woff");
               myfont_ttf_face; myfont_ttf_face])
    /\ world st = 4%nat
    /\ exists fss,
         concat fss `prefix_of` [georgia_face (lit "https://x.test/css/g.woff");
                                 myfont_ttf_face; myfont_ttf_face]
         /\ Forall2 (fun style fs =>
                       @parse_css_for_fonts rt_fallback style site_page = Ok fs)
              (extract_inline_styles (site_style_strings site_html)) fss.
Proof.
  eexists.
  assert (H : @collect_fonts_from_page rt_fallback nat site_fetch
    site_style_strings site_rel_hrefs site_type_hrefs site_page 0%nat
    = (_, Ok [georgia_face (lit "https://x.test/css/g.woff");
              myfont_ttf_face; myfont_ttf_face]))
    by (vm_compute; reflexivity).
  split; [exact H|]. split; [reflexivity|].
  destruct (@collect_fonts_inline_first rt_fallback nat site_fetch
              site_style_strings site_rel_hrefs site_type_hrefs _ _ _ _ H)
    as (html & w' & fss & css_urls & Hf & HF & _ & Hp & _).
  injection Hf as <- _.
  exists fss. split; [exact Hp|exact HF].
Defined.

(** X27, witness: the style sheet of the round-trip scenario, which has no
    import. *)
Lemma collect_stylesheet_without_import_witness :
  site_fetch x_test_base 0 = (Ok myfont_css, 1%nat)
  /\ occurs (lit "@import") myfont_css = false
  /\ @parse_css_for_fonts rt_fallback myfont_css x_test_base = Ok [myfont_ttf_face]
  /\ @collect_stylesheet rt_fallback nat site_fetch x_test_base
       (mkCollector 0%nat [] [])
     = mkCollector 1%nat [myfont_ttf_face] [FetchingCSS x_test_base].
Proof.
  split; [vm_compute; reflexivity|].
  split; [vm_compute; reflexivity|].
  split; [vm_compute; reflexivity|].
  apply (@collect_stylesheet_without_import rt_fallback nat site_fetch
           x_test_base myfont_css (mkCollector 0%nat [] []) 1%nat [myfont_ttf_face]).
  - vm_compute. reflexivity.
  - left. vm_compute. reflexivity.
  - vm_compute. reflexivity.
Defined.
